(** * Word Visualizer: model loading, highlight set, part-of-speech cache and
      paragraph extraction of [src/src/App.tsx]

    The development is a shallow embedding of the state-management logic of
    the [App] component.  React state is one record, every handler is a
    function of that record in a small state-and-exception monad, and the
    dictionary service is an oracle handed to the handler that calls it.
    A handler runs to its end before the next one starts, so the values a
    closure captured are the values of the state the handler started in;
    what a handler asks of the outside (requests, joins on promises, timer
    waits) is kept in a log.  JavaScript strings are sequences of code
    units; the model keeps the code units U+0000..U+00FF (Rocq's [ascii],
    read as Latin-1). *)

From Stdlib Require Import ZArith NArith Ascii String List Bool Lia.
From stdpp Require Import base option list strings gmap pretty.
From Equations Require Import Equations.

Local Open Scope Z_scope.
Set Warnings "-clear-no-such-hyp".

(** ** JavaScript string primitives used by the handlers *)

Module JS.

Definition code (c : ascii) : N := N_of_ascii c.

Definition between (lo hi : N) (c : ascii) : bool :=
  ((lo <=? code c) && (code c <=? hi))%N.

(** [\d] *)
Definition isDigit (c : ascii) : bool := between 48 57 c.

Definition isUpper (c : ascii) : bool := between 65 90 c.
Definition isLower (c : ascii) : bool := between 97 122 c.
Definition isUnderscore (c : ascii) : bool := (code c =? 95)%N.

(** [\w] without the [u] and [i] flags: [A-Za-z0-9_]. *)
Definition isWordChar (c : ascii) : bool :=
  isDigit c || isUpper c || isLower c || isUnderscore c.

(** [\s] and the characters removed by [trim]: TAB, LF, VT, FF, CR, SP and
    NBSP are the white space and line terminators below U+0100. *)
Definition isSpace (c : ascii) : bool :=
  between 9 13 c || (code c =? 32)%N || (code c =? 160)%N.

(** The quote class of the CSV clean-up: the double and the single quote. *)
Definition isQuote (c : ascii) : bool :=
  (code c =? 34)%N || (code c =? 39)%N.

(** [toLowerCase] on one code unit: A-Z, and the Latin-1 capitals
    U+00C0..U+00DE except the multiplication sign U+00D7. *)
Definition toLowerChar (c : ascii) : ascii :=
  if isUpper c || (between 192 222 c && negb (code c =? 215)%N)
  then ascii_of_N (code c + 32) else c.

Fixpoint smap (f : ascii -> ascii) (s : string) : string :=
  match s with
  | EmptyString => EmptyString
  | String c r => String (f c) (smap f r)
  end.

Fixpoint sexists (p : ascii -> bool) (s : string) : bool :=
  match s with
  | EmptyString => false
  | String c r => p c || sexists p r
  end.

Definition isEmpty (s : string) : bool :=
  match s with EmptyString => true | _ => false end.

Definition toLowerCase (s : string) : string := smap toLowerChar s.

Fixpoint trimStart (s : string) : string :=
  match s with
  | String c r => if isSpace c then trimStart r else s
  | EmptyString => EmptyString
  end.

Fixpoint trimEnd (s : string) : string :=
  match s with
  | EmptyString => EmptyString
  | String c r =>
      let r' := trimEnd r in
      if isSpace c && isEmpty r' then EmptyString else String c r'
  end.

Definition trim (s : string) : string := trimEnd (trimStart s).

(** The clean-up [s.replace(re, empty)] where [re] is, globally, a quote
    at the start of the string or a quote at its end: the two alternatives
    are tried left to right over the string, so a leading quote is consumed
    first and the trailing one is looked for in what remains. *)
Fixpoint dropLastQuote (s : string) : string :=
  match s with
  | EmptyString => EmptyString
  | String c r =>
      if isEmpty r then (if isQuote c then EmptyString else s)
      else String c (dropLastQuote r)
  end.

Definition stripQuotes (s : string) : string :=
  match s with
  | String c r => if isQuote c then dropLastQuote r else dropLastQuote s
  | EmptyString => EmptyString
  end.

(** [s.replace(/[^\w\s]|_/g, SP)]: every character that is neither a word
    character nor white space, and every underscore, becomes one space. *)
Definition replacePunct (s : string) : string :=
  smap (fun c => if negb (isWordChar c || isSpace c) || isUnderscore c
                 then " "%char else c) s.

(** [s.replace(/\s+/g, SP)]: [inRun] says that the previous character
    belonged to the white-space run being replaced. *)
Fixpoint collapseFrom (inRun : bool) (s : string) : string :=
  match s with
  | EmptyString => EmptyString
  | String c r =>
      if isSpace c
      then (if inRun then collapseFrom true r
            else String " " (collapseFrom true r))
      else String c (collapseFrom false r)
  end.

Definition collapseSpaces (s : string) : string := collapseFrom false s.

(** [s.split(sep)] for a one-character separator; the empty string splits
    into one empty field. *)
Fixpoint split (sep : ascii) (s : string) : list string :=
  match s with
  | EmptyString => [EmptyString]
  | String c r =>
      if Ascii.eqb c sep then EmptyString :: split sep r
      else match split sep r with
           | h :: t => String c h :: t
           | [] => [String c EmptyString]
           end
  end.

(** [/\d/.test(s)] *)
Definition hasDigit (s : string) : bool := sexists isDigit s.

(** *** [Number(s)]

    The value of a numeric string is kept as the decimal it denotes,
    [m * 10^e]; the rounding to binary64 is not modelled, and no handler
    looks at a coordinate beyond [isNaN]. *)
Inductive number : Type :=
| NaN
| Infinity (negative : bool)
| Dec (m : Z) (e : Z).

Definition isNaN (n : number) : bool :=
  match n with NaN => true | _ => false end.

Definition digitVal (c : ascii) : N := (code c - 48)%N.

(** Reads a maximal run of decimal digits, accumulating onto [acc]. *)
Fixpoint takeDigits (s : string) (acc : N) (cnt : nat) : N * nat * string :=
  match s with
  | String c r =>
      if isDigit c then takeDigits r (acc * 10 + digitVal c)%N (S cnt)
      else (acc, cnt, s)
  | EmptyString => (acc, cnt, EmptyString)
  end.

(** ExponentPart, or nothing, up to the end of the string. *)
Definition parseExponent (s : string) (m : N) (e : Z) : option (N * Z) :=
  match s with
  | EmptyString => Some (m, e)
  | String c r =>
      if Ascii.eqb c "e" || Ascii.eqb c "E" then
        let '(neg, r1) :=
          match r with
          | String d r' =>
              if Ascii.eqb d "-" then (true, r')
              else if Ascii.eqb d "+" then (false, r')
              else (false, r)
          | EmptyString => (false, r)
          end in
        match takeDigits r1 0 0 with
        | (x, S _, EmptyString) =>
            Some (m, if neg then e - Z.of_N x else e + Z.of_N x)
        | _ => None
        end
      else None
  end.

(** StrUnsignedDecimalLiteral other than [Infinity]. *)
Definition parseUnsigned (s : string) : option (N * Z) :=
  let '(i, ni, r1) := takeDigits s 0 0 in
  match r1 with
  | String c r2 =>
      if Ascii.eqb c "." then
        let '(f, nf, r3) := takeDigits r2 i 0 in
        match ni, nf with
        | O, O => None
        | _, _ => parseExponent r3 f (- Z.of_nat nf)
        end
      else match ni with O => None | _ => parseExponent r1 i 0 end
  | EmptyString => match ni with O => None | _ => Some (i, 0) end
  end.

(** StrDecimalLiteral: an optional sign and an unsigned literal. *)
Definition parseDecimal (s : string) : number :=
  let '(neg, body) :=
    match s with
    | String c r =>
        if Ascii.eqb c "-" then (true, r)
        else if Ascii.eqb c "+" then (false, r)
        else (false, s)
    | EmptyString => (false, s)
    end in
  if String.eqb body "Infinity" then Infinity neg
  else match parseUnsigned body with
       | Some (m, e) => Dec (if neg then - Z.of_N m else Z.of_N m) e
       | None => NaN
       end.

Definition radixDigit (radix : N) (c : ascii) : option N :=
  let v :=
    if isDigit c then Some (digitVal c)
    else if between 97 102 c then Some (code c - 87)%N
    else if between 65 70 c then Some (code c - 55)%N
    else None in
  match v with
  | Some d => if (d <? radix)%N then Some d else None
  | None => None
  end.

Fixpoint parseRadix (radix : N) (s : string) (acc : N) : option N :=
  match s with
  | EmptyString => Some acc
  | String c r =>
      match radixDigit radix c with
      | Some d => parseRadix radix r (acc * radix + d)%N
      | None => None
      end
  end.

(** NonDecimalIntegerLiteral: [0x], [0o], [0b] and at least one digit. *)
Definition parseNonDecimal (s : string) : option N :=
  match s with
  | String z (String p (String d r)) =>
      if Ascii.eqb z "0" then
        let body := String d r in
        if Ascii.eqb p "x" || Ascii.eqb p "X" then parseRadix 16 body 0
        else if Ascii.eqb p "o" || Ascii.eqb p "O" then parseRadix 8 body 0
        else if Ascii.eqb p "b" || Ascii.eqb p "B" then parseRadix 2 body 0
        else None
      else None
  | _ => None
  end.

(** [Number(s)] for a string argument (StringToNumber). *)
Definition Number (s : string) : number :=
  let t := trim s in
  if isEmpty t then Dec 0 0
  else match parseNonDecimal t with
       | Some n => Dec (Z.of_N n) 0
       | None => parseDecimal t
       end.

End JS.

(** ** JavaScript values of a decoded JSON body *)

Module Value.

#[local] Unset Elimination Schemes.
Inductive jsval : Type :=
| VUndefined
| VNull
| VBool (b : bool)
| VNumber (n : JS.number)
| VString (s : string)
| VArray (items : list jsval)
| VObject (props : list (string * jsval)).
#[local] Set Elimination Schemes.

(** ToBoolean, as applied by [&&] and [if]. *)
Definition truthy (v : jsval) : bool :=
  match v with
  | VUndefined | VNull => false
  | VBool b => b
  | VNumber JS.NaN => false
  | VNumber (JS.Infinity _) => true
  | VNumber (JS.Dec m _) => negb (m =? 0)
  | VString s => negb (JS.isEmpty s)
  | VArray _ | VObject _ => true
  end.

(** Own property [key] of an object literal, [undefined] when missing. *)
Fixpoint prop (key : string) (props : list (string * jsval)) : jsval :=
  match props with
  | [] => VUndefined
  | (k, v) :: rest => if String.eqb k key then v else prop key rest
  end.

(** [v.key] for the keys the handlers read ([meanings], [definitions],
    [definition], [partOfSpeech]), none of which is a built-in property of
    arrays, strings, numbers or booleans; [None] is the TypeError raised on
    [undefined] and [null]. *)
Definition member (v : jsval) (key : string) : option jsval :=
  match v with
  | VUndefined | VNull => None
  | VObject props => Some (prop key props)
  | _ => Some VUndefined
  end.

(** [v[0]] *)
Definition first (v : jsval) : option jsval :=
  match v with
  | VUndefined | VNull => None
  | VArray items => Some (match items with a :: _ => a | [] => VUndefined end)
  | VObject props => Some (prop "0" props)
  | VString (String c _) => Some (VString (String c EmptyString))
  | _ => Some VUndefined
  end.

(** [v === s] for a string literal [s]. *)
Definition isString (s : string) (v : jsval) : bool :=
  match v with VString t => String.eqb t s | _ => false end.

End Value.
Export Value.

(** What [fetch(url)] followed by [response.json()] gives: the request is
    rejected, the body is not JSON, or the decoded body. *)
Inductive response : Type :=
| NetworkError
| InvalidBody
| Json (data : jsval).

(** ** Application state *)

Module WordEmbedding.
Record t : Type := mk {
  word : string;
  x : JS.number;
  y : JS.number;
  pos : option string
}.
Definition withPos (p : string) (e : t) : t :=
  mk (word e) (x e) (y e) (Some p).
End WordEmbedding.

Module Model.
Record t : Type := mk {
  name : string;
  embeddings : gmap string WordEmbedding.t
}.
End Model.

Module Paragraph.
Record t : Type := mk {
  id : string;
  text : string;
  words : list string
}.
End Paragraph.

(** The [useState] cells of [App] that the handlers below read or write.
    The input fields ([searchWord], [paragraph]) are handed to the handlers
    as arguments; [isLoading], [isDarkMode] and [hoveredWord] only drive the
    presentation and are left out. *)
Record State : Type := mkState {
  models : list Model.t;
  activeModelIndex : Z;
  highlightedWords : list string;
  error : string;
  success : string;
  wordMeanings : gmap string jsval;
  wordPos : gmap string string;
  savedParagraphs : list Paragraph.t;
  activeParagraphId : option string;
  expandedParagraphId : option string
}.

Definition initialState : State :=
  mkState [] (-1) [] "" "" ∅ ∅ [] None None.

Definition setModels (f : list Model.t → list Model.t) (s : State) : State :=
  mkState (f (models s)) (activeModelIndex s) (highlightedWords s) (error s)
    (success s) (wordMeanings s) (wordPos s) (savedParagraphs s)
    (activeParagraphId s) (expandedParagraphId s).

Definition setActiveModelIndex (i : Z) (s : State) : State :=
  mkState (models s) i (highlightedWords s) (error s) (success s)
    (wordMeanings s) (wordPos s) (savedParagraphs s) (activeParagraphId s)
    (expandedParagraphId s).

Definition setHighlightedWords (f : list string → list string) (s : State)
  : State :=
  mkState (models s) (activeModelIndex s) (f (highlightedWords s)) (error s)
    (success s) (wordMeanings s) (wordPos s) (savedParagraphs s)
    (activeParagraphId s) (expandedParagraphId s).

Definition setError (msg : string) (s : State) : State :=
  mkState (models s) (activeModelIndex s) (highlightedWords s) msg (success s)
    (wordMeanings s) (wordPos s) (savedParagraphs s) (activeParagraphId s)
    (expandedParagraphId s).

Definition setSuccess (msg : string) (s : State) : State :=
  mkState (models s) (activeModelIndex s) (highlightedWords s) (error s) msg
    (wordMeanings s) (wordPos s) (savedParagraphs s) (activeParagraphId s)
    (expandedParagraphId s).

Definition setWordMeanings (f : gmap string jsval → gmap string jsval)
  (s : State) : State :=
  mkState (models s) (activeModelIndex s) (highlightedWords s) (error s)
    (success s) (f (wordMeanings s)) (wordPos s) (savedParagraphs s)
    (activeParagraphId s) (expandedParagraphId s).

Definition setWordPos (f : gmap string string → gmap string string)
  (s : State) : State :=
  mkState (models s) (activeModelIndex s) (highlightedWords s) (error s)
    (success s) (wordMeanings s) (f (wordPos s)) (savedParagraphs s)
    (activeParagraphId s) (expandedParagraphId s).

Definition setSavedParagraphs (f : list Paragraph.t → list Paragraph.t)
  (s : State) : State :=
  mkState (models s) (activeModelIndex s) (highlightedWords s) (error s)
    (success s) (wordMeanings s) (wordPos s) (f (savedParagraphs s))
    (activeParagraphId s) (expandedParagraphId s).

Definition setActiveParagraphId (p : option string) (s : State) : State :=
  mkState (models s) (activeModelIndex s) (highlightedWords s) (error s)
    (success s) (wordMeanings s) (wordPos s) (savedParagraphs s) p
    (expandedParagraphId s).

Definition setExpandedParagraphId (p : option string) (s : State) : State :=
  mkState (models s) (activeModelIndex s) (highlightedWords s) (error s)
    (success s) (wordMeanings s) (wordPos s) (savedParagraphs s)
    (activeParagraphId s) p.

(** [map.has(key)] and [array.includes(w)] *)
Definition has {V} (key : string) (m : gmap string V) : bool :=
  match m !! key with Some _ => true | None => false end.

Definition includes (w : string) (l : list string) : bool :=
  bool_decide (w ∈ l).

(** [models[i]] for a JavaScript number [i]; [None] is [undefined]. *)
Definition modelAt (ms : list Model.t) (i : Z) : option Model.t :=
  if i <? 0 then None else ms !! Z.to_nat i.

(** ** Handlers run in a state-and-exception monad

    The world a handler runs in is the React state and the log of what the
    handler asked of the outside: dictionary requests, the joins on a batch
    of promises and the timer waits. *)

Inductive event : Type :=
| EvFetch (word : string)
| EvAwaitAll (promises : nat)
| EvDelay (ms : nat).

Record World : Type := mkWorld {
  ui : State;
  trace : list event
}.

Inductive exn : Type := TypeError | FetchRejected | SyntaxError.

Inductive result (A : Type) : Type :=
| Returned (a : A)
| Thrown (e : exn).
Arguments Returned {A} a.
Arguments Thrown {A} e.

Definition M (A : Type) : Type := World → result A * World.

#[global] Instance M_ret : MRet M := λ A a w, (Returned a, w).

#[global] Instance M_bind : MBind M := λ A B f m w,
  match m w with
  | (Returned a, w') => f a w'
  | (Thrown e, w') => (Thrown e, w')
  end.

Definition throw {A} (e : exn) : M A := λ w, (Thrown e, w).

(** [try { body } catch { handler }]: what [body] wrote before it threw
    stays written. *)
Definition tryCatch {A} (body : M A) (handler : M A) : M A := λ w,
  match body w with
  | (Returned a, w') => (Returned a, w')
  | (Thrown _, w') => handler w'
  end.

Definition getState : M State := λ w, (Returned (ui w), w).

Definition update (f : State → State) : M unit := λ w,
  (Returned tt, mkWorld (f (ui w)) (trace w)).

Definition emit (e : event) : M unit := λ w,
  (Returned tt, mkWorld (ui w) (trace w ++ [e])).

(** A property access that raises TypeError on [undefined] and [null]. *)
Definition access (o : option jsval) : M jsval :=
  match o with Some v => mret v | None => throw TypeError end.

Definition run {A} (m : M A) (s : State) : result A * World :=
  m (mkWorld s []).

(** ** Messages shown to the user

    The handlers report through [setError] and [setSuccess]; the error
    messages are named after the failure they report. *)

Definition dq : string := String "034" EmptyString.

Definition EmptyModel : string := "No valid embeddings found in file".
Definition ParseError : string := "Error parsing CSV file".
Definition NoActiveModel : string := "Please select a model first".
Definition WordNotFound (w : string) : string :=
  "Word " +:+ dq +:+ w +:+ dq +:+ " not found in the model".
Definition AlreadyHighlighted (w : string) : string :=
  "Word " +:+ dq +:+ w +:+ dq +:+ " is already visualized".
Definition NoMatch : string :=
  "No words from the paragraph were found in the model".
Definition NoNewWords : string :=
  "No new important words (nouns, verbs, adjectives, adverbs) found in the paragraph".

Definition wordAdded (w : string) : string :=
  "Added the word " +:+ dq +:+ w +:+ dq +:+ " to visualization".

Definition modelLoaded (size invalidCount : nat) : string :=
  "Model loaded with " +:+ pretty size +:+ " words" +:+
  (if (0 <? invalidCount)%nat
   then " (" +:+ pretty invalidCount +:+ " invalid entries skipped)"
   else "").

(** ** [handleFileUpload] *)

(** [name.replace(/\.[^/.]+$/, empty)]: the last dot and what follows it,
    when that is not empty and holds no slash. *)
Definition isExtension (s : string) : bool :=
  negb (JS.isEmpty s) &&
  negb (JS.sexists (λ c, Ascii.eqb c "/" || Ascii.eqb c ".") s).

Fixpoint removeExtension (s : string) : string :=
  match s with
  | EmptyString => EmptyString
  | String c r =>
      if Ascii.eqb c "." && isExtension r then EmptyString
      else String c (removeExtension r)
  end.

(** The body of [results.data.forEach]: the accumulator is [embeddingsMap]
    and [invalidCount]; [cache] is the [wordPos] map of the closure. *)
Definition addRow (cache : gmap string string)
  (acc : gmap string WordEmbedding.t * nat) (row : list string)
  : gmap string WordEmbedding.t * nat :=
  match row with
  | c0 :: c1 :: c2 :: _ =>
      let rawWord := JS.trim c2 in
      let word := JS.stripQuotes rawWord in
      let xStr := JS.trim (JS.stripQuotes c0) in
      let yStr := JS.trim (JS.stripQuotes c1) in
      if JS.isEmpty word || String.eqb word "." then acc
      else
        let x := JS.Number xStr in
        let y := JS.Number yStr in
        if JS.isNaN x || JS.isNaN y then (acc.1, S acc.2)
        else
          let lowerWord := JS.toLowerCase word in
          let pos := cache !! lowerWord in
          (<[lowerWord := WordEmbedding.mk word x y pos]> acc.1, acc.2)
  | _ => acc
  end.

Definition parseRows (cache : gmap string string) (rows : list (list string))
  : gmap string WordEmbedding.t * nat :=
  fold_left (addRow cache) rows (∅, 0%nat).

(** What the file input and Papa Parse hand to the handler: no file chosen,
    the [error] callback, or the [complete] callback with the rows. *)
Inductive upload : Type :=
| NoFile
| ParseFailed (fileName : string)
| Parsed (fileName : string) (rows : list (list string)).

Definition handleFileUpload (file : upload) : M unit :=
  match file with
  | NoFile => mret tt
  | ParseFailed _ =>
      update (setError "");;
      update (setError ParseError)
  | Parsed fileName rows =>
      update (setError "");;
      st ← getState;
      let '(embeddingsMap, invalidCount) := parseRows (wordPos st) rows in
      if (size embeddingsMap =? 0)%nat then update (setError EmptyModel)
      else
        let newModel := Model.mk (removeExtension fileName) embeddingsMap in
        update (setModels (λ prevModels, prevModels ++ [newModel]));;
        update (setActiveModelIndex (Z.of_nat (length (models st))));;
        update (setSuccess (modelLoaded (size embeddingsMap) invalidCount))
  end.

(** ** The dictionary service and the part-of-speech cache *)

Definition fetchJson (fetch : string → response) (word : string) : M jsval :=
  emit (EvFetch word);;
  match fetch word with
  | NetworkError => throw FetchRejected
  | InvalidBody => throw SyntaxError
  | Json data => mret data
  end.

(** [a && b] *)
Definition andAlso (a : jsval) (b : M jsval) : M jsval :=
  if truthy a then b else mret a.

(** [data && data[0] && data[0].meanings && data[0].meanings[0]] *)
Definition firstMeaning (data : jsval) : M jsval :=
  andAlso data (
    d0 ← access (first data);
    andAlso d0 (
      ms ← access (member d0 "meanings");
      andAlso ms (access (first ms)))).

(** [data[0].meanings[0].definitions[0].definition] *)
Definition firstDefinition (data : jsval) : M jsval :=
  d0 ← access (first data);
  ms ← access (member d0 "meanings");
  m0 ← access (first ms);
  defs ← access (member m0 "definitions");
  def0 ← access (first defs);
  access (member def0 "definition").

(** [data[0].meanings[0].partOfSpeech] *)
Definition firstPartOfSpeech (data : jsval) : M jsval :=
  d0 ← access (first data);
  ms ← access (member d0 "meanings");
  m0 ← access (first ms);
  access (member m0 "partOfSpeech").

(** The chain of [===] tests that maps a tag onto the five categories. *)
Definition normalizePos (partOfSpeech : jsval) : string :=
  if isString "noun" partOfSpeech then "noun"
  else if isString "verb" partOfSpeech then "verb"
  else if isString "adjective" partOfSpeech then "adjective"
  else if isString "adverb" partOfSpeech then "adverb"
  else "unknown".

(** [getWordPosDirectly]: the [try] block either returns a category
    ([Some]) or falls through ([None]) to the final [return 'unknown']. *)
Definition getWordPosDirectly (fetch : string → response) (word : string)
  : M string :=
  r ← tryCatch
        (data ← fetchJson fetch word;
         guard ← firstMeaning data;
         if truthy guard then
           meaning ← firstDefinition data;
           update (setWordMeanings (<[JS.toLowerCase word := meaning]>));;
           partOfSpeech ← firstPartOfSpeech data;
           mret (Some (normalizePos partOfSpeech))
         else mret None)
        (mret None);
  match r with
  | Some p => mret p
  | None => mret "unknown"
  end.

(** [embedding.pos = pos] on the embedding of [key] in [models[i]], followed
    by [setModels] of the copied array.  The embedding objects are shared by
    every copy of the array, so the write lands in the current list. *)
Definition annotate (i : Z) (key p : string) : M unit :=
  st ← getState;
  match modelAt (models st) i with
  | None => throw TypeError
  | Some m =>
      match Model.embeddings m !! key with
      | Some e =>
          update (setModels (<[Z.to_nat i :=
            Model.mk (Model.name m)
              (<[key := WordEmbedding.withPos p e]> (Model.embeddings m))]>))
      | None => mret tt
      end
  end.

(** [fetchWordData], the fetch behind the effect hook. *)
Definition fetchWordData (fetch : string → response) (word : string)
  : M unit :=
  tryCatch
    (data ← fetchJson fetch word;
     guard ← firstMeaning data;
     if truthy guard then
       meaning ← firstDefinition data;
       update (setWordMeanings (<[JS.toLowerCase word := meaning]>));;
       partOfSpeech ← firstPartOfSpeech data;
       let normalizedPos := normalizePos partOfSpeech in
       update (setWordPos (<[JS.toLowerCase word := normalizedPos]>));;
       st ← getState;
       if negb (activeModelIndex st =? -1)
       then annotate (activeModelIndex st) (JS.toLowerCase word) normalizedPos
       else mret tt
     else mret tt)
    (update (setWordPos (<[JS.toLowerCase word := "unknown"]>))).

Fixpoint forEach {A} (f : A → M unit) (l : list A) : M unit :=
  match l with
  | [] => mret tt
  | a :: rest => f a;; forEach f rest
  end.

(** The effect hook on [highlightedWords]: the tests read the maps of the
    render that started the effect. *)
Definition fetchData (fetch : string → response) : M unit :=
  st ← getState;
  forEach (λ word,
    let lowerWord := JS.toLowerCase word in
    if negb (has lowerWord (wordMeanings st)) || negb (has lowerWord (wordPos st))
    then fetchWordData fetch lowerWord
    else mret tt) (highlightedWords st).

(** ** [handleSearch] *)

Definition handleSearch (fetch : string → response) (searchWord : string)
  : M unit :=
  let word := JS.toLowerCase (JS.trim searchWord) in
  if JS.isEmpty word then mret tt
  else
    st ← getState;
    if activeModelIndex st =? -1 then
      update (setError NoActiveModel);;
      update (setSuccess "")
    else
      match modelAt (models st) (activeModelIndex st) with
      | None => throw TypeError
      | Some activeModel =>
          if negb (has word (Model.embeddings activeModel)) then
            update (setError (WordNotFound word));;
            update (setSuccess "")
          else if negb (includes word (highlightedWords st)) then
            (if negb (has word (wordPos st)) then
               tryCatch
                 (p ← getWordPosDirectly fetch word;
                  update (setWordPos (<[JS.toLowerCase word := p]>));;
                  annotate (activeModelIndex st) word p)
                 (update (setWordPos (<[JS.toLowerCase word := "unknown"]>)))
             else mret tt);;
            update (setHighlightedWords (λ prev, prev ++ [word]));;
            update (setSuccess (wordAdded word));;
            update (setError "")
          else
            update (setError (AlreadyHighlighted word));;
            update (setSuccess "")
      end.

(** ** Model and paragraph management *)

Definition removeAt {A} (i : nat) (l : list A) : list A :=
  take i l ++ drop (S i) l.

(** [prevModels.filter((_, index) => index !== indexToRemove)] is
    [removeAt]; the index comes from the list being rendered. *)
Definition removeModel (indexToRemove : nat) : M unit :=
  st ← getState;
  update (setModels (removeAt indexToRemove));;
  if activeModelIndex st =? Z.of_nat indexToRemove then
    update (setActiveModelIndex (-1));;
    update (setHighlightedWords (λ _, []));;
    update (setError "");;
    update (setSuccess "")
  else if Z.of_nat indexToRemove <? activeModelIndex st then
    update (setActiveModelIndex (activeModelIndex st - 1))
  else mret tt.

(** The loop over [wordPos.entries()] of [selectModel]. *)
Definition applyCache (cache : gmap string string)
  (embs : gmap string WordEmbedding.t) : gmap string WordEmbedding.t :=
  map_fold (λ word p acc,
    match acc !! word with
    | Some e => <[word := WordEmbedding.withPos p e]> acc
    | None => acc
    end) embs cache.

Definition selectModel (index : nat) : M unit :=
  st ← getState;
  if Z.of_nat index =? activeModelIndex st then mret tt
  else
    match models st !! index with
    | None => throw TypeError
    | Some newModel =>
        let updated :=
          Model.mk (Model.name newModel)
            (applyCache (wordPos st) (Model.embeddings newModel)) in
        update (setModels (λ _, <[index := updated]> (models st)));;
        update (setActiveModelIndex (Z.of_nat index));;
        update (setHighlightedWords
                  (filter (λ w, has w (Model.embeddings newModel) = true)));;
        update (setError "");;
        update (setSuccess "")
    end.

Definition removeWord (wordToRemove : string) : M unit :=
  st ← getState;
  update (setHighlightedWords
            (λ _, filter (λ w, w ≠ wordToRemove) (highlightedWords st))).

Definition clearAllWords : M unit :=
  update (setHighlightedWords (λ _, [])).

Definition toggleActiveParagraph (paragraphId : string) : M unit :=
  st ← getState;
  if bool_decide (activeParagraphId st = Some paragraphId)
  then update (setActiveParagraphId None)
  else update (setActiveParagraphId (Some paragraphId)).

Definition toggleExpandParagraph (paragraphId : string) : M unit :=
  st ← getState;
  if bool_decide (expandedParagraphId st = Some paragraphId)
  then update (setExpandedParagraphId None)
  else update (setExpandedParagraphId (Some paragraphId)).

(** [savedParagraphs.find(p => p.id === paragraphId)] *)
Definition findParagraph (paragraphId : string) (ps : list Paragraph.t)
  : option Paragraph.t :=
  List.find (λ p, String.eqb (Paragraph.id p) paragraphId) ps.

Definition removeParagraph (paragraphId : string) : M unit :=
  st ← getState;
  match findParagraph paragraphId (savedParagraphs st) with
  | None => mret tt
  | Some paragraphToRemove =>
      update (setHighlightedWords
                (filter (λ w, w ∉ Paragraph.words paragraphToRemove)));;
      update (setSavedParagraphs
                (filter (λ p, Paragraph.id p ≠ paragraphId)));;
      (if bool_decide (activeParagraphId st = Some paragraphId)
       then update (setActiveParagraphId None) else mret tt);;
      (if bool_decide (expandedParagraphId st = Some paragraphId)
       then update (setExpandedParagraphId None) else mret tt)
  end.

(** ** [handleParagraphSubmit] *)

(** The chain from [toLowerCase] to the [filter] that builds [words]. *)
Definition keepWord (w : string) : bool :=
  negb (JS.isEmpty w) && negb (JS.hasDigit w).

Definition extractWords (paragraphText : string) : list string :=
  filter (λ w, keepWord w = true)
    (JS.split " "
       (JS.trim
          (JS.collapseSpaces
             (JS.replacePunct (JS.toLowerCase paragraphText))))).

(** [[...new Set(words)]]: a [Set] keeps its elements in insertion order and
    ignores the insertion of an element it holds. *)
Definition setAdd (seen : list string) (w : string) : list string :=
  if includes w seen then seen else seen ++ [w].

Definition unique (ws : list string) : list string :=
  fold_left setAdd ws [].

(** [[...new Set(words)].filter(word => activeModel.embeddings.has(word))]:
    the callback reads [activeModel.embeddings], which raises TypeError on
    an [undefined] model as soon as there is a word to test. *)
Definition findWords (activeModel : option Model.t) (words : list string)
  : M (list string) :=
  match activeModel, unique words with
  | Some m, us => mret (filter (λ w, has w (Model.embeddings m) = true) us)
  | None, [] => mret []
  | None, _ :: _ => throw TypeError
  end.

(** The counters of [processParagraphWords]. *)
Record Stats : Type := mkStats {
  nounsAdded : nat;
  verbsAdded : nat;
  adjectivesAdded : nat;
  adverbsAdded : nat
}.

Definition count (p : string) (c : Stats) : Stats :=
  if String.eqb p "noun" then
    mkStats (S (nounsAdded c)) (verbsAdded c) (adjectivesAdded c) (adverbsAdded c)
  else if String.eqb p "verb" then
    mkStats (nounsAdded c) (S (verbsAdded c)) (adjectivesAdded c) (adverbsAdded c)
  else if String.eqb p "adjective" then
    mkStats (nounsAdded c) (verbsAdded c) (S (adjectivesAdded c)) (adverbsAdded c)
  else if String.eqb p "adverb" then
    mkStats (nounsAdded c) (verbsAdded c) (adjectivesAdded c) (S (adverbsAdded c))
  else c.

Definition plural (n : nat) (one many : string) : string :=
  pretty n +:+ " " +:+ (if (n =? 1)%nat then one else many).

Definition statsList (c : Stats) : list string :=
  (if (0 <? nounsAdded c)%nat
   then [plural (nounsAdded c) "noun" "nouns"] else []) ++
  (if (0 <? verbsAdded c)%nat
   then [plural (verbsAdded c) "verb" "verbs"] else []) ++
  (if (0 <? adjectivesAdded c)%nat
   then [plural (adjectivesAdded c) "adjective" "adjectives"] else []) ++
  (if (0 <? adverbsAdded c)%nat
   then [plural (adverbsAdded c) "adverb" "adverbs"] else []).

Fixpoint join (sep : string) (l : list string) : string :=
  match l with
  | [] => ""
  | [a] => a
  | a :: rest => a +:+ sep +:+ join sep rest
  end.

Definition wordsAdded (n : nat) (c : Stats) : string :=
  "Added " +:+ plural n "word" "words" +:+ " from paragraph (" +:+
  join ", " (statsList c) +:+ ")".

Definition batchSize : nat := 25.
Definition batchDelay : nat := 100.

(** The [async] callback mapped over a batch.  [st] is the state of the
    render whose closure the handler runs in: [highlightedWords], [wordPos]
    and [activeModelIndex] are read from it, while the setters act on the
    current state. *)
Definition processWord (st : State) (fetch : string → response) (c : Stats)
  (word : string) : M (Stats * option string) :=
  if includes word (highlightedWords st) then mret (c, None)
  else
    match wordPos st !! word with
    | Some p => mret (count p c, Some word)
    | None =>
        tryCatch
          (p ← getWordPosDirectly fetch word;
           update (setWordPos (<[JS.toLowerCase word := p]>));;
           (if negb (activeModelIndex st =? -1)
            then annotate (activeModelIndex st) (JS.toLowerCase word) p
            else mret tt);;
           mret (count p c, Some word))
          (update (setWordPos (<[JS.toLowerCase word := "unknown"]>));;
           (if negb (activeModelIndex st =? -1)
            then annotate (activeModelIndex st) (JS.toLowerCase word) "unknown"
            else mret tt);;
           mret (c, Some word))
    end.

(** [batch.map(async ...)] joined by [Promise.all].  The callbacks of one
    batch issue their requests in batch order and write to distinct keys of
    the maps, so the order in which the answers arrive leaves the state the
    same; the model runs them one after the other. *)
Fixpoint processBatch (st : State) (fetch : string → response) (c : Stats)
  (batch : list string) : M (Stats * list (option string)) :=
  match batch with
  | [] => mret (c, [])
  | word :: rest =>
      '(c1, r) ← processWord st fetch c word;
      '(c2, rs) ← processBatch st fetch c1 rest;
      mret (c2, r :: rs)
  end.

Definition awaitBatch (st : State) (fetch : string → response) (c : Stats)
  (batch : list string) : M (Stats * list string) :=
  '(c1, batchResults) ← processBatch st fetch c batch;
  emit (EvAwaitAll (length batch));;
  mret (c1, omap id batchResults).

(** [foundWords.slice(i, i + batchSize)] *)
Definition slice (i n : nat) (l : list string) : list string :=
  take n (drop i l).

(** The [for] loop of [processParagraphWords], from index [i] on. *)
Equations? batchLoop (st : State) (fetch : string → response)
  (foundWords : list string) (i : nat) (c : Stats) (wordsToAdd : list string)
  (w : World) : result (Stats * list string) * World
  by wf (length foundWords - i)%nat lt :=
batchLoop st fetch foundWords i c wordsToAdd w
  with decide (i < length foundWords)%nat => {
  | right _ => (Returned (c, wordsToAdd), w)
  | left _
      with awaitBatch st fetch c (slice i batchSize foundWords) w => {
      | (Thrown e, w1) => (Thrown e, w1)
      | (Returned (c1, added), w1)
          with decide (i + batchSize < length foundWords)%nat => {
          | left _ =>
              batchLoop st fetch foundWords (i + batchSize) c1
                (wordsToAdd ++ added)
                (mkWorld (ui w1) (trace w1 ++ [EvDelay batchDelay]))
          | right _ =>
              batchLoop st fetch foundWords (i + batchSize) c1
                (wordsToAdd ++ added) w1 } } }.
Proof. all: unfold batchSize; lia. Qed.

Definition processParagraphWords (st : State) (fetch : string → response)
  (paragraphId paragraphText : string) (foundWords : list string) : M unit :=
  '(c, wordsToAdd) ← batchLoop st fetch foundWords 0 (mkStats 0 0 0 0) [];
  if (0 <? length wordsToAdd)%nat then
    update (setSavedParagraphs (λ prev,
      prev ++ [Paragraph.mk paragraphId paragraphText wordsToAdd]));;
    update (setHighlightedWords (λ _, highlightedWords st ++ wordsToAdd));;
    update (setSuccess (wordsAdded (length wordsToAdd) c));;
    update (setError "")
  else
    update (setError NoNewWords);;
    update (setSuccess "").

(** [paragraphId] stands for the identifier the handler draws from the clock
    and the random generator. *)
Definition handleParagraphSubmit (fetch : string → response)
  (paragraphId paragraph : string) : M unit :=
  if JS.isEmpty (JS.trim paragraph) then mret tt
  else
    st ← getState;
    if activeModelIndex st =? -1 then
      update (setError NoActiveModel);;
      update (setSuccess "")
    else
      update (setError "");;
      update (setSuccess "");;
      let activeModel := modelAt (models st) (activeModelIndex st) in
      let paragraphText := JS.trim paragraph in
      let words := extractWords paragraphText in
      foundWords ← findWords activeModel words;
      if (length foundWords =? 0)%nat then update (setError NoMatch)
      else processParagraphWords st fetch paragraphId paragraphText foundWords.

(** ** Candidate words, as the specification words them

    The text is lower-cased and cut at every character that is not a letter
    or a digit; empty pieces and pieces with a digit are dropped, later
    repetitions are dropped, and the words of the vocabulary are kept. *)

Definition isAlnum (c : ascii) : bool :=
  JS.isDigit c || JS.isUpper c || JS.isLower c.

(** The pieces of [s] between the characters picked by [sep]. *)
Fixpoint fields (sep : ascii → bool) (s : string) : list string :=
  match s with
  | EmptyString => [EmptyString]
  | String c r =>
      if sep c then EmptyString :: fields sep r
      else match fields sep r with
           | h :: t => String c h :: t
           | [] => [String c EmptyString]
           end
  end.

Definition tokens (s : string) : list string :=
  filter (λ w, JS.isEmpty w = false) (fields (λ c, negb (isAlnum c)) s).

(** First occurrences, in order. *)
Fixpoint firstSeen (ws : list string) : list string :=
  match ws with
  | [] => []
  | w :: rest => w :: filter (λ v, v ≠ w) (firstSeen rest)
  end.

Definition candidateWords (text : string)
  (vocabulary : gmap string WordEmbedding.t) : list string :=
  filter (λ w, is_Some (vocabulary !! w))
    (firstSeen
       (filter (λ w, JS.hasDigit w = false) (tokens (JS.toLowerCase text)))).

(** ** Definitions used to state the properties *)

(** *** Pieces of a string *)

(** The first piece and the non-empty pieces after it. *)
Definition shape (l : list string) : string * list string :=
  (hd "" l, filter (λ w, JS.isEmpty w = false) (tl l)).

Definition nonEmpties (l : list string) : list string :=
  filter (λ w, JS.isEmpty w = false) l.

(** Every white-space character of the string is the space itself. *)
Fixpoint onlyBlanks (s : string) : Prop :=
  match s with
  | EmptyString => True
  | String c r => (JS.isSpace c = true → c = " "%char) ∧ onlyBlanks r
  end.

(** *** What a classification may change *)

(** The five categories. *)
Definition taxonomy : list string :=
  ["noun"; "verb"; "adjective"; "adverb"; "unknown"].

(** The property reads of the handlers leave the world as it is. *)
Definition pureM {A} (m : M A) : Prop := ∀ w, ∃ r, m w = (r, w).

(** The key sets of the models, in order. *)
Definition vocabularies (ms : list Model.t) : list (gset string) :=
  (λ m, dom (Model.embeddings m)) <$> ms.

(** [enriches s s']: between [s] and [s'] only part-of-speech tags and
    definitions were learnt. *)
Record enriches (s s' : State) : Prop := mkEnriches {
  en_index : activeModelIndex s' = activeModelIndex s;
  en_highlighted : highlightedWords s' = highlightedWords s;
  en_error : error s' = error s;
  en_success : success s' = success s;
  en_saved : savedParagraphs s' = savedParagraphs s;
  en_active : activeParagraphId s' = activeParagraphId s;
  en_expanded : expandedParagraphId s' = expandedParagraphId s;
  en_models : vocabularies (models s') = vocabularies (models s);
  en_cache : dom (wordPos s) ⊆ dom (wordPos s')
}.

(** The index the closure holds still names a model. *)
Definition indexOk (st s : State) : Prop :=
  activeModelIndex st = -1 ∨ is_Some (modelAt (models s) (activeModelIndex st)).

(** A word of a batch is looked up when it is neither highlighted nor in
    the cache. *)
Definition needsFetch (st : State) (word : string) : bool :=
  negb (includes word (highlightedWords st)) && negb (has word (wordPos st)).

(** A handler either returns what is expected of it, or it threw because
    the index of the closure names no model. *)
Definition outcome {A} (r : result A) (good : A → Prop) (bad : Prop) : Prop :=
  match r with
  | Returned a => good a
  | Thrown _ => bad
  end.

(** *** Batches and their log *)

(** What a batch answers for a word, and what it asks of the service. *)
Definition batchAnswer (st : State) (word : string) : option string :=
  if includes word (highlightedWords st) then None else Some word.

Definition batchFetches (st : State) (batch : list string) : list event :=
  EvFetch <$> filter (λ w, needsFetch st w = true) batch.

(** The words a submission may add: those not yet highlighted. *)
Definition freshWords (st : State) (ws : list string) : list string :=
  filter (λ w, w ∉ highlightedWords st) ws.

(** The log of one batch: its requests, then the join. *)
Definition batchEvents (st : State) (batch : list string) : list event :=
  batchFetches st batch ++ [EvAwaitAll (length batch)].

(** The list cut into pieces of [n] elements, the last one shorter when the
    length is not a multiple of [n]. *)
Equations? chunks (n : nat) (l : list string) : list (list string)
  by wf (length l) lt :=
chunks 0 _ := [];
chunks (S k) [] := [];
chunks (S k) (a :: r) := (a :: take k r) :: chunks (S k) (drop k r).
Proof. rewrite length_drop. lia. Qed.

(** [ls.join(sep)] on lists. *)
Fixpoint joinWith {A} (sep : list A) (ls : list (list A)) : list A :=
  match ls with
  | [] => []
  | x :: rest =>
      x ++ match rest with [] => [] | _ :: _ => sep ++ joinWith sep rest end
  end.

(** The log of the loop: the logs of the batches with one delay between
    two of them. *)
Definition loopEvents (st : State) (foundWords : list string) : list event :=
  joinWith [EvDelay batchDelay] (batchEvents st <$> chunks batchSize foundWords).

#[global] Instance event_eq_dec : EqDecision event.
Proof. solve_decision. Defined.

(** The state after the loop, from the state [s1] the loop left, for the
    words [fresh] and the counters [c]. *)
Definition afterLoop (st s1 : State) (paragraphId paragraphText : string)
  (fresh : list string) (c : Stats) : State :=
  match fresh with
  | [] => setSuccess "" (setError NoNewWords s1)
  | _ :: _ =>
      setError ""
        (setSuccess (wordsAdded (length fresh) c)
           (setHighlightedWords (λ _, highlightedWords st ++ fresh)
              (setSavedParagraphs
                 (λ prev, prev ++ [Paragraph.mk paragraphId paragraphText fresh])
                 s1)))
  end.

(** *** Answers of the dictionary *)

(** The closed taxonomy: the four tags by exact match, anything else
    [unknown]. *)
Definition taxonomyOf (tag : jsval) : string :=
  match tag with
  | VString t =>
      if bool_decide (t ∈ ["noun"; "verb"; "adjective"; "adverb"]) then t
      else "unknown"
  | _ => "unknown"
  end.

(** A well-formed answer of the dictionary contract: at least one entry
    with at least one meaning, which carries [tag] under [partOfSpeech]
    ([undefined] when it has none) and at least one definition string. *)
Definition wellFormed (data tag : jsval) (definition : string) : Prop :=
  ∃ eprops entries mprops meanings dprops defs,
    data = VArray (VObject eprops :: entries) ∧
    prop "meanings" eprops = VArray (VObject mprops :: meanings) ∧
    prop "partOfSpeech" mprops = tag ∧
    prop "definitions" mprops = VArray (VObject dprops :: defs) ∧
    prop "definition" dprops = VString definition.

(** An answer without a first entry, as the body of a 404 or an empty
    list. *)
Definition noEntry (data : jsval) : Prop :=
  truthy data = false ∨ ∃ entry, first data = Some entry ∧ truthy entry = false.

(** An answer whose first entry lacks the path to a first definition. *)
Inductive malformed (data : jsval) : Prop :=
| NoMeanings entry ms :
    first data = Some entry → member entry "meanings" = Some ms →
    truthy ms = false → malformed data
| NoFirstMeaning entry ms m0 :
    first data = Some entry → member entry "meanings" = Some ms →
    first ms = Some m0 → truthy m0 = false → malformed data
| NoDefinitions entry ms m0 defs :
    first data = Some entry → member entry "meanings" = Some ms →
    first ms = Some m0 → member m0 "definitions" = Some defs →
    first defs = None → malformed data
| NoFirstDefinition entry ms m0 defs d0 :
    first data = Some entry → member entry "meanings" = Some ms →
    first ms = Some m0 → member m0 "definitions" = Some defs →
    first defs = Some d0 → member d0 "definition" = None → malformed data.

(** *** Rows of a CSV file *)

(** The fields of a row after the clean-up of the handler: the two
    coordinate strings and the word. *)
Definition rowFields (row : list string) : option (string * string * string) :=
  match row with
  | c0 :: c1 :: c2 :: _ =>
      Some (JS.trim (JS.stripQuotes c0), JS.trim (JS.stripQuotes c1),
            JS.stripQuotes (JS.trim c2))
  | _ => None
  end.

(** An empty word or a single period. *)
Definition badWord (word : string) : bool :=
  JS.isEmpty word || String.eqb word ".".

(** A coordinate that is not a number. *)
Definition badCoordinates (xStr yStr : string) : bool :=
  JS.isNaN (JS.Number xStr) || JS.isNaN (JS.Number yStr).

(** The rows the specification calls invalid: an unparseable coordinate, or
    an empty or period-only word. *)
Definition claimedInvalid (row : list string) : bool :=
  match rowFields row with
  | Some (xStr, yStr, word) => badWord word || badCoordinates xStr yStr
  | None => false
  end.

(** The rows the handler counts: the word is acceptable, a coordinate is
    not. *)
Definition countedInvalid (row : list string) : bool :=
  match rowFields row with
  | Some (xStr, yStr, word) => negb (badWord word) && badCoordinates xStr yStr
  | None => false
  end.

(** The rows the handler passes over without counting them. *)
Definition skipped (row : list string) : bool :=
  match rowFields row with
  | Some (_, _, word) => badWord word
  | None => true
  end.

(** The key and the embedding a valid row stores. *)
Definition validEntry (cache : gmap string string) (row : list string)
  : option (string * WordEmbedding.t) :=
  match rowFields row with
  | Some (xStr, yStr, word) =>
      if negb (badWord word) && negb (badCoordinates xStr yStr)
      then Some (JS.toLowerCase word,
                 WordEmbedding.mk word (JS.Number xStr) (JS.Number yStr)
                   (cache !! JS.toLowerCase word))
      else None
  | None => None
  end.

Definition validEntries (cache : gmap string string)
  (rows : list (list string)) : list (string * WordEmbedding.t) :=
  omap (validEntry cache) rows.

(** *** The highlight invariant *)

(** Every highlighted word is a key of the active model. *)
Definition highlightsResolve (st : State) : bool :=
  forallb (λ w,
    match modelAt (models st) (activeModelIndex st) with
    | Some m => has w (Model.embeddings m)
    | None => false
    end) (highlightedWords st).

(** *** Concrete sessions *)

(** The rows of the example of the specification. *)
Definition appleRows : list (list string) :=
  [["0.1"; "0.2"; "Apple"]; ["x"; "0.3"; "dog"]; ["0.5"; "0.6"; "."]].

(** A model with the vocabulary the, quick, brown, fox, jumps. *)
Definition foxRows : list (list string) :=
  [["0.1"; "0.1"; "the"]; ["0.2"; "0.2"; "quick"]; ["0.3"; "0.3"; "brown"];
   ["0.4"; "0.4"; "fox"]; ["0.5"; "0.5"; "jumps"]].

Definition foxModel : Model.t :=
  Model.mk "fox" (parseRows ∅ foxRows).1.

(** The state after loading [fox.csv] into a fresh session. *)
Definition foxState : State :=
  ui (run (handleFileUpload (Parsed "fox.csv" foxRows)) initialState).2.

(** A service that is down, and one that knows no word. *)
Definition noService : string → response := λ _, NetworkError.

Definition notFound : string → response := λ _,
  Json (VObject [("title", VString "No Definitions Found")]).

(** A service that knows [fox] as a noun. *)
Definition dictionary : string → response := λ word,
  if String.eqb word "fox" then
    Json (VArray [VObject [("word", VString "fox");
      ("meanings", VArray [VObject [("partOfSpeech", VString "noun");
        ("definitions", VArray [VObject
           [("definition", VString "A red wild dog.")]])]])]])
  else notFound word.


(** ** The derived view: what the plot and the lists show *)

(** [getPosColor]: the [switch] on the tag, with gray as the default. *)
Definition getPosColor (pos : option string) : string :=
  match pos with
  | Some p =>
      if String.eqb p "noun" then "#4285F4"
      else if String.eqb p "verb" then "#EA4335"
      else if String.eqb p "adjective" then "#FBBC05"
      else if String.eqb p "adverb" then "#34A853"
      else "#9E9E9E"
  | None => "#9E9E9E"
  end.

(** The first [filter] of [visibleEmbeddings]: [!activeParagraphId] holds
    for [null] and for the empty string, and a selection that names no
    stored paragraph filters nothing. *)
Definition paragraphShows (st : State) (word : string) : bool :=
  match activeParagraphId st with
  | None => true
  | Some pid =>
      if JS.isEmpty pid then true
      else match findParagraph pid (savedParagraphs st) with
           | Some activeParagraph =>
               includes word (Paragraph.words activeParagraph)
           | None => true
           end
  end.

(** [visibleEmbeddings]: the [map] callback reads
    [models[activeModelIndex].embeddings], which raises TypeError on an
    [undefined] model as soon as there is a word to look up; the second
    [filter] drops the words the model does not hold. *)
Definition visibleEmbeddings (st : State) : result (list WordEmbedding.t) :=
  if negb (activeModelIndex st =? -1) then
    let shown := filter (λ w, paragraphShows st w = true) (highlightedWords st) in
    match shown, modelAt (models st) (activeModelIndex st) with
    | [], _ => Returned []
    | _ :: _, None => Thrown TypeError
    | _ :: _, Some m => Returned (omap (λ w, Model.embeddings m !! w) shown)
    end
  else Returned [].

(** [e.pos === p] *)
Definition hasPos (p : string) (e : WordEmbedding.t) : bool :=
  match WordEmbedding.pos e with
  | Some q => String.eqb q p
  | None => false
  end.

(** The test of the [unknown] group: no tag, an empty tag, or a tag that is
    none of the four. *)
Definition isOther (e : WordEmbedding.t) : bool :=
  match WordEmbedding.pos e with
  | None => true
  | Some q =>
      JS.isEmpty q ||
      (negb (String.eqb q "noun") && negb (String.eqb q "verb") &&
       negb (String.eqb q "adjective") && negb (String.eqb q "adverb"))
  end.

Module Grouped.
Record t : Type := mk {
  noun : list WordEmbedding.t;
  verb : list WordEmbedding.t;
  adjective : list WordEmbedding.t;
  adverb : list WordEmbedding.t;
  unknown : list WordEmbedding.t
}.
End Grouped.

(** [groupedEmbeddings] *)
Definition groupedEmbeddings (visible : list WordEmbedding.t) : Grouped.t :=
  Grouped.mk
    (filter (λ e, hasPos "noun" e = true) visible)
    (filter (λ e, hasPos "verb" e = true) visible)
    (filter (λ e, hasPos "adjective" e = true) visible)
    (filter (λ e, hasPos "adverb" e = true) visible)
    (filter (λ e, isOther e = true) visible).

(** [formatMeaning]: the loop over [meaning.split(' ')] keeps [result] and
    [currentLine]. *)
Definition maxLineLength : nat := 40.

Definition formatStep (acc : string * string) (word : string)
  : string * string :=
  let '(result, currentLine) := acc in
  if (maxLineLength <? String.length currentLine + String.length word + 1)%nat
  then (result +:+ currentLine +:+ "<br>", word +:+ " ")
  else (result, currentLine +:+ word +:+ " ").

Definition formatMeaning (meaning : string) : string :=
  if JS.isEmpty meaning then ""
  else
    let '(result, currentLine) :=
      fold_left formatStep (JS.split " " meaning) ("", "") in
    if negb (JS.isEmpty currentLine) then result +:+ currentLine else result.

(** One entry of a [hovertemplate]: the stored definition is wrapped when it
    is truthy; [meaning.split] is not a function on a truthy value that is
    not a string. *)
Definition hoverText (meanings : gmap string jsval) (label : string)
  (e : WordEmbedding.t) : result string :=
  let w := JS.toLowerCase (WordEmbedding.word e) in
  let plain := "<b>" +:+ w +:+ "</b> (" +:+ label +:+ ")<extra></extra>" in
  match meanings !! w with
  | None => Returned plain
  | Some meaning =>
      if truthy meaning then
        match meaning with
        | VString s =>
            Returned ("<b>" +:+ w +:+ "</b> (" +:+ label +:+ ")<br><br>" +:+
                      formatMeaning s +:+ "<extra></extra>")
        | _ => Thrown TypeError
        end
      else Returned plain
  end.

(** [array.map(f)] for a callback that may throw. *)
Fixpoint collect {A B} (f : A → result B) (l : list A) : result (list B) :=
  match l with
  | [] => Returned []
  | a :: rest =>
      match f a with
      | Thrown e => Thrown e
      | Returned b =>
          match collect f rest with
          | Thrown e => Thrown e
          | Returned bs => Returned (b :: bs)
          end
      end
  end.

(** A trace of [plotData]; the fields that are the same constants in every
    trace ([mode], [type], [textposition], [hoverinfo], the marker size and
    the theme colours) are left out. *)
Module Trace.
Record t : Type := mk {
  name : string;
  x : list JS.number;
  y : list JS.number;
  text : list string;
  color : string;
  hovertemplate : list string
}.
End Trace.

(** One element of the [plotData] array. *)
Definition plotTrace (meanings : gmap string jsval) (title label : string)
  (group : list WordEmbedding.t) : result Trace.t :=
  match collect (hoverText meanings label) group with
  | Thrown e => Thrown e
  | Returned hovers =>
      Returned
        (Trace.mk (title +:+ " (" +:+ pretty (length group) +:+ ")")
           (WordEmbedding.x <$> group) (WordEmbedding.y <$> group)
           ((λ e, JS.toLowerCase (WordEmbedding.word e)) <$> group)
           (getPosColor (Some label)) hovers)
  end.

(** [plotData]: the five traces in the order of the array. *)
Definition plotData (st : State) : result (list Trace.t) :=
  match visibleEmbeddings st with
  | Thrown e => Thrown e
  | Returned visible =>
      let g := groupedEmbeddings visible in
      collect (λ '(title, label, group),
                 plotTrace (wordMeanings st) title label group)
        [("Nouns", "noun", Grouped.noun g);
         ("Verbs", "verb", Grouped.verb g);
         ("Adjectives", "adjective", Grouped.adjective g);
         ("Adverbs", "adverb", Grouped.adverb g);
         ("Others/Unknown", "unknown", Grouped.unknown g)]
  end.

(** [array.findIndex(p)]; [None] is -1. *)
Fixpoint findIndex (p : string → bool) (l : list string) : option nat :=
  match l with
  | [] => None
  | a :: rest => if p a then Some 0%nat else S <$> findIndex p rest
  end.

(** The search of the hover effect over the traces from [traceIndex] on:
    the trace and the point of the first trace that holds the word. *)
Fixpoint findHovered (traceIndex : nat) (traces : list Trace.t)
  (hoveredWord : string) : option (nat * nat) :=
  match traces with
  | [] => None
  | t :: rest =>
      match findIndex (λ s, String.eqb s hoveredWord) (Trace.text t) with
      | Some pointIndex => Some (traceIndex, pointIndex)
      | None => findHovered (S traceIndex) rest hoveredWord
      end
  end.

(** The point the hover effect asks Plotly to highlight: none without a
    plot or a hovered word. *)
Definition hoverTarget (plotReady : bool) (hoveredWord : option string)
  (traces : list Trace.t) : option (nat * nat) :=
  if plotReady then
    match hoveredWord with
    | Some h => if JS.isEmpty h then None else findHovered 0 traces h
    | None => None
    end
  else None.


(** The strings of a list, one after the other. *)
Definition flat (ls : list string) : string :=
  fold_right String.append "" ls.

(** A line of a wrapped definition: at most [maxLineLength] characters, or
    one word and the space after it. *)
Definition lineOk (l : string) : Prop :=
  (String.length l ≤ maxLineLength)%nat ∨
  ∃ w, l = w +:+ " " ∧ JS.sexists (λ c, Ascii.eqb c " ") w = false.


(** *** The plot *)

(** The stored definition of the word of [e] is truthy and not a string. *)
Definition unreadable (meanings : gmap string jsval) (e : WordEmbedding.t)
  : Prop :=
  ∃ v, meanings !! JS.toLowerCase (WordEmbedding.word e) = Some v ∧
       truthy v = true ∧ ∀ s, v ≠ VString s.

(** The trace [t] draws the embeddings of [group], point by point, each in
    the colour of its own tag, and counts them in its name. *)
Definition draws (t : Trace.t) (group : list WordEmbedding.t) : Prop :=
  Trace.x t = WordEmbedding.x <$> group ∧
  Trace.y t = WordEmbedding.y <$> group ∧
  Trace.text t = (λ e, JS.toLowerCase (WordEmbedding.word e)) <$> group ∧
  length (Trace.hovertemplate t) = length group ∧
  Forall (λ e, getPosColor (WordEmbedding.pos e) = Trace.color t) group ∧
  ∃ title, Trace.name t = title +:+ " (" +:+ pretty (length group) +:+ ")".




(** *** Entries of a loaded model *)

(** What the handler guarantees of an entry it stores: the key is the
    lower-cased word, the word is neither empty nor a period, both
    coordinates are numbers, and the tag is the one the cache held for the
    key when the file was read. *)
Definition entryOk (cache : gmap string string) (k : string)
  (e : WordEmbedding.t) : Prop :=
  k = JS.toLowerCase (WordEmbedding.word e) ∧
  WordEmbedding.word e ≠ "" ∧ WordEmbedding.word e ≠ "." ∧
  JS.isNaN (WordEmbedding.x e) = false ∧
  JS.isNaN (WordEmbedding.y e) = false ∧
  WordEmbedding.pos e = cache !! k.


(** *** Switching models *)

(** The embedding [selectModel] leaves under a key: tagged from the cache
    when the cache knows the key. *)
Definition retag (cache : gmap string string) (k : string)
  (e : WordEmbedding.t) : WordEmbedding.t :=
  match cache !! k with
  | Some p => WordEmbedding.withPos p e
  | None => e
  end.


(** *** Sessions

    What the user and the effect hook can do to the component, one handler
    at a time. *)
Inductive action : Type :=
| Upload (file : upload)
| Search (fetch : string → response) (searchWord : string)
| FetchData (fetch : string → response)
| RemoveModel (indexToRemove : nat)
| SelectModel (index : nat)
| RemoveWord (wordToRemove : string)
| ClearAllWords
| ToggleActiveParagraph (paragraphId : string)
| ToggleExpandParagraph (paragraphId : string)
| RemoveParagraph (paragraphId : string)
| SubmitParagraph (fetch : string → response) (paragraphId paragraph : string).

Definition perform (a : action) : M unit :=
  match a with
  | Upload file => handleFileUpload file
  | Search fetch searchWord => handleSearch fetch searchWord
  | FetchData fetch => fetchData fetch
  | RemoveModel indexToRemove => removeModel indexToRemove
  | SelectModel index => selectModel index
  | RemoveWord wordToRemove => removeWord wordToRemove
  | ClearAllWords => clearAllWords
  | ToggleActiveParagraph paragraphId => toggleActiveParagraph paragraphId
  | ToggleExpandParagraph paragraphId => toggleExpandParagraph paragraphId
  | RemoveParagraph paragraphId => removeParagraph paragraphId
  | SubmitParagraph fetch paragraphId paragraph =>
      handleParagraphSubmit fetch paragraphId paragraph
  end.

(** The state a handler leaves, also when it throws: the updates made
    before the exception stay. *)
Definition after (st : State) (a : action) : State :=
  ui (run (perform a) st).2.

Definition session (acts : list action) : State :=
  fold_left after acts initialState.

(** The list of models offers [selectModel] and [removeModel] for the
    indices it renders; every other handler is always at hand. *)
Definition offered (st : State) (a : action) : bool :=
  match a with
  | RemoveModel i | SelectModel i => (i <? length (models st))%nat
  | _ => true
  end.

Fixpoint offeredFrom (st : State) (acts : list action) : bool :=
  match acts with
  | [] => true
  | a :: rest => offered st a && offeredFrom (after st a) rest
  end.

(** *** Weakest preconditions

    [wp m Q E w]: run in the world [w], [m] returns a value and a world
    that satisfy [Q], or throws in a world that satisfies [E]. *)
Definition wp {A} (m : M A) (Q : A → World → Prop) (E : World → Prop)
  (w : World) : Prop :=
  match m w with
  | (Returned a, w') => Q a w'
  | (Thrown _, w') => E w'
  end.


(** *** What stays true in a session *)

(** The state [annotate] leaves when the index names a model. *)
Definition annotated (i : Z) (key p : string) (s : State) : State :=
  match modelAt (models s) i with
  | Some m =>
      match Model.embeddings m !! key with
      | Some e =>
          setModels (<[Z.to_nat i :=
            Model.mk (Model.name m)
              (<[key := WordEmbedding.withPos p e]> (Model.embeddings m))]>) s
      | None => s
      end
  | None => s
  end.






(** *** The effect hook *)

(** The keys the effect hook asks the service for: the lower-cased
    highlights that lack a definition or a tag. *)
Definition missing (st : State) : list string :=
  filter (λ k, negb (has k (wordMeanings st)) || negb (has k (wordPos st))
               = true)
    (JS.toLowerCase <$> highlightedWords st).


(** The actions that load a parsed file. *)
Definition loadsModel (a : action) : bool :=
  match a with
  | Upload (Parsed _ _) => true
  | _ => false
  end.


(** *** The counters of a submission *)

(** The counters after counting, from [c] on, the tags the cache holds for
    the words. *)
Definition tally (cache : gmap string string) (c : Stats) (ws : list string)
  : Stats :=
  fold_left (λ c w, match cache !! w with Some p => count p c | None => c end)
    ws c.

(** * Proofs *)

(** ** Characters and strings *)

Section Characters.

Local Ltac by_cases c :=
destruct c as [[|] [|] [|] [|] [|] [|] [|] [|]]; vm_compute; congruence.

Lemma isSpace_lower c : JS.isSpace (JS.toLowerChar c) = JS.isSpace c.
Proof. by_cases c. Qed.

Lemma isSpace_not_alnum c : JS.isSpace c = true → isAlnum c = false.
Proof. by_cases c. Qed.

Lemma replaced_isSpace c :
JS.isSpace (if negb (JS.isWordChar c || JS.isSpace c) || JS.isUnderscore c
            then " "%char else c) = negb (isAlnum c).
Proof. by_cases c. Qed.

Lemma replaced_alnum c :
isAlnum c = true →
(if negb (JS.isWordChar c || JS.isSpace c) || JS.isUnderscore c
 then " "%char else c) = c.
Proof. by_cases c. Qed.

End Characters.

Lemma isEmpty_true s : JS.isEmpty s = true ↔ s = "".
Proof. destruct s; simpl; split; congruence. Qed.

Lemma fields_cons_inv sep s : ∃ h t, fields sep s = h :: t.
Proof.
  induction s as [|c r [h [t IH]]]; simpl; [by eauto|].
  destruct (sep c); [by eauto|]. rewrite IH. by eauto.
Qed.

Lemma nonEmpties_shape l l' :
  l ≠ [] → l' ≠ [] → shape l = shape l' → nonEmpties l = nonEmpties l'.
Proof.
  destruct l as [|h t], l' as [|h' t']; try done.
  unfold shape, nonEmpties; simpl. intros _ _ [= -> Ht].
  rewrite !filter_cons, Ht. done.
Qed.

Lemma fields_not_nil sep s : fields sep s ≠ [].
Proof. destruct (fields_cons_inv sep s) as (h & t & ->). done. Qed.

Lemma shape_fields_sep sep c r :
  sep c = true →
  shape (fields sep (String c r)) = ("", nonEmpties (fields sep r)).
Proof. intros H. simpl. rewrite H. done. Qed.

Lemma shape_fields_keep sep c r :
  sep c = false →
  shape (fields sep (String c r)) =
  (String c (shape (fields sep r)).1, (shape (fields sep r)).2).
Proof.
  intros H. simpl. rewrite H.
  destruct (fields_cons_inv sep r) as (h & t & ->). done.
Qed.

Lemma nonEmpties_fields_sep sep c r :
  sep c = true →
  nonEmpties (fields sep (String c r)) = nonEmpties (fields sep r).
Proof. intros H. simpl. rewrite H. done. Qed.

Lemma nonEmpties_fields_keep sep c r :
  sep c = false →
  nonEmpties (fields sep (String c r)) =
  String c (shape (fields sep r)).1 :: (shape (fields sep r)).2.
Proof.
  intros H. simpl. rewrite H.
  destruct (fields_cons_inv sep r) as (h & t & ->). done.
Qed.

Lemma shape_nil_nonEmpties sep r :
  shape (fields sep r) = ("", []) → nonEmpties (fields sep r) = [].
Proof.
  destruct (fields_cons_inv sep r) as (h & t & ->).
  unfold shape, nonEmpties. simpl. intros [= -> Ht].
  rewrite filter_cons. simpl. done.
Qed.

Section Trimming.
Variable sep : ascii → bool.
Hypothesis sep_space : ∀ c, JS.isSpace c = true → sep c = true.

Lemma nonEmpties_trimStart s :
  nonEmpties (fields sep (JS.trimStart s)) = nonEmpties (fields sep s).
Proof.
  induction s as [|c r IH]; [done|].
  cbn [JS.trimStart]. destruct (JS.isSpace c) eqn:Hc; [|done].
  rewrite IH, nonEmpties_fields_sep; auto.
Qed.

Lemma shape_trimEnd s :
  shape (fields sep (JS.trimEnd s)) = shape (fields sep s).
Proof.
  induction s as [|c r IH]; [done|].
  cbn [JS.trimEnd]. cbv zeta.
  destruct (JS.isSpace c) eqn:Hc; simpl andb.
  - destruct (JS.isEmpty (JS.trimEnd r)) eqn:He.
    + apply isEmpty_true in He. rewrite He in IH.
      rewrite shape_fields_sep by auto.
      rewrite shape_nil_nonEmpties; [done|]. by rewrite <- IH.
    + rewrite !shape_fields_sep by auto. f_equal.
      apply nonEmpties_shape; auto using fields_not_nil.
  - destruct (sep c) eqn:Hs.
    + rewrite !shape_fields_sep by auto. f_equal.
      apply nonEmpties_shape; auto using fields_not_nil.
    + rewrite !shape_fields_keep by auto. by rewrite IH.
Qed.

Lemma nonEmpties_trim s :
  nonEmpties (fields sep (JS.trim s)) = nonEmpties (fields sep s).
Proof.
  unfold JS.trim. rewrite <- (nonEmpties_trimStart s).
  apply nonEmpties_shape; [apply fields_not_nil..|apply shape_trimEnd].
Qed.
End Trimming.

Lemma collapse_fields t :
  shape (fields JS.isSpace (JS.collapseFrom false t)) =
    shape (fields JS.isSpace t) ∧
  nonEmpties (fields JS.isSpace (JS.collapseFrom true t)) =
    nonEmpties (fields JS.isSpace t).
Proof.
  induction t as [|c r [IHf IHt]]; [done|].
  cbn [JS.collapseFrom]. destruct (JS.isSpace c) eqn:Hc.
  - split.
    + rewrite !shape_fields_sep by done. by rewrite IHt.
    + by rewrite IHt, nonEmpties_fields_sep.
  - split.
    + rewrite !shape_fields_keep by done. by rewrite IHf.
    + rewrite !nonEmpties_fields_keep by done. by rewrite IHf.
Qed.

Lemma onlyBlanks_collapse b t : onlyBlanks (JS.collapseFrom b t).
Proof.
  revert b. induction t as [|c r IH]; intros b; [done|].
  cbn [JS.collapseFrom]. destruct (JS.isSpace c) eqn:Hc.
  - destruct b; [apply IH|]. split; [done|apply IH].
  - split; [congruence|apply IH].
Qed.

Lemma onlyBlanks_trimStart s : onlyBlanks s → onlyBlanks (JS.trimStart s).
Proof.
  induction s as [|c r IH]; [done|]. intros [Hc Hr].
  cbn [JS.trimStart]. destruct (JS.isSpace c) eqn:E; [auto|].
  simpl. rewrite E. auto.
Qed.

Lemma onlyBlanks_trimEnd s : onlyBlanks s → onlyBlanks (JS.trimEnd s).
Proof.
  induction s as [|c r IH]; [done|]. intros [Hc Hr].
  cbn [JS.trimEnd]. cbv zeta.
  destruct (JS.isSpace c && JS.isEmpty (JS.trimEnd r)); [done|].
  split; auto.
Qed.

Lemma split_fields sep s : JS.split sep s = fields (λ c, Ascii.eqb c sep) s.
Proof.
  induction s as [|c r IH]; [done|]. simpl. by rewrite IH.
Qed.

Lemma fields_blank s :
  onlyBlanks s → fields (λ c, Ascii.eqb c " ") s = fields JS.isSpace s.
Proof.
  induction s as [|c r IH]; [done|]. intros [Hc Hr]. simpl.
  rewrite IH by done. destruct (Ascii.eqb_spec c " ") as [->|Hne]; [done|].
  destruct (JS.isSpace c); [by destruct Hne; auto|done].
Qed.

Lemma fields_smap (p q : ascii → bool) (f : ascii → ascii) s :
  (∀ c, p (f c) = q c) → (∀ c, q c = false → f c = c) →
  fields p (JS.smap f s) = fields q s.
Proof.
  intros Hp Hf. induction s as [|c r IH]; [done|]. simpl.
  rewrite Hp, IH. destruct (q c) eqn:Hq; [done|]. by rewrite Hf.
Qed.

Lemma smap_trimStart f s :
  (∀ c, JS.isSpace (f c) = JS.isSpace c) →
  JS.smap f (JS.trimStart s) = JS.trimStart (JS.smap f s).
Proof.
  intros Hf. induction s as [|c r IH]; [done|]. simpl.
  rewrite Hf. by destruct (JS.isSpace c).
Qed.

Lemma smap_isEmpty f s : JS.isEmpty (JS.smap f s) = JS.isEmpty s.
Proof. by destruct s. Qed.

Lemma smap_trimEnd f s :
  (∀ c, JS.isSpace (f c) = JS.isSpace c) →
  JS.smap f (JS.trimEnd s) = JS.trimEnd (JS.smap f s).
Proof.
  intros Hf. induction s as [|c r IH]; [done|]. simpl.
  rewrite Hf, <- IH, smap_isEmpty.
  by destruct (JS.isSpace c && JS.isEmpty (JS.trimEnd r)).
Qed.

Lemma toLowerCase_trim s :
  JS.toLowerCase (JS.trim s) = JS.trim (JS.toLowerCase s).
Proof.
  unfold JS.toLowerCase, JS.trim.
  rewrite smap_trimEnd, smap_trimStart; auto using isSpace_lower.
Qed.

(** The pieces the handler splits the text into are the tokens. *)
Lemma split_pipeline t :
  nonEmpties (JS.split " " (JS.trim (JS.collapseSpaces (JS.replacePunct t))))
  = tokens t.
Proof.
  rewrite split_fields, fields_blank.
  2:{ apply onlyBlanks_trimEnd, onlyBlanks_trimStart, onlyBlanks_collapse. }
  rewrite nonEmpties_trim by done.
  unfold JS.collapseSpaces.
  rewrite (nonEmpties_shape _ (fields JS.isSpace (JS.replacePunct t)));
    [|apply fields_not_nil..|apply collapse_fields].
  unfold JS.replacePunct, tokens.
  rewrite (fields_smap _ (λ c, negb (isAlnum c))); [done| |].
  - apply replaced_isSpace.
  - intros c Hc. apply replaced_alnum. by destruct (isAlnum c).
Qed.

Lemma tokens_trim t : tokens (JS.trim t) = tokens t.
Proof.
  apply nonEmpties_trim. intros c Hc.
  by rewrite (isSpace_not_alnum c Hc).
Qed.

Lemma extractWords_tokens text :
  extractWords (JS.trim text) =
  filter (λ w, JS.hasDigit w = false) (tokens (JS.toLowerCase text)).
Proof.
  unfold extractWords.
  rewrite <- tokens_trim, <- toLowerCase_trim, <- split_pipeline.
  unfold nonEmpties. rewrite list_filter_filter.
  apply list_filter_iff. intros w. unfold keepWord.
  destruct (JS.isEmpty w), (JS.hasDigit w); simpl; intuition congruence.
Qed.

Lemma filter_all {A} (P : A → Prop) `{!∀ x, Decision (P x)} (l : list A) :
  (∀ x, P x) → filter P l = l.
Proof.
  intros HP. induction l as [|a l IH]; [done|].
  by rewrite filter_cons_True, IH.
Qed.

(** [unique] keeps first occurrences. *)
Lemma fold_setAdd ws seen :
  fold_left setAdd ws seen =
  seen ++ filter (λ w, w ∉ seen) (firstSeen ws).
Proof.
  revert seen. induction ws as [|w ws IH]; intros seen; simpl.
  - by rewrite app_nil_r.
  - rewrite IH. unfold setAdd, includes.
    destruct (decide (w ∈ seen)) as [Hw|Hw].
    + rewrite bool_decide_eq_true_2, filter_cons_False by auto. f_equal.
      rewrite list_filter_filter. apply list_filter_iff.
      intros v. split; [|tauto]. intros Hv. split; [done|]. by intros ->.
    + rewrite bool_decide_eq_false_2, filter_cons_True by auto.
      rewrite <- app_assoc. simpl. do 2 f_equal.
      rewrite list_filter_filter. apply list_filter_iff.
      intros v. rewrite elem_of_app, list_elem_of_singleton. tauto.
Qed.

Lemma unique_firstSeen ws : unique ws = firstSeen ws.
Proof.
  unfold unique. rewrite fold_setAdd. simpl.
  apply filter_all. intros w. apply not_elem_of_nil.
Qed.

(** ** The monad and the classification primitives *)

Ltac munfold :=
  unfold access, update, getState, emit, throw, tryCatch, mbind, M_bind,
    mret, M_ret in *.

Ltac pair_inv :=
  repeat match goal with
         | H : (_, _) = (_, _) |- _ => inversion H; clear H; subst
         end.

Lemma normalizePos_taxonomy v : normalizePos v ∈ taxonomy.
Proof.
  unfold normalizePos, taxonomy.
  repeat case_match; set_solver.
Qed.

Lemma unknown_taxonomy : "unknown" ∈ taxonomy.
Proof. unfold taxonomy. set_solver. Qed.

Lemma firstMeaning_pure data : pureM (firstMeaning data).
Proof.
  intros w. unfold firstMeaning, andAlso. munfold.
  repeat case_match; pair_inv; eauto.
Qed.

Lemma firstDefinition_pure data : pureM (firstDefinition data).
Proof.
  intros w. unfold firstDefinition. munfold.
  repeat case_match; pair_inv; eauto.
Qed.

Lemma firstPartOfSpeech_pure data : pureM (firstPartOfSpeech data).
Proof.
  intros w. unfold firstPartOfSpeech. munfold.
  repeat case_match; pair_inv; eauto.
Qed.

(** [getWordPosDirectly] always returns one of the five categories; it
    issues one request and writes at most the definition of the word. *)
Lemma getWordPosDirectly_run fetch word w :
  ∃ p ms,
    getWordPosDirectly fetch word w =
      (Returned p,
       mkWorld (setWordMeanings (λ _, ms) (ui w))
               (trace w ++ [EvFetch word])) ∧
    p ∈ taxonomy.
Proof.
  assert (Hid : ∀ s, setWordMeanings (λ _, wordMeanings s) s = s)
    by (by intros []).
  unfold getWordPosDirectly, fetchJson. munfold. cbn [ui trace].
  destruct (fetch word) as [| |data];
    try (eexists _, (wordMeanings (ui w)); rewrite Hid;
         split; [reflexivity|apply unknown_taxonomy]).
  set (w1 := mkWorld (ui w) (trace w ++ [EvFetch word])).
  destruct (firstMeaning_pure data w1) as [g ->].
  destruct g as [g|e];
    [|eexists _, (wordMeanings (ui w)); rewrite Hid;
      split; [reflexivity|apply unknown_taxonomy]].
  destruct (truthy g);
    [|eexists _, (wordMeanings (ui w)); rewrite Hid;
      split; [reflexivity|apply unknown_taxonomy]].
  destruct (firstDefinition_pure data w1) as [d ->].
  destruct d as [meaning|e];
    [|eexists _, (wordMeanings (ui w)); rewrite Hid;
      split; [reflexivity|apply unknown_taxonomy]].
  cbn [ui trace w1].
  set (w2 := mkWorld _ _).
  destruct (firstPartOfSpeech_pure data w2) as [t ->].
  subst w2.
  destruct t as [tag|e]; eexists _, _; (split; [reflexivity|]).
  - apply normalizePos_taxonomy.
  - apply unknown_taxonomy.
Qed.

(** ** What classification may change

    [enriches s s']: between [s] and [s'] only part-of-speech tags and
    definitions were learnt.  The models keep their vocabularies, the cache
    keeps its keys, and every other cell is the same. *)

Lemma enriches_refl s : enriches s s.
Proof. by split. Qed.

Lemma enriches_trans s1 s2 s3 :
  enriches s1 s2 → enriches s2 s3 → enriches s1 s3.
Proof.
  intros [] []. split; try congruence. set_solver.
Qed.

Lemma enriches_meanings f s : enriches s (setWordMeanings f s).
Proof. by split. Qed.

Lemma enriches_cache k p s : enriches s (setWordPos (<[k := p]>) s).
Proof. split; try done. simpl. rewrite dom_insert_L. set_solver. Qed.

Lemma vocabularies_length ms ms' :
  vocabularies ms = vocabularies ms' → length ms = length ms'.
Proof.
  unfold vocabularies. intros H.
  apply (f_equal length) in H. by rewrite !length_fmap in H.
Qed.

Lemma modelAt_is_Some ms i :
  is_Some (modelAt ms i) ↔ 0 ≤ i ∧ (Z.to_nat i < length ms)%nat.
Proof.
  unfold modelAt. destruct (Z.ltb_spec i 0).
  - split; [by intros [? ?]|lia].
  - rewrite lookup_lt_is_Some. intuition lia.
Qed.

Lemma modelAt_vocabularies ms ms' i :
  vocabularies ms = vocabularies ms' →
  is_Some (modelAt ms i) → is_Some (modelAt ms' i).
Proof.
  intros H. rewrite !modelAt_is_Some.
  by rewrite (vocabularies_length _ _ H).
Qed.

Lemma modelAt_lookup ms i m :
  modelAt ms i = Some m → ms !! Z.to_nat i = Some m.
Proof. unfold modelAt. by destruct (i <? 0). Qed.

(** The vocabulary of the model at [i], as the handlers test it. *)
Lemma modelAt_has ms ms' i m m' word :
  vocabularies ms = vocabularies ms' →
  modelAt ms i = Some m → modelAt ms' i = Some m' →
  has word (Model.embeddings m') = has word (Model.embeddings m).
Proof.
  intros H Hm Hm'. apply modelAt_lookup in Hm, Hm'.
  assert (Hd : dom (Model.embeddings m) = dom (Model.embeddings m')).
  { apply (f_equal (λ l, l !! Z.to_nat i)) in H.
    unfold vocabularies in H. rewrite !list_lookup_fmap, Hm, Hm' in H.
    by injection H. }
  unfold has.
  destruct (Model.embeddings m' !! word) eqn:E1,
           (Model.embeddings m !! word) eqn:E2; try done.
  - apply mk_is_Some, elem_of_dom in E1. rewrite <- Hd in E1.
    apply elem_of_dom in E1 as [? ?]. congruence.
  - apply mk_is_Some, elem_of_dom in E2. rewrite Hd in E2.
    apply elem_of_dom in E2 as [? ?]. congruence.
Qed.

Lemma annotate_run i key p w :
  (modelAt (models (ui w)) i = None ∧
   annotate i key p w = (Thrown TypeError, w)) ∨
  (is_Some (modelAt (models (ui w)) i) ∧
   ∃ s', annotate i key p w = (Returned tt, mkWorld s' (trace w)) ∧
         enriches (ui w) s' ∧ wordPos s' = wordPos (ui w)).
Proof.
  unfold annotate. munfold.
  destruct (modelAt (models (ui w)) i) as [m|] eqn:Hm; [right|left; done].
  split; [done|].
  destruct (Model.embeddings m !! key) as [e|] eqn:He.
  - eexists. split; [reflexivity|]. split; [|done].
    split; try done. simpl. unfold vocabularies.
    rewrite list_fmap_insert. simpl.
    rewrite dom_insert_lookup_L by done.
    apply list_insert_id. rewrite list_lookup_fmap.
    by rewrite (modelAt_lookup _ _ _ Hm).
  - exists (ui w). destruct w. split; [done|]. split; [apply enriches_refl|done].
Qed.

Lemma indexOk_enriches st s s' : enriches s s' → indexOk st s → indexOk st s'.
Proof.
  intros He [H|H]; [by left|right].
  eapply modelAt_vocabularies; [|done]. symmetry. apply He.
Qed.

(** [annotate] guarded by the test on the index. *)
Lemma guarded_annotate_run st key p w :
  ∃ r w',
    (if negb (activeModelIndex st =? -1)
     then annotate (activeModelIndex st) key p else mret tt) w = (r, w') ∧
    enriches (ui w) (ui w') ∧ trace w' = trace w ∧
    (indexOk st (ui w) → r = Returned tt) ∧
    (¬ indexOk st (ui w) → r = Thrown TypeError ∧ w' = w).
Proof.
  destruct (Z.eqb_spec (activeModelIndex st) (-1)) as [Hi|Hi]; simpl.
  - exists (Returned tt), w. munfold.
    split; [done|]. split; [apply enriches_refl|]. split; [done|].
    split; [done|]. intros H. destruct H. by left.
  - destruct (annotate_run (activeModelIndex st) key p w)
      as [[Hn ->]|[Hs (s' & -> & He & _)]].
    + exists (Thrown TypeError), w.
      split; [done|]. split; [apply enriches_refl|]. split; [done|].
      split; [|done]. intros [?|[? ?]]; congruence.
    + exists (Returned tt), (mkWorld s' (trace w)).
      split; [done|]. split; [done|]. split; [done|].
      split; [done|]. intros H. destruct H. by right.
Qed.


Lemma processWord_run st fetch c word w :
  ∃ r w',
    processWord st fetch c word w = (r, w') ∧
    enriches (ui w) (ui w') ∧
    outcome r
      (λ ca, ca.2 = (if includes word (highlightedWords st)
                     then None else Some word) ∧
             trace w' = trace w ++
                        (if needsFetch st word then [EvFetch word] else []))
      (¬ indexOk st (ui w)).
Proof.
  unfold processWord, needsFetch, has.
  destruct (includes word (highlightedWords st)).
  { exists (Returned (c, None)), w. munfold. simpl.
    rewrite app_nil_r. eauto using enriches_refl. }
  destruct (wordPos st !! word) as [p|].
  { exists (Returned (count p c, Some word)), w. munfold. simpl.
    rewrite app_nil_r. eauto using enriches_refl. }
  simpl negb. simpl andb.
  destruct (getWordPosDirectly_run fetch word w) as (p & ms & Hg & _).
  set (w1 := mkWorld (setWordPos (<[JS.toLowerCase word := p]>)
                        (setWordMeanings (λ _, ms) (ui w)))
                     (trace w ++ [EvFetch word])).
  assert (He1 : enriches (ui w) (ui w1)).
  { eapply enriches_trans; [apply (enriches_meanings (λ _, ms))|].
    apply enriches_cache. }
  destruct (guarded_annotate_run st (JS.toLowerCase word) p w1)
    as (r1 & w2 & Ha & He2 & Ht2 & Hok & Hbad).
  set (w3 := mkWorld (setWordPos (<[JS.toLowerCase word := "unknown"]>)
                        (ui w2)) (trace w2)).
  destruct (guarded_annotate_run st (JS.toLowerCase word) "unknown" w3)
    as (r3 & w4 & Ha3 & He4 & Ht4 & Hok3 & Hbad3).
  munfold. rewrite Hg. cbn [ui trace]. fold w1. rewrite Ha.
  destruct r1 as [[]|e].
  - eexists _, w2. split; [reflexivity|].
    split; [by eapply enriches_trans|]. simpl. by rewrite Ht2.
  - fold w3. rewrite Ha3.
    assert (He3 : enriches (ui w) (ui w4)).
    { eapply enriches_trans; [|apply He4].
      eapply enriches_trans; [|apply enriches_cache].
      by eapply enriches_trans. }
    destruct r3 as [[]|e3].
    + eexists _, w4. split; [reflexivity|]. split; [done|]. simpl.
      split; [done|]. rewrite Ht4. subst w3. simpl. by rewrite Ht2.
    + eexists _, w4. split; [reflexivity|]. split; [done|]. simpl.
      intros Hi. apply (indexOk_enriches _ _ _ He1), Hok in Hi. done.
Qed.

Lemma processBatch_run st fetch batch : ∀ c w,
  ∃ r w',
    processBatch st fetch c batch w = (r, w') ∧
    enriches (ui w) (ui w') ∧
    outcome r
      (λ ca, ca.2 = batchAnswer st <$> batch ∧
             trace w' = trace w ++ batchFetches st batch)
      (¬ indexOk st (ui w)).
Proof.
  induction batch as [|word rest IH]; intros c w.
  { exists (Returned (c, [])), w. simpl. munfold. unfold batchFetches.
    simpl. rewrite app_nil_r. eauto using enriches_refl. }
  destruct (processWord_run st fetch c word w)
    as (r1 & w1 & Hp & He1 & Hout1).
  cbn [processBatch]. munfold. rewrite Hp.
  destruct r1 as [[c1 a]|e]; simpl in Hout1.
  - destruct Hout1 as [-> Ht1].
    destruct (IH c1 w1) as (r2 & w2 & Hb & He2 & Hout2).
    munfold. rewrite Hb.
    destruct r2 as [[c2 rs]|e]; simpl in Hout2.
    + destruct Hout2 as [-> Ht2].
      eexists _, w2. split; [reflexivity|].
      split; [by eapply enriches_trans|]. simpl.
      split; [done|]. rewrite Ht2, Ht1, <- app_assoc. f_equal.
      unfold batchFetches. rewrite filter_cons.
      destruct (needsFetch st word); by simpl.
    + eexists _, w2. split; [reflexivity|].
      split; [by eapply enriches_trans|]. simpl.
      intros Hi. by apply Hout2, (indexOk_enriches _ _ _ He1).
  - eexists _, w1. split; [reflexivity|]. by split.
Qed.

Lemma omap_batchAnswer st batch :
  omap id (batchAnswer st <$> batch) = freshWords st batch.
Proof.
  unfold freshWords. induction batch as [|w rest IH]; [done|].
  cbn [fmap list_fmap omap list_omap]. rewrite IH.
  unfold batchAnswer at 1, includes. rewrite filter_cons.
  destruct (decide (w ∈ highlightedWords st)).
  - rewrite bool_decide_eq_true_2, decide_False by auto. done.
  - rewrite bool_decide_eq_false_2, decide_True by auto. done.
Qed.

Lemma awaitBatch_run st fetch c batch w :
  ∃ r w',
    awaitBatch st fetch c batch w = (r, w') ∧
    enriches (ui w) (ui w') ∧
    outcome r
      (λ ca, ca.2 = freshWords st batch ∧
             trace w' = trace w ++ batchEvents st batch)
      (¬ indexOk st (ui w)).
Proof.
  destruct (processBatch_run st fetch batch c w)
    as (r & w1 & Hp & He & Hout).
  unfold awaitBatch. munfold. rewrite Hp.
  destruct r as [[c1 rs]|e]; simpl in Hout.
  - destruct Hout as [-> Ht].
    eexists _, _. split; [reflexivity|]. split; [done|]. simpl.
    rewrite Ht, omap_batchAnswer.
    unfold batchEvents. by rewrite app_assoc.
  - eexists _, _. split; [reflexivity|]. by split.
Qed.

(** ** Batches *)

Lemma chunks_step k l :
  l ≠ [] → chunks (S k) l = take (S k) l :: chunks (S k) (drop (S k) l).
Proof. destruct l; [done|]. intros _. by simp chunks. Qed.


Lemma drop_nil_iff {A} (l : list A) i : drop i l = [] ↔ (length l ≤ i)%nat.
Proof.
  split; [|apply drop_ge].
  intros H. apply (f_equal length) in H. rewrite length_drop in H.
  simpl in H. lia.
Qed.

Lemma loopEvents_step st l :
  l ≠ [] →
  loopEvents st l =
  batchEvents st (take batchSize l) ++
  (if decide (drop batchSize l = []) then []
   else EvDelay batchDelay :: loopEvents st (drop batchSize l)).
Proof.
  intros Hl. unfold loopEvents, batchSize.
  rewrite (chunks_step _ _ Hl). cbn [fmap list_fmap joinWith]. f_equal.
  destruct (decide (drop 25 l = [])) as [->|Hd].
  - by simp chunks.
  - rewrite (chunks_step _ _ Hd). done.
Qed.

Lemma loop_step st foundWords i :
  (i < length foundWords)%nat →
  freshWords st (drop i foundWords) =
    freshWords st (slice i batchSize foundWords) ++
    freshWords st (drop (i + batchSize) foundWords) ∧
  loopEvents st (drop i foundWords) =
    batchEvents st (slice i batchSize foundWords) ++
    (if decide (i + batchSize < length foundWords)%nat
     then EvDelay batchDelay :: loopEvents st (drop (i + batchSize) foundWords)
     else []).
Proof.
  intros Hi. unfold slice. split.
  - unfold freshWords. rewrite <- filter_app, <- drop_drop.
    by rewrite take_drop.
  - rewrite loopEvents_step by (rewrite drop_nil_iff; lia).
    rewrite drop_drop. f_equal.
    destruct (decide (drop (i + batchSize) foundWords = [])) as [Hd|Hd];
      rewrite drop_nil_iff in Hd.
    + by rewrite decide_False by lia.
    + by rewrite decide_True by lia.
Qed.

Lemma batchLoop_run st fetch foundWords i c wordsToAdd w :
  ∃ r w',
    batchLoop st fetch foundWords i c wordsToAdd w = (r, w') ∧
    enriches (ui w) (ui w') ∧
    outcome r
      (λ ca, ca.2 = wordsToAdd ++ freshWords st (drop i foundWords) ∧
             trace w' = trace w ++ loopEvents st (drop i foundWords))
      (¬ indexOk st (ui w)).
Proof.
  funelim (batchLoop st fetch foundWords i c wordsToAdd w).
  - eexists _, _. split; [reflexivity|]. split; [apply enriches_refl|].
    simpl. rewrite drop_ge by lia. unfold freshWords, loopEvents.
    simp chunks. simpl. by rewrite !app_nil_r.
  - destruct (awaitBatch_run st fetch c (slice i batchSize foundWords) w)
      as (r & w' & Ha & He & Hout).
    rewrite Heq in Ha. injection Ha as <- <-.
    eexists _, _. split; [reflexivity|]. by split.
  - destruct (awaitBatch_run st fetch c (slice i batchSize foundWords) w)
      as (r & w' & Ha & He & Hout).
    rewrite Heq0 in Ha. injection Ha as <- <-.
    destruct Hout as [Hadded Ht]. simpl in Hadded. subst added.
    destruct H as (r & w' & Hl & He' & Hout').
    exists r, w'. split; [done|].
    split; [eapply enriches_trans; [apply He|apply He']|].
    assert (Hlt : (i < length foundWords)%nat) by assumption.
    destruct (loop_step st foundWords i Hlt) as [-> ->].
    rewrite decide_True by done.
    destruct r as [[c' ws]|e]; simpl in Hout' |- *.
    + destruct Hout' as [-> Ht']. split; [by rewrite app_assoc|].
      rewrite Ht', Ht, <- !app_assoc. done.
    + intros Hi. by apply Hout', (indexOk_enriches _ _ _ He).
  - destruct (awaitBatch_run st fetch c (slice i batchSize foundWords) w)
      as (r & w' & Ha & He & Hout).
    rewrite Heq0 in Ha. injection Ha as <- <-.
    destruct Hout as [Hadded Ht]. simpl in Hadded. subst added.
    destruct H as (r & w' & Hl & He' & Hout').
    exists r, w'. split; [done|].
    split; [eapply enriches_trans; [apply He|apply He']|].
    assert (Hlt : (i < length foundWords)%nat) by assumption.
    destruct (loop_step st foundWords i Hlt) as [-> ->].
    rewrite decide_False by done.
    destruct r as [[c' ws]|e]; simpl in Hout' |- *.
    + destruct Hout' as [-> Ht']. split; [by rewrite app_assoc|].
      rewrite Ht', Ht, <- !app_assoc.
      rewrite (drop_ge foundWords) by lia. unfold loopEvents. simp chunks.
      done.
    + intros Hi. by apply Hout', (indexOk_enriches _ _ _ He).
Qed.



Lemma joinWith_cons {A} (sep : list A) x rest :
  joinWith sep (x :: rest) =
  x ++ match rest with [] => [] | _ :: _ => sep ++ joinWith sep rest end.
Proof. done. Qed.


(** The log of a joined sequence ends as its last element does. *)
Lemma joinWith_last {A} (sep : list A) (ls : list (list A)) (P : A → Prop) :
  ls ≠ [] → Forall (λ x, ∃ y e, x = y ++ [e] ∧ P e) ls →
  ∃ y e, joinWith sep ls = y ++ [e] ∧ P e.
Proof.
  induction ls as [|x rest IH]; [done|]. intros _ Hall.
  inversion Hall as [|? ? (y & e & -> & He) Hrest]; subst.
  rewrite joinWith_cons. destruct rest as [|x' rest'].
  - exists y, e. by rewrite app_nil_r.
  - destruct (IH ltac:(done) Hrest) as (y' & e' & -> & He').
    exists ((y ++ [e]) ++ sep ++ y'), e'. by rewrite <- !app_assoc.
Qed.



(** ** Batch classification *)


(** ** Paragraph submission *)

Lemma findWords_candidates m paragraph :
  findWords (Some m) (extractWords (JS.trim paragraph)) =
  mret (candidateWords paragraph (Model.embeddings m)).
Proof.
  unfold findWords, candidateWords.
  rewrite unique_firstSeen, extractWords_tokens. f_equal.
  apply list_filter_iff. intros w. unfold has.
  destruct (Model.embeddings m !! w); split; try done.
Qed.

Lemma processParagraphWords_run st fetch pid text foundWords w :
  ∃ r w',
    processParagraphWords st fetch pid text foundWords w = (r, w') ∧
    outcome r
      (λ _, ∃ s1 c,
         enriches (ui w) s1 ∧
         trace w' = trace w ++ loopEvents st foundWords ∧
         ui w' = afterLoop st s1 pid text (freshWords st foundWords) c)
      (¬ indexOk st (ui w) ∧ enriches (ui w) (ui w')).
Proof.
  destruct (batchLoop_run st fetch foundWords 0 (mkStats 0 0 0 0) [] w)
    as (r & w1 & Hl & He & Hout).
  unfold processParagraphWords. munfold. rewrite Hl.
  destruct r as [[c ws]|e]; simpl in Hout.
  - destruct Hout as [Hws Ht]. rewrite drop_0 in Hws, Ht.
    simpl in Hws. subst ws.
    destruct (freshWords st foundWords) as [|a fresh].
    + eexists _, _. split; [reflexivity|]. simpl.
      by exists (ui w1), c.
    + eexists _, _. split; [reflexivity|]. simpl.
      by exists (ui w1), c.
  - eexists _, _. split; [reflexivity|]. by split.
Qed.

Lemma submit_blank fetch pid paragraph w :
  JS.trim paragraph = "" →
  handleParagraphSubmit fetch pid paragraph w = (Returned tt, w).
Proof. intros H. unfold handleParagraphSubmit. by rewrite H. Qed.

Lemma isEmpty_false s : s ≠ "" → JS.isEmpty s = false.
Proof. by destruct s. Qed.

(** A submission with text and a model in place. *)
Lemma submit_with_model fetch pid paragraph st m :
  JS.trim paragraph ≠ "" →
  modelAt (models st) (activeModelIndex st) = Some m →
  let found := candidateWords paragraph (Model.embeddings m) in
  let st0 := setSuccess "" (setError "" st) in
  ∃ w',
    run (handleParagraphSubmit fetch pid paragraph) st = (Returned tt, w') ∧
    match found with
    | [] => w' = mkWorld (setError NoMatch st0) []
    | _ :: _ =>
        ∃ s1 c, enriches st0 s1 ∧ trace w' = loopEvents st found ∧
                ui w' = afterLoop st s1 pid (JS.trim paragraph)
                          (freshWords st found) c
    end.
Proof.
  intros Hne Hm found st0.
  assert (Hidx : (activeModelIndex st =? -1) = false).
  { apply Z.eqb_neq. intros Hi. rewrite Hi in Hm. done. }
  unfold run, handleParagraphSubmit. rewrite (isEmpty_false _ Hne).
  munfold. cbn [ui trace]. rewrite Hidx, Hm, findWords_candidates.
  munfold. fold found. fold st0.
  destruct found as [|a found'] eqn:Hfound; [by eexists|].
  cbn [length Nat.eqb].
  destruct (processParagraphWords_run st fetch pid (JS.trim paragraph)
              (a :: found') (mkWorld st0 []))
    as (r & w' & Hp & Hout).
  change (mkWorld (setSuccess "" (setError "" (ui (mkWorld st []))))
                  (trace (mkWorld st []))) with (mkWorld st0 []).
  rewrite Hp. destruct r as [[]|e]; simpl in Hout.
  - exists w'. split; [done|]. destruct Hout as (s1 & c & ? & ? & ?).
    by exists s1, c.
  - destruct Hout as [Hbad _]. destruct Hbad. right. simpl. by rewrite Hm.
Qed.







(** ** Classification *)

Lemma normalizePos_taxonomyOf tag : normalizePos tag = taxonomyOf tag.
Proof.
  unfold normalizePos, taxonomyOf, isString.
  destruct tag as [| | | |t| |]; try done.
  destruct (String.eqb_spec t "noun") as [->|H1]; [done|].
  destruct (String.eqb_spec t "verb") as [->|H2]; [done|].
  destruct (String.eqb_spec t "adjective") as [->|H3]; [done|].
  destruct (String.eqb_spec t "adverb") as [->|H4]; [done|].
  rewrite bool_decide_eq_false_2; [done|].
  rewrite !elem_of_cons, elem_of_nil. tauto.
Qed.

(** The category [getWordPosDirectly] answers, as a function of what the
    service gave. *)
Lemma getWordPosDirectly_value fetch word w :
  (getWordPosDirectly fetch word w).1 =
  Returned
    (match fetch word with
     | Json data =>
         match firstMeaning data w with
         | (Returned g, _) =>
             if truthy g then
               match firstDefinition data w, firstPartOfSpeech data w with
               | (Returned _, _), (Returned tag, _) => normalizePos tag
               | _, _ => "unknown"
               end
             else "unknown"
         | _ => "unknown"
         end
     | _ => "unknown"
     end).
Proof.
  unfold getWordPosDirectly, fetchJson. munfold. cbn [ui trace].
  destruct (fetch word) as [| |data]; try done.
  set (w1 := mkWorld (ui w) (trace w ++ [EvFetch word])).
  destruct (firstMeaning_pure data w1) as [g Hg].
  destruct (firstMeaning_pure data w) as [g' Hg'].
  assert (g' = g) as ->.
  { revert Hg Hg'. unfold firstMeaning, andAlso. munfold.
    repeat case_match; pair_inv; congruence. }
  rewrite Hg, Hg'. destruct g as [g|e]; [|done].
  destruct (truthy g); [|done].
  destruct (firstDefinition_pure data w1) as [d Hd].
  destruct (firstDefinition_pure data w) as [d' Hd'].
  assert (d' = d) as ->.
  { revert Hd Hd'. unfold firstDefinition. munfold.
    repeat case_match; pair_inv; congruence. }
  rewrite Hd, Hd'. destruct d as [d|e]; [|done].
  cbn [ui trace]. set (w2 := mkWorld _ _).
  destruct (firstPartOfSpeech_pure data w2) as [t Ht].
  destruct (firstPartOfSpeech_pure data w) as [t' Ht'].
  assert (t' = t) as ->.
  { revert Ht Ht'. unfold firstPartOfSpeech. munfold.
    repeat case_match; pair_inv; congruence. }
  rewrite Ht, Ht'. by destruct t.
Qed.

(** C5.  [getWordPosDirectly] always succeeds: for every word, every answer
    of the service and every state it returns one of the five categories and
    never throws.  On a well-formed answer it maps the first part-of-speech
    tag by exact string match on noun, verb, adjective and adverb, anything
    else (a missing tag included) being [unknown], and stores the first
    definition; on a rejected request, a body that is not JSON, an answer
    without an entry, or an entry lacking the path to a first definition it
    returns [unknown]. *)
Theorem C5_classify_always_succeeds
  (fetch : string → response) (word : string) (w : World) :
  ∃ p w',
    getWordPosDirectly fetch word w = (Returned p, w') ∧
    p ∈ ["noun"; "verb"; "adjective"; "adverb"; "unknown"] ∧
    (∀ data tag definition,
       fetch word = Json data → wellFormed data tag definition →
       p = taxonomyOf tag ∧
       wordMeanings (ui w') !! JS.toLowerCase word = Some (VString definition)) ∧
    (fetch word = NetworkError ∨ fetch word = InvalidBody → p = "unknown") ∧
    (∀ data, fetch word = Json data → noEntry data ∨ malformed data →
             p = "unknown").
Proof.
  destruct (getWordPosDirectly_run fetch word w) as (p & ms & Hrun & Hp).
  pose proof (getWordPosDirectly_value fetch word w) as Hval.
  rewrite Hrun in Hval. cbn [fst] in Hval. injection Hval as Hval.
  exists p, (mkWorld (setWordMeanings (λ _, ms) (ui w))
                     (trace w ++ [EvFetch word])).
  split; [done|]. split; [done|]. split; [|split].
  - intros data tag definition Hf
      (eprops & entries & mprops & meanings & dprops & defs &
       -> & Hms & Htag & Hdefs & Hdef).
    rewrite Hf in Hval. split.
    + revert Hval. unfold firstMeaning, firstDefinition, firstPartOfSpeech,
        andAlso. munfold. cbn. rewrite Hms. cbn. rewrite Hdefs, Htag. cbn.
      intros ->. apply normalizePos_taxonomyOf.
    + revert Hrun. unfold getWordPosDirectly, fetchJson, firstMeaning,
        firstDefinition, firstPartOfSpeech, andAlso. munfold.
      rewrite Hf. cbn. rewrite Hms. cbn. rewrite Hdefs. cbn.
      rewrite Hdef. cbn.
      intros [= _ <-]. apply lookup_insert_eq.
  - intros [Hf|Hf]; by rewrite Hf in Hval.
  - intros data Hf Hshape. rewrite Hf in Hval. revert Hval.
    unfold firstMeaning, firstDefinition, firstPartOfSpeech, andAlso.
    munfold.
    intros Hval.
    destruct Hshape as [[Hd|(entry & He & Ht)]|Hm].
    + repeat (progress (cbn in Hval; rewrite ?Hd in Hval)). done.
    + destruct (truthy data) eqn:Hd;
        repeat (progress (cbn in Hval; rewrite ?Hd, ?He, ?Ht in Hval));
        done.
    + destruct Hm as [entry ms' He Hm Ht|entry ms' m0 He Hm H0 Ht|
                      entry ms' m0 defs He Hm H0 Hd Hn|
                      entry ms' m0 defs d0 He Hm H0 Hd H1 Hn];
        destruct (truthy data) eqn:T1, (truthy entry) eqn:T2,
                 (truthy ms') eqn:T3;
        try destruct (truthy m0) eqn:T4;
        repeat (progress (cbn in Hval;
                          rewrite ?T1, ?T2, ?T3, ?T4, ?He, ?Hm, ?H0, ?Hd,
                            ?H1, ?Hn, ?Ht in Hval));
        try done.
Qed.

(** ** Adding a word *)

Lemma toLowerChar_idem c : JS.toLowerChar (JS.toLowerChar c) = JS.toLowerChar c.
Proof.
  destruct c as [[|] [|] [|] [|] [|] [|] [|] [|]]; vm_compute; congruence.
Qed.

Lemma toLowerCase_idem s : JS.toLowerCase (JS.toLowerCase s) = JS.toLowerCase s.
Proof.
  unfold JS.toLowerCase. induction s as [|c r IH]; [done|].
  simpl. by rewrite toLowerChar_idem, IH.
Qed.

Section AddWord.
Variable fetch : string → response.
Variable searchWord : string.
Let word := JS.toLowerCase (JS.trim searchWord).
Hypothesis word_not_blank : word ≠ "".

Lemma handleSearch_no_model st :
  activeModelIndex st = -1 →
  run (handleSearch fetch searchWord) st =
  (Returned tt, mkWorld (setSuccess "" (setError NoActiveModel st)) []).
Proof.
  intros Hi. unfold run, handleSearch. fold word.
  rewrite (isEmpty_false _ word_not_blank). munfold. cbn [ui trace].
  by rewrite Hi.
Qed.

Lemma handleSearch_not_found st m :
  modelAt (models st) (activeModelIndex st) = Some m →
  has word (Model.embeddings m) = false →
  run (handleSearch fetch searchWord) st =
  (Returned tt, mkWorld (setSuccess "" (setError (WordNotFound word) st)) []).
Proof.
  intros Hm Hhas.
  assert (Hidx : (activeModelIndex st =? -1) = false).
  { apply Z.eqb_neq. intros Hi. rewrite Hi in Hm. done. }
  unfold run, handleSearch. fold word.
  rewrite (isEmpty_false _ word_not_blank). munfold. cbn [ui trace].
  by rewrite Hidx, Hm, Hhas.
Qed.

Lemma handleSearch_already st m :
  modelAt (models st) (activeModelIndex st) = Some m →
  has word (Model.embeddings m) = true →
  word ∈ highlightedWords st →
  run (handleSearch fetch searchWord) st =
  (Returned tt,
   mkWorld (setSuccess "" (setError (AlreadyHighlighted word) st)) []).
Proof.
  intros Hm Hhas Hin.
  assert (Hidx : (activeModelIndex st =? -1) = false).
  { apply Z.eqb_neq. intros Hi. rewrite Hi in Hm. done. }
  unfold run, handleSearch, includes. fold word.
  rewrite (isEmpty_false _ word_not_blank). munfold. cbn [ui trace].
  rewrite Hidx, Hm, Hhas. by rewrite bool_decide_eq_true_2.
Qed.

Lemma handleSearch_added st m :
  modelAt (models st) (activeModelIndex st) = Some m →
  has word (Model.embeddings m) = true →
  word ∉ highlightedWords st →
  ∃ s1 w1,
    run (handleSearch fetch searchWord) st = (Returned tt, w1) ∧
    enriches st s1 ∧
    ui w1 = setError "" (setSuccess (wordAdded word)
              (setHighlightedWords (λ prev, prev ++ [word]) s1)) ∧
    match wordPos st !! word with
    | Some _ => wordPos s1 = wordPos st ∧ trace w1 = []
    | None => trace w1 = [EvFetch word] ∧
              ∃ p, p ∈ taxonomy ∧ wordPos s1 !! word = Some p
    end.
Proof.
  intros Hm Hhas Hin.
  assert (Hidx : (activeModelIndex st =? -1) = false).
  { apply Z.eqb_neq. intros Hi. rewrite Hi in Hm. done. }
  unfold run, handleSearch, includes. fold word.
  rewrite (isEmpty_false _ word_not_blank). munfold. cbn [ui trace].
  rewrite Hidx, Hm, Hhas. rewrite bool_decide_eq_false_2 by done.
  cbn [negb]. unfold has.
  destruct (wordPos st !! word) as [p0|] eqn:Hc; cbn [negb].
  { exists st. eexists. split; [reflexivity|].
    split; [apply enriches_refl|]. done. }
  destruct (getWordPosDirectly_run fetch word (mkWorld st []))
    as (p & ms & Hg & Hp).
  rewrite Hg. cbn [ui trace]. unfold word at 2.
  rewrite toLowerCase_idem. fold word.
  set (w1 := mkWorld (setWordPos (<[word := p]>)
                        (setWordMeanings (λ _, ms) st)) ([] ++ [EvFetch word])).
  destruct (annotate_run (activeModelIndex st) word p w1)
    as [[Hn _]|[_ (s' & -> & He & Hpos)]].
  { simpl in Hn. congruence. }
  exists s'. eexists. split; [reflexivity|]. split.
  { eapply enriches_trans; [|apply He].
    eapply enriches_trans; [apply (enriches_meanings (λ _, ms))|].
    apply enriches_cache. }
  split; [done|]. split; [done|].
  exists p. split; [done|]. rewrite Hpos. apply lookup_insert_eq.
Qed.

End AddWord.


(** ** Removing a paragraph *)

Lemma findParagraph_id paragraphId ps p :
  findParagraph paragraphId ps = Some p →
  Paragraph.id p = paragraphId ∧ p ∈ ps.
Proof.
  unfold findParagraph. intros H. apply find_some in H as [Hin Heq].
  split; [by apply String.eqb_eq|by apply list_elem_of_In].
Qed.

(** C9.  [removeParagraph(id)] returns, and when a paragraph with that
    identifier is stored it removes from the HighlightSet exactly the words
    recorded in that paragraph's word list (a word stays, in its place,
    exactly when it is not in the list), deletes the record and keeps the
    paragraphs with another identifier, clears the active and the expanded
    paragraph selection exactly when they referenced the identifier, and
    leaves the models, the active model, the part-of-speech cache, the
    definitions and the messages as they were; when no paragraph has the
    identifier the state is unchanged. *)
Theorem C9_removeParagraph_removes_its_words_only
  (paragraphId : string) (st : State) :
  ∃ st',
    run (removeParagraph paragraphId) st = (Returned tt, mkWorld st' []) ∧
    match findParagraph paragraphId (savedParagraphs st) with
    | None => st' = st
    | Some p =>
        Paragraph.id p = paragraphId ∧
        highlightedWords st' =
          filter (λ w, w ∉ Paragraph.words p) (highlightedWords st) ∧
        (∀ w, w ∈ highlightedWords st' ↔
              (w ∈ highlightedWords st) ∧ (w ∉ Paragraph.words p)) ∧
        savedParagraphs st' =
          filter (λ q, Paragraph.id q ≠ paragraphId) (savedParagraphs st) ∧
        (p ∉ savedParagraphs st') ∧
        (∀ q, q ∈ savedParagraphs st' ↔
              (q ∈ savedParagraphs st) ∧ (Paragraph.id q ≠ paragraphId)) ∧
        activeParagraphId st' =
          (if decide (activeParagraphId st = Some paragraphId)
           then None else activeParagraphId st) ∧
        expandedParagraphId st' =
          (if decide (expandedParagraphId st = Some paragraphId)
           then None else expandedParagraphId st) ∧
        models st' = models st ∧
        activeModelIndex st' = activeModelIndex st ∧
        wordPos st' = wordPos st ∧
        wordMeanings st' = wordMeanings st ∧
        error st' = error st ∧ success st' = success st
    end.
Proof.
  unfold run, removeParagraph. munfold. cbn [ui trace].
  destruct (findParagraph paragraphId (savedParagraphs st)) as [p|] eqn:Hf.
  2:{ exists st. by destruct st. }
  destruct (findParagraph_id _ _ _ Hf) as [Hid Hin].
  destruct (decide (activeParagraphId st = Some paragraphId)) as [Ha|Ha];
    [rewrite (bool_decide_eq_true_2 _ Ha)
    |rewrite (bool_decide_eq_false_2 _ Ha)];
    (destruct (decide (expandedParagraphId st = Some paragraphId)) as [Hx|Hx];
     [rewrite (bool_decide_eq_true_2 _ Hx)
     |rewrite (bool_decide_eq_false_2 _ Hx)]);
    (eexists; split; [reflexivity|]); cbn;
    (split; [done|]); (split; [done|]);
    (split; [intros w; rewrite list_elem_of_filter; tauto|]);
    (split; [done|]);
    (split; [rewrite list_elem_of_filter; tauto|]);
    (split; [intros q; rewrite list_elem_of_filter; tauto|]);
    done.
Qed.

(** ** Loading a model *)

Lemma addRow_spec cache acc row :
  addRow cache acc row =
  (match validEntry cache row with
   | Some (k, e) => <[k := e]> acc.1
   | None => acc.1
   end,
   if countedInvalid row then S acc.2 else acc.2).
Proof.
  unfold addRow, validEntry, countedInvalid, rowFields, badWord,
    badCoordinates.
  destruct acc as [m n]. destruct row as [|c0 [|c1 [|c2 rest]]]; try done.
  cbv zeta. cbn [fst snd].
  destruct (JS.isEmpty (JS.stripQuotes (JS.trim c2)) ||
            (JS.stripQuotes (JS.trim c2) =? ".")%string); [done|].
  cbn [negb andb].
  by destruct (JS.isNaN (JS.Number (JS.trim (JS.stripQuotes c0))) ||
               JS.isNaN (JS.Number (JS.trim (JS.stripQuotes c1)))).
Qed.

Lemma row_cases cache row :
  (is_Some (validEntry cache row) ∧
   countedInvalid row = false ∧ skipped row = false) ∨
  (validEntry cache row = None ∧
   countedInvalid row = true ∧ skipped row = false) ∨
  (validEntry cache row = None ∧
   countedInvalid row = false ∧ skipped row = true).
Proof.
  unfold validEntry, countedInvalid, skipped.
  destruct (rowFields row) as [[[xs ys] word]|]; [|by right; right].
  destruct (badWord word), (badCoordinates xs ys); simpl; eauto.
Qed.

Lemma row_partition rows cache :
  (length (validEntries cache rows) +
   length (filter (λ row, countedInvalid row = true) rows) +
   length (filter (λ row, skipped row = true) rows) = length rows)%nat.
Proof.
  unfold validEntries. induction rows as [|row rows IH]; [done|].
  cbn [omap list_omap length].
  destruct (row_cases cache row)
    as [([e He] & Hc & Hs)|[(He & Hc & Hs)|(He & Hc & Hs)]];
    rewrite He; cbn [length].
  - rewrite !filter_cons_False by congruence. lia.
  - rewrite filter_cons_True, filter_cons_False by congruence. simpl. lia.
  - rewrite filter_cons_False, filter_cons_True by congruence. simpl. lia.
Qed.

Lemma fold_addRow_count cache rows : ∀ acc,
  (fold_left (addRow cache) rows acc).2 =
  (acc.2 + length (filter (λ row, countedInvalid row = true) rows))%nat.
Proof.
  induction rows as [|row rows IH]; intros acc; simpl; [lia|].
  rewrite IH, addRow_spec. cbn [snd].
  destruct (countedInvalid row) eqn:Hc.
  - rewrite filter_cons_True by done. simpl. lia.
  - rewrite filter_cons_False by congruence. lia.
Qed.

Lemma fold_addRow_dom cache rows : ∀ acc,
  dom (fold_left (addRow cache) rows acc).1 =
  dom acc.1 ∪ list_to_set (validEntries cache rows).*1.
Proof.
  unfold validEntries.
  induction rows as [|row rows IH]; intros acc; simpl; [set_solver|].
  rewrite IH, addRow_spec. cbn [fst].
  destruct (validEntry cache row) as [[k e]|]; simpl; [|done].
  rewrite dom_insert_L. set_solver.
Qed.

(** Rows without a valid entry for [k] leave the embedding of [k] alone. *)
Lemma fold_addRow_other cache k rows : ∀ acc,
  Forall (λ row, ∀ e, validEntry cache row ≠ Some (k, e)) rows →
  (fold_left (addRow cache) rows acc).1 !! k = acc.1 !! k.
Proof.
  induction rows as [|row rows IH]; intros acc Hall; [done|].
  inversion Hall as [|? ? Hrow Hrows]; subst. simpl.
  rewrite (IH _ Hrows), addRow_spec. cbn [fst].
  destruct (validEntry cache row) as [[k' e]|]; [|done].
  apply lookup_insert_ne. intros ->. by apply (Hrow e).
Qed.

Lemma size_list_to_set_le (l : list string) :
  (size (list_to_set l : gset string) ≤ length l)%nat ∧
  (¬ NoDup l → (size (list_to_set l : gset string) < length l)%nat).
Proof.
  induction l as [|a l [IHle IHlt]]; simpl.
  { split; [done|]. intros H. destruct H. constructor. }
  destruct (decide (a ∈ l)) as [Hin|Hin].
  - assert (({[a]} ∪ list_to_set l : gset string) = list_to_set l) as ->
      by set_solver.
    split; [lia|]. intros _. lia.
  - rewrite size_union by set_solver. rewrite size_singleton.
    split; [lia|]. intros Hnd.
    assert (¬ NoDup l) by (intros Hl; apply Hnd; by constructor).
    specialize (IHlt ltac:(done)). lia.
Qed.

Lemma handleFileUpload_run fileName rows st :
  let parsed := parseRows (wordPos st) rows in
  run (handleFileUpload (Parsed fileName rows)) st =
  (Returned tt,
   mkWorld
     (if (size parsed.1 =? 0)%nat then setError EmptyModel (setError "" st)
      else
        setSuccess (modelLoaded (size parsed.1) parsed.2)
          (setActiveModelIndex (Z.of_nat (length (models st)))
             (setModels
                (λ prev, prev ++ [Model.mk (removeExtension fileName) parsed.1])
                (setError "" st))))
     []).
Proof.
  intros parsed. unfold run, handleFileUpload. munfold.
  cbv beta. cbn [ui trace].
  change (wordPos (setError "" st)) with (wordPos st).
  fold parsed. destruct parsed as [m n]. cbn [fst snd].
  by destruct (size m =? 0)%nat.
Qed.

(** Loading never touches the HighlightSet. *)
Lemma handleFileUpload_highlights file st :
  highlightedWords (ui (run (handleFileUpload file) st).2) = highlightedWords st.
Proof.
  destruct file as [|fileName|fileName rows]; try done.
  rewrite handleFileUpload_run. cbv zeta. cbn [snd ui].
  by destruct (size (parseRows (wordPos st) rows).1 =? 0)%nat.
Qed.

(** C1, amended.  For every CSV input with at least one valid row (three
    fields, a word that is neither empty nor a single period, two numeric
    coordinates), [handleFileUpload] appends a model and makes it the active
    one.  The model holds one embedding per lower-cased word of the valid
    rows, so its embedding count is the number of distinct such words, which
    is the number of rows minus the counted invalid rows minus the silently
    skipped rows when no two valid rows share a word.  The reported invalid
    count is the number of rows with an acceptable word and an unparseable
    coordinate; rows with fewer than three fields, an empty word or a
    single period are skipped without being counted. *)
Theorem C1_loadModel_counts
  (fileName : string) (rows : list (list string)) (st : State) :
  let entries := validEntries (wordPos st) rows in
  let invalid := length (filter (λ row, countedInvalid row = true) rows) in
  let ignored := length (filter (λ row, skipped row = true) rows) in
  entries ≠ [] →
  ∃ st' m,
    run (handleFileUpload (Parsed fileName rows)) st
      = (Returned tt, mkWorld st' []) ∧
    models st' = models st ++ [m] ∧
    activeModelIndex st' = Z.of_nat (length (models st)) ∧
    modelAt (models st') (activeModelIndex st') = Some m ∧
    dom (Model.embeddings m) = list_to_set entries.*1 ∧
    size (Model.embeddings m) = size (list_to_set entries.*1 : gset string) ∧
    (size (Model.embeddings m) ≤ length rows - invalid - ignored)%nat ∧
    (NoDup entries.*1 →
     size (Model.embeddings m) = (length rows - invalid - ignored)%nat) ∧
    (parseRows (wordPos st) rows).2 = invalid ∧
    success st' = modelLoaded (size (Model.embeddings m)) invalid.
Proof.
  intros entries invalid ignored Hne.
  pose proof (fold_addRow_dom (wordPos st) rows (∅, 0%nat)) as Hdom.
  pose proof (fold_addRow_count (wordPos st) rows (∅, 0%nat)) as Hcount.
  pose proof (row_partition rows (wordPos st)) as Hpart.
  fold (parseRows (wordPos st) rows) in Hdom, Hcount.
  cbn [fst snd] in Hdom, Hcount. fold entries in Hdom, Hpart.
  fold invalid in Hcount, Hpart. fold ignored in Hpart.
  rewrite dom_empty_L, (left_id_L ∅ (∪)) in Hdom.
  assert (Hsize : size (parseRows (wordPos st) rows).1 =
                  size (list_to_set entries.*1 : gset string)).
  { by rewrite <- Hdom, size_dom. }
  assert (Hpos : (size (parseRows (wordPos st) rows).1 =? 0)%nat = false).
  { apply Nat.eqb_neq. rewrite Hsize. intros H0.
    apply size_empty_iff in H0. destruct entries as [|[k e] es]; [done|].
    set_solver. }
  rewrite handleFileUpload_run, Hpos. cbv zeta.
  eexists _, _. split; [reflexivity|]. cbn.
  split; [done|]. split; [done|].
  split.
  { unfold modelAt. rewrite (proj2 (Z.ltb_ge _ _)) by lia.
    rewrite Nat2Z.id, lookup_app_r by done. by rewrite Nat.sub_diag. }
  split; [done|]. split; [done|].
  destruct (size_list_to_set_le entries.*1) as [Hle _].
  rewrite length_fmap in Hle. cbn [Model.embeddings]. rewrite Hsize.
  split; [lia|]. split.
  { intros Hnd. rewrite size_list_to_set, length_fmap by done. lia. }
  split; [lia|]. by rewrite Hcount.
Qed.

(** C10.  When two valid rows give the same word after trimming,
    quote-stripping and lower-casing, and no later valid row gives it again,
    the loaded map holds under that key the embedding of the later row: its
    word in the original case, its coordinates, and the cached tag of the
    key.  The map has one embedding per key, so its size is then strictly
    less than the number of valid rows. *)
Theorem C10_last_duplicate_row_wins
  (cache : gmap string string) (before between after : list (list string))
  (earlier later : list string) (key : string) (e1 e2 : WordEmbedding.t) :
  validEntry cache earlier = Some (key, e1) →
  validEntry cache later = Some (key, e2) →
  Forall (λ row, ∀ e, validEntry cache row ≠ Some (key, e)) after →
  let rows := before ++ earlier :: between ++ later :: after in
  let embeddingsMap := (parseRows cache rows).1 in
  embeddingsMap !! key = Some e2 ∧
  (∃ xStr yStr word,
     rowFields later = Some (xStr, yStr, word) ∧
     key = JS.toLowerCase word ∧
     e2 = WordEmbedding.mk word (JS.Number xStr) (JS.Number yStr)
            (cache !! key)) ∧
  (size embeddingsMap < length (validEntries cache rows))%nat.
Proof.
  intros H1 H2 Hafter rows embeddingsMap. split; [|split].
  - unfold embeddingsMap, parseRows, rows.
    rewrite app_comm_cons, app_assoc, fold_left_app. simpl.
    rewrite (fold_addRow_other _ _ _ _ Hafter), addRow_spec, H2.
    apply lookup_insert_eq.
  - revert H2. unfold validEntry.
    destruct (rowFields later) as [[[xs ys] word]|]; [|done].
    destruct (negb (badWord word) && negb (badCoordinates xs ys)); [|done].
    intros [= <- <-]. by exists xs, ys, word.
  - pose proof (fold_addRow_dom cache rows (∅, 0%nat)) as Hdom.
    fold (parseRows cache rows) in Hdom. fold embeddingsMap in Hdom.
    cbn [fst] in Hdom. rewrite dom_empty_L, (left_id_L ∅ (∪)) in Hdom.
    rewrite <- size_dom, Hdom.
    destruct (size_list_to_set_le (validEntries cache rows).*1) as [_ Hlt].
    rewrite length_fmap in Hlt. apply Hlt.
    unfold rows, validEntries.
    rewrite omap_app. cbn [omap list_omap]. rewrite H1, omap_app.
    cbn [omap list_omap]. rewrite H2.
    rewrite !fmap_app, !fmap_cons, fmap_app, fmap_cons. cbn [fst].
    rewrite NoDup_app. intros (_ & _ & Hnd).
    apply NoDup_cons in Hnd as [Hnotin _].
    apply Hnotin. rewrite elem_of_app, elem_of_cons. auto.
Qed.

(** ** The highlight invariant *)

Lemma applyCache_dom cache embs : dom (applyCache cache embs) = dom embs.
Proof.
  unfold applyCache.
  apply (map_fold_weak_ind (λ acc _, dom acc = dom embs)); [done|].
  intros k p _ acc _ IH.
  destruct (acc !! k) as [e|] eqn:He; [|done].
  rewrite dom_insert_lookup_L; [done|by eexists].
Qed.

(** [selectModel] keeps the invariant: the words it leaves highlighted are
    keys of the model it makes active. *)
Lemma selectModel_keeps_invariant index st w' :
  run (selectModel index) st = (Returned tt, w') →
  highlightsResolve st = true → highlightsResolve (ui w') = true.
Proof.
  unfold run, selectModel. munfold. cbn [ui trace].
  destruct (Z.eqb_spec (Z.of_nat index) (activeModelIndex st)) as [Hi|Hi].
  { by intros [= <-]. }
  destruct (models st !! index) as [newModel|] eqn:Hm; [|done].
  intros [= <-] _. unfold highlightsResolve. cbn.
  apply forallb_forall. intros w Hw.
  apply list_elem_of_In, list_elem_of_filter in Hw as [Hhas _].
  unfold modelAt. rewrite (proj2 (Z.ltb_ge _ _)) by lia.
  rewrite Nat2Z.id, list_lookup_insert_eq by (by eapply lookup_lt_Some).
  cbn. revert Hhas. unfold has.
  destruct (Model.embeddings newModel !! w) as [e|] eqn:He; [|done].
  intros _.
  assert (Hd : w ∈ dom (applyCache (wordPos st) (Model.embeddings newModel))).
  { rewrite applyCache_dom. apply elem_of_dom. by eexists. }
  apply elem_of_dom in Hd as [e' ->]. done.
Qed.

(** ** Concrete sessions *)

Example Number_decimal : JS.Number " 0.25 " = JS.Dec 25 (-2).
Proof. reflexivity. Qed.

Example Number_letter : JS.isNaN (JS.Number "x") = true.
Proof. reflexivity. Qed.

Example Number_exponent : JS.Number "-1.5e3" = JS.Dec (-15) 2.
Proof. reflexivity. Qed.

Example Number_hex : JS.Number "0x1F" = JS.Dec 31 0.
Proof. reflexivity. Qed.

Example stripQuotes_both : JS.stripQuotes "'dog'" = "dog".
Proof. reflexivity. Qed.

Example stripQuotes_single : JS.stripQuotes "'" = "".
Proof. reflexivity. Qed.

Example split_blank : JS.split " " "a  b" = ["a"; ""; "b"].
Proof. reflexivity. Qed.

Example trim_both : JS.trim "  a b  " = "a b".
Proof. reflexivity. Qed.

Example removeExtension_last_dot : removeExtension "glove.2d.csv" = "glove.2d".
Proof. reflexivity. Qed.

Example unique_first_seen : unique ["a"; "b"; "a"; "c"; "b"] = ["a"; "b"; "c"].
Proof. reflexivity. Qed.

Example extractWords_fox :
  extractWords (JS.trim "The quick brown fox jumps. 123abc")
  = ["the"; "quick"; "brown"; "fox"; "jumps"].
Proof. vm_compute. reflexivity. Qed.

Example fox_paragraph_one_batch :
  let r := run (handleParagraphSubmit dictionary "para-1"
                  "The quick brown fox jumps. 123abc") foxState in
  r.1 = Returned tt ∧
  trace r.2 = [EvFetch "the"; EvFetch "quick"; EvFetch "brown";
               EvFetch "fox"; EvFetch "jumps"; EvAwaitAll 5] ∧
  highlightedWords (ui r.2) = ["the"; "quick"; "brown"; "fox"; "jumps"] ∧
  success (ui r.2) = "Added 5 words from paragraph (1 noun)".
Proof. vm_compute. repeat split; reflexivity. Qed.

(** C2, on the code.  A session that loads a model holding [cat], adds
    [cat], and then loads a model holding only [dog]: the invariant holds
    before the second load; after it the new model is the active one, [cat]
    is still highlighted, and [cat] is not a key of the active model. *)
Theorem C2_load_leaves_stale_highlights :
  let s0 := ui (run (handleFileUpload
                       (Parsed "a.csv" [["0.1"; "0.2"; "cat"]]))
                  initialState).2 in
  let s1 := ui (run (handleSearch noService "cat") s0).2 in
  let s2 := ui (run (handleFileUpload
                       (Parsed "b.csv" [["0.5"; "0.6"; "dog"]])) s1).2 in
  highlightsResolve s1 = true ∧
  length (models s2) = 2%nat ∧
  activeModelIndex s2 = 1 ∧
  highlightedWords s2 = ["cat"] ∧
  (∃ m, modelAt (models s2) (activeModelIndex s2) = Some m ∧
        Model.embeddings m !! "cat" = None) ∧
  highlightsResolve s2 = false.
Proof.
  vm_compute. repeat split; try reflexivity.
  eexists. split; reflexivity.
Qed.


(** The same for every answer without an entry. *)
Lemma fetchWordData_no_entry fetch word data st :
  fetch word = Json data → noEntry data →
  run (fetchWordData fetch word) st = (Returned tt, mkWorld st [EvFetch word]).
Proof.
  intros Hf Hno. unfold run, fetchWordData, fetchJson, firstMeaning, andAlso.
  munfold. rewrite Hf. cbn [ui trace app].
  destruct Hno as [Hd|(entry & He & Ht)].
  - by rewrite Hd, Hd.
  - destruct (truthy data) eqn:Hd; [|by rewrite Hd].
    rewrite He. cbn. by rewrite Ht, Ht.
Qed.

(** C1 as stated fails on the example of the specification: two rows are
    invalid in the sense of the claim, the handler reports one, and the
    embedding count is not the number of rows minus the reported count. *)
Lemma C1_counterexample_period_row_not_counted :
  let parsed := parseRows ∅ appleRows in
  let st' := ui (run (handleFileUpload (Parsed "apple.csv" appleRows))
                   initialState).2 in
  length (filter (λ row, claimedInvalid row = true) appleRows) = 2%nat ∧
  parsed.2 = 1%nat ∧
  map_to_list parsed.1 =
    [("apple", WordEmbedding.mk "Apple" (JS.Dec 1 (-1)) (JS.Dec 2 (-1)) None)] ∧
  size parsed.1 ≠ (length appleRows - parsed.2)%nat ∧
  success st' = "Model loaded with 1 words (1 invalid entries skipped)".
Proof. vm_compute. repeat split; try reflexivity. discriminate. Qed.



(** ** The theorems with hypotheses, at concrete inputs *)

(** C1 at the rows of the example of the specification. *)
Lemma C1_witness_apple_rows :
  validEntries (wordPos initialState) appleRows ≠ [] ∧
  ∃ st' m,
    run (handleFileUpload (Parsed "apple.csv" appleRows)) initialState
      = (Returned tt, mkWorld st' []) ∧
    models st' = models initialState ++ [m] ∧
    (parseRows (wordPos initialState) appleRows).2
      = length (filter (λ row, countedInvalid row = true) appleRows).
Proof.
  assert (H : validEntries (wordPos initialState) appleRows ≠ [])
    by (vm_compute; discriminate).
  split; [exact H|].
  destruct (C1_loadModel_counts "apple.csv" appleRows initialState H)
    as (st' & m & Hrun & Hm & _ & _ & _ & _ & _ & _ & Hinv & _).
  exists st', m. split; [exact Hrun|]. split; [exact Hm|exact Hinv].
Defined.




(** C10 at two rows that spell apple in different cases. *)
Lemma C10_witness_apple_twice :
  let e1 := WordEmbedding.mk "Apple" (JS.Dec 1 0) (JS.Dec 2 0) None in
  let e2 := WordEmbedding.mk "APPLE" (JS.Dec 3 0) (JS.Dec 4 0) None in
  let rows := [] ++ ["1"; "2"; "Apple"] :: [] ++ ["3"; "4"; "APPLE"] :: [] in
  validEntry ∅ ["1"; "2"; "Apple"] = Some ("apple", e1) ∧
  validEntry ∅ ["3"; "4"; "APPLE"] = Some ("apple", e2) ∧
  (parseRows ∅ rows).1 !! "apple" = Some e2 ∧
  (size (parseRows ∅ rows).1 < length (validEntries ∅ rows))%nat.
Proof.
  intros e1 e2 rows.
  assert (H1 : validEntry ∅ ["1"; "2"; "Apple"] = Some ("apple", e1))
    by (vm_compute; reflexivity).
  assert (H2 : validEntry ∅ ["3"; "4"; "APPLE"] = Some ("apple", e2))
    by (vm_compute; reflexivity).
  split; [exact H1|]. split; [exact H2|].
  pose proof (C10_last_duplicate_row_wins ∅ [] [] [] _ _ "apple" e1 e2
                H1 H2 (List.Forall_nil _)) as H.
  cbv zeta in H. destruct H as (Hl & _ & Hs).
  split; [exact Hl|exact Hs].
Defined.
(** * The rest of the component *)

(** ** The derived view *)


Lemma has_is_Some {V} (k : string) (m : gmap string V) :
  has k m = true ↔ is_Some (m !! k).
Proof. unfold has. destruct (m !! k); split; (done || by intros [? ?]). Qed.



(** A visible embedding falls into exactly one group. *)
Lemma group_tests e :
  (hasPos "noun" e = true ∧ hasPos "verb" e = false ∧
   hasPos "adjective" e = false ∧ hasPos "adverb" e = false ∧
   isOther e = false) ∨
  (hasPos "noun" e = false ∧ hasPos "verb" e = true ∧
   hasPos "adjective" e = false ∧ hasPos "adverb" e = false ∧
   isOther e = false) ∨
  (hasPos "noun" e = false ∧ hasPos "verb" e = false ∧
   hasPos "adjective" e = true ∧ hasPos "adverb" e = false ∧
   isOther e = false) ∨
  (hasPos "noun" e = false ∧ hasPos "verb" e = false ∧
   hasPos "adjective" e = false ∧ hasPos "adverb" e = true ∧
   isOther e = false) ∨
  (hasPos "noun" e = false ∧ hasPos "verb" e = false ∧
   hasPos "adjective" e = false ∧ hasPos "adverb" e = false ∧
   isOther e = true).
Proof.
  unfold hasPos, isOther. destruct (WordEmbedding.pos e) as [q|]; [|tauto].
  destruct (String.eqb_spec q "noun") as [->|?]; [simpl; tauto|].
  destruct (String.eqb_spec q "verb") as [->|?]; [simpl; tauto|].
  destruct (String.eqb_spec q "adjective") as [->|?]; [simpl; tauto|].
  destruct (String.eqb_spec q "adverb") as [->|?]; [simpl; tauto|].
  rewrite orb_true_r. tauto.
Qed.

Lemma grouped_permutation (visible : list WordEmbedding.t) :
  let g := groupedEmbeddings visible in
  Grouped.noun g ++ Grouped.verb g ++ Grouped.adjective g ++
    Grouped.adverb g ++ Grouped.unknown g ≡ₚ visible.
Proof.
  unfold groupedEmbeddings.
  cbn [Grouped.noun Grouped.verb Grouped.adjective Grouped.adverb
       Grouped.unknown].
  induction visible as [|e l IH]; [done|].
  destruct (group_tests e)
    as [(H1 & H2 & H3 & H4 & H5)|[(H1 & H2 & H3 & H4 & H5)|
        [(H1 & H2 & H3 & H4 & H5)|[(H1 & H2 & H3 & H4 & H5)|
        (H1 & H2 & H3 & H4 & H5)]]]];
    repeat match goal with
           | |- context [filter ?P (e :: l)] =>
               first [rewrite (filter_cons_True P e l) by congruence
                     |rewrite (filter_cons_False P e l) by congruence]
           end;
    cbn [app]; rewrite <- ?Permutation_middle; by rewrite IH.
Qed.

(** X2.  The five groups split the visible embeddings: together they are a
    rearrangement of the visible list (so every visible embedding is plotted
    once, with each group in the order of the list), and the group sizes add
    up to the number of visible embeddings. *)
Theorem groupedEmbeddings_partition (visible : list WordEmbedding.t) :
  let g := groupedEmbeddings visible in
  Grouped.noun g ++ Grouped.verb g ++ Grouped.adjective g ++
    Grouped.adverb g ++ Grouped.unknown g ≡ₚ visible ∧
  (length (Grouped.noun g) + length (Grouped.verb g) +
   length (Grouped.adjective g) + length (Grouped.adverb g) +
   length (Grouped.unknown g) = length visible)%nat ∧
  Grouped.noun g `sublist_of` visible ∧
  Grouped.verb g `sublist_of` visible ∧
  Grouped.adjective g `sublist_of` visible ∧
  Grouped.adverb g `sublist_of` visible ∧
  Grouped.unknown g `sublist_of` visible.
Proof.
  intros g. pose proof (grouped_permutation visible) as Hperm.
  cbv zeta in Hperm. fold g in Hperm.
  split; [done|]. split.
  { apply Permutation_length in Hperm. rewrite !length_app in Hperm. lia. }
  subst g. unfold groupedEmbeddings.
  cbn [Grouped.noun Grouped.verb Grouped.adjective Grouped.adverb
       Grouped.unknown].
  repeat split; apply sublist_filter.
Qed.

(** ** Wrapping a definition *)

Lemma sapp_nil_r s : s +:+ "" = s.
Proof.
  induction s as [|c s IH]; [done|].
  change (String c (s +:+ "") = String c s). by rewrite IH.
Qed.

Lemma sapp_assoc a b c : (a +:+ b) +:+ c = a +:+ (b +:+ c).
Proof.
  induction a as [|x a IH]; [done|].
  change (String x ((a +:+ b) +:+ c) = String x (a +:+ (b +:+ c))).
  by rewrite IH.
Qed.

Lemma slength_app a b :
  String.length (a +:+ b) = (String.length a + String.length b)%nat.
Proof.
  induction a as [|x a IH]; [done|].
  change (S (String.length (a +:+ b)) =
          S (String.length a + String.length b)). by rewrite IH.
Qed.

Lemma sapp_not_empty a b : b ≠ "" → a +:+ b ≠ "".
Proof.
  intros Hb H. apply (f_equal String.length) in H.
  rewrite slength_app in H. destruct b; [done|]. simpl in H. lia.
Qed.

Lemma flat_cons l ls : flat (l :: ls) = l +:+ flat ls.
Proof. done. Qed.

Lemma flat_app ls ls' : flat (ls ++ ls') = flat ls +:+ flat ls'.
Proof.
  induction ls as [|l ls IH]; [done|].
  rewrite <- app_comm_cons, !flat_cons, IH. by rewrite sapp_assoc.
Qed.

Lemma flat_snoc ls l : flat (ls ++ [l]) = flat ls +:+ l.
Proof. by rewrite flat_app, flat_cons, sapp_nil_r. Qed.

Lemma join_snoc sep ls cur :
  join sep (ls ++ [cur]) = flat ((λ l, l +:+ sep) <$> ls) +:+ cur.
Proof.
  induction ls as [|l ls IH]; [done|].
  rewrite fmap_cons, flat_cons, !sapp_assoc, <- IH. by destruct ls.
Qed.

(** Splitting at the spaces loses nothing, and no piece holds a space. *)
Lemma split_spaces m :
  flat ((λ w, w +:+ " ") <$> JS.split " " m) = m +:+ " " ∧
  Forall (λ w, JS.sexists (λ c, Ascii.eqb c " ") w = false) (JS.split " " m).
Proof.
  induction m as [|c r [IHf IHs]]; [by repeat constructor|].
  cbn [JS.split]. destruct (Ascii.eqb_spec c " ") as [->|Hc].
  - split; [|by constructor]. by rewrite fmap_cons, flat_cons, IHf.
  - destruct (JS.split " " r) as [|h t].
    { apply (f_equal String.length) in IHf. rewrite slength_app in IHf.
      simpl in IHf. lia. }
    inversion IHs as [|? ? Hh Ht]; subst. split.
    + rewrite fmap_cons, flat_cons in *.
      change (String c ((h +:+ " ") +:+ flat ((λ w, w +:+ " ") <$> t)) =
              String c (r +:+ " ")). by rewrite IHf.
    + constructor; [|done]. simpl. rewrite Hh.
      by destruct (Ascii.eqb_spec c " ").
Qed.

Lemma formatStep_current ws : ∀ res cur,
  cur ≠ "" ∨ ws ≠ [] → (fold_left formatStep ws (res, cur)).2 ≠ "".
Proof.
  induction ws as [|w ws IH]; intros res cur H.
  { by destruct H. }
  cbn [fold_left formatStep].
  destruct (maxLineLength <? String.length cur + String.length w + 1)%nat;
    apply IH; left.
  - by apply sapp_not_empty.
  - by apply sapp_not_empty, sapp_not_empty.
Qed.

Lemma formatStep_lines ws : ∀ ls cur,
  Forall lineOk ls → lineOk cur →
  Forall (λ w, JS.sexists (λ c, Ascii.eqb c " ") w = false) ws →
  ∃ ls' cur',
    fold_left formatStep ws (flat ((λ l, l +:+ "<br>") <$> ls), cur) =
      (flat ((λ l, l +:+ "<br>") <$> ls'), cur') ∧
    Forall lineOk ls' ∧ lineOk cur' ∧
    flat ls' +:+ cur' = (flat ls +:+ cur) +:+ flat ((λ w, w +:+ " ") <$> ws).
Proof.
  induction ws as [|w ws IH]; intros ls cur Hls Hcur Hws.
  { exists ls, cur. change (flat ((λ w, w +:+ " ") <$> [])) with "".
    by rewrite sapp_nil_r. }
  inversion Hws as [|? ? Hw Hws']; subst.
  cbn [fold_left formatStep]. rewrite fmap_cons, flat_cons.
  destruct (Nat.ltb_spec maxLineLength
              (String.length cur + String.length w + 1)) as [Hlt|Hge].
  - destruct (IH (ls ++ [cur]) (w +:+ " "))
      as (ls' & cur' & Hf & ? & ? & Hflat).
    + apply Forall_app. split; [done|]. by constructor.
    + right. by exists w.
    + done.
    + exists ls', cur'. rewrite fmap_app in Hf.
      change ((λ l, l +:+ "<br>") <$> [cur]) with [cur +:+ "<br>"] in Hf.
      rewrite flat_snoc in Hf.
      split; [done|]. split; [done|]. split; [done|].
      by rewrite Hflat, flat_snoc, !sapp_assoc.
  - destruct (IH ls (cur +:+ w +:+ " "))
      as (ls' & cur' & Hf & ? & ? & Hflat); [done| |done|].
    + left. rewrite !slength_app. simpl. lia.
    + exists ls', cur'. split; [done|]. split; [done|]. split; [done|].
      by rewrite Hflat, !sapp_assoc.
Qed.

(** X3.  [formatMeaning] wraps without losing text: the result is a list
    of lines joined by the break tag, the lines put one after the other are
    the definition followed by one space, and every line is at most 40
    characters long or is a single word with its space (a word of 40
    characters or more gets a line of its own, after an empty line when it
    comes first).  The empty definition gives the empty string. *)
Theorem formatMeaning_wraps_without_loss (meaning : string) :
  if JS.isEmpty meaning then formatMeaning meaning = ""
  else
    ∃ lines,
      formatMeaning meaning = join "<br>" lines ∧
      flat lines = meaning +:+ " " ∧
      Forall lineOk lines.
Proof.
  unfold formatMeaning. destruct (JS.isEmpty meaning) eqn:He; [done|].
  destruct (split_spaces meaning) as [Hflat Hws].
  destruct (formatStep_lines (JS.split " " meaning) [] "")
    as (ls & cur & Hf & Hls & Hcur & Hall); [done|left; unfold maxLineLength; simpl; lia|done|].
  pose proof (formatStep_current (JS.split " " meaning) "" "") as Hne.
  change (flat ((λ l, l +:+ "<br>") <$> [])) with "" in Hf.
  rewrite Hf in Hne |- *. cbn [snd] in Hne.
  assert (Hcur' : JS.isEmpty cur = false).
  { apply isEmpty_false, Hne. right. destruct meaning as [|c r]; [done|].
    cbn [JS.split]. destruct (Ascii.eqb c " "); [done|].
    by destruct (JS.split " " r). }
  rewrite Hcur'. cbn [negb].
  exists (ls ++ [cur]). split; [by rewrite join_snoc|]. split.
  - by rewrite flat_snoc, Hall, Hflat.
  - apply Forall_app. split; [done|]. by constructor.
Qed.


(** ** The traces of the plot *)

Lemma collect_Returned {A B} (f : A → result B) l bs :
  collect f l = Returned bs ↔ Forall2 (λ a b, f a = Returned b) l bs.
Proof.
  revert bs. induction l as [|a l IH]; intros bs; simpl.
  { split; [by intros [= <-]; constructor|by inversion 1]. }
  destruct (f a) as [b|e] eqn:Hf.
  - destruct (collect f l) as [bs'|e].
    + split.
      * intros [= <-]. constructor; [done|]. by apply IH.
      * inversion 1 as [|? ? ? ? Hb Hr]; subst.
        apply IH in Hr. congruence.
    + split; [done|]. inversion 1 as [|? ? ? ? Hb Hr]; subst.
      by apply IH in Hr.
  - split; [done|]. inversion 1; congruence.
Qed.

Lemma collect_Thrown {A B} (f : A → result B) l err :
  collect f l = Thrown err → ∃ a, a ∈ l ∧ f a = Thrown err.
Proof.
  induction l as [|a l IH]; simpl; [done|].
  destruct (f a) as [b|e] eqn:Hf.
  - destruct (collect f l) as [bs'|e]; [done|].
    intros [= <-]. destruct IH as (a' & ? & ?); [done|].
    exists a'. split; [by right|done].
  - intros [= <-]. exists a. split; [by left|done].
Qed.

Lemma hoverText_cases meanings label e :
  match hoverText meanings label e with
  | Returned _ => ¬ unreadable meanings e
  | Thrown err => err = TypeError ∧ unreadable meanings e
  end.
Proof.
  unfold hoverText, unreadable.
  destruct (meanings !! JS.toLowerCase (WordEmbedding.word e)) as [v|] eqn:Hv.
  - destruct (truthy v) eqn:Ht.
    + destruct v; try (split; [done|]; eexists; by repeat split).
      intros (v' & [= <-] & _ & Hs). by eapply Hs.
    + intros (v' & [= <-] & ? & _). congruence.
  - by intros (v' & ? & _).
Qed.

Lemma plotTrace_cases meanings title label group :
  match plotTrace meanings title label group with
  | Returned t =>
      Trace.x t = WordEmbedding.x <$> group ∧
      Trace.y t = WordEmbedding.y <$> group ∧
      Trace.text t = (λ e, JS.toLowerCase (WordEmbedding.word e)) <$> group ∧
      length (Trace.hovertemplate t) = length group ∧
      Trace.color t = getPosColor (Some label) ∧
      Trace.name t = title +:+ " (" +:+ pretty (length group) +:+ ")" ∧
      Forall (λ e, ¬ unreadable meanings e) group
  | Thrown err => err = TypeError ∧ ∃ e, e ∈ group ∧ unreadable meanings e
  end.
Proof.
  unfold plotTrace.
  destruct (collect (hoverText meanings label) group) as [hs|err] eqn:Hc.
  - apply collect_Returned in Hc. cbn.
    repeat split; try done.
    + symmetry. by eapply Forall2_length.
    + induction Hc as [|e h ? ? Hh]; constructor; [|done].
      pose proof (hoverText_cases meanings label e) as Hcase.
      by rewrite Hh in Hcase.
  - apply collect_Thrown in Hc as (e & He & Hthrow).
    pose proof (hoverText_cases meanings label e) as Hcase.
    rewrite Hthrow in Hcase. destruct Hcase. split; [done|]. by exists e.
Qed.

Lemma hasPos_color p e :
  hasPos p e = true → getPosColor (WordEmbedding.pos e) = getPosColor (Some p).
Proof.
  unfold hasPos. destruct (WordEmbedding.pos e) as [q|]; [|done].
  by intros ->%String.eqb_eq.
Qed.

Lemma isOther_color e :
  isOther e = true →
  getPosColor (WordEmbedding.pos e) = getPosColor (Some "unknown").
Proof.
  unfold isOther, getPosColor.
  destruct (WordEmbedding.pos e) as [q|]; [|done].
  destruct (JS.isEmpty q) eqn:He.
  { apply isEmpty_true in He as ->. done. }
  cbn [orb]. intros H.
  repeat (apply andb_prop in H as [H ?]).
  repeat match goal with
         | H : negb ?b = true |- _ => apply negb_true_iff in H; rewrite H
         end.
  done.
Qed.

Lemma visibleEmbeddings_Thrown st err :
  visibleEmbeddings st = Thrown err → err = TypeError.
Proof.
  unfold visibleEmbeddings.
  destruct (negb (activeModelIndex st =? -1)); [|done].
  destruct (filter _ _); [done|].
  destruct (modelAt _ _); [done|congruence].
Qed.

Lemma plotData_cases (st : State) :
  match plotData st with
  | Returned traces =>
      ∃ visible groups,
        visibleEmbeddings st = Returned visible ∧
        length traces = 5%nat ∧
        concat groups ≡ₚ visible ∧
        Forall2 draws traces groups ∧
        Forall (λ e, ¬ unreadable (wordMeanings st) e) visible
  | Thrown err =>
      err = TypeError ∧
      (visibleEmbeddings st = Thrown TypeError ∨
       ∃ visible e, visibleEmbeddings st = Returned visible ∧ e ∈ visible ∧
                    unreadable (wordMeanings st) e)
  end.
Proof.
  unfold plotData.
  destruct (visibleEmbeddings st) as [visible|err] eqn:Hv; cycle 1.
  { apply visibleEmbeddings_Thrown in Hv as ->. split; [done|by left]. }
  pose proof (grouped_permutation visible) as Hperm.
  set (g := groupedEmbeddings visible) in *. cbv zeta in Hperm.
  assert (Hsub : ∀ e, e ∈ Grouped.noun g ∨ e ∈ Grouped.verb g ∨
                      e ∈ Grouped.adjective g ∨ e ∈ Grouped.adverb g ∨
                      e ∈ Grouped.unknown g → e ∈ visible).
  { intros e He. rewrite <- Hperm, !elem_of_app. tauto. }
  assert (Hcol :
    Forall (λ e, getPosColor (WordEmbedding.pos e) = getPosColor (Some "noun"))
      (Grouped.noun g) ∧
    Forall (λ e, getPosColor (WordEmbedding.pos e) = getPosColor (Some "verb"))
      (Grouped.verb g) ∧
    Forall (λ e, getPosColor (WordEmbedding.pos e) =
                 getPosColor (Some "adjective")) (Grouped.adjective g) ∧
    Forall (λ e, getPosColor (WordEmbedding.pos e) =
                 getPosColor (Some "adverb")) (Grouped.adverb g) ∧
    Forall (λ e, getPosColor (WordEmbedding.pos e) =
                 getPosColor (Some "unknown")) (Grouped.unknown g)).
  { unfold g, groupedEmbeddings.
    cbn [Grouped.noun Grouped.verb Grouped.adjective Grouped.adverb
         Grouped.unknown].
    repeat split; apply Forall_forall; intros e [He _]%list_elem_of_filter;
      first [by apply hasPos_color | by apply isOther_color]. }
  destruct Hcol as (Hc1 & Hc2 & Hc3 & Hc4 & Hc5).
  cbn [collect].
  pose proof (plotTrace_cases (wordMeanings st) "Nouns" "noun"
                (Grouped.noun g)) as H1.
  pose proof (plotTrace_cases (wordMeanings st) "Verbs" "verb"
                (Grouped.verb g)) as H2.
  pose proof (plotTrace_cases (wordMeanings st) "Adjectives" "adjective"
                (Grouped.adjective g)) as H3.
  pose proof (plotTrace_cases (wordMeanings st) "Adverbs" "adverb"
                (Grouped.adverb g)) as H4.
  pose proof (plotTrace_cases (wordMeanings st) "Others/Unknown" "unknown"
                (Grouped.unknown g)) as H5.
  destruct (plotTrace _ "Nouns" _ _) as [t1|e1];
    [|destruct H1 as (-> & e & He & Hu); split; [done|right];
      exists visible, e; split; [done|]; split; [apply Hsub; tauto|done]].
  destruct (plotTrace _ "Verbs" _ _) as [t2|e2];
    [|destruct H2 as (-> & e & He & Hu); split; [done|right];
      exists visible, e; split; [done|]; split; [apply Hsub; tauto|done]].
  destruct (plotTrace _ "Adjectives" _ _) as [t3|e3];
    [|destruct H3 as (-> & e & He & Hu); split; [done|right];
      exists visible, e; split; [done|]; split; [apply Hsub; tauto|done]].
  destruct (plotTrace _ "Adverbs" _ _) as [t4|e4];
    [|destruct H4 as (-> & e & He & Hu); split; [done|right];
      exists visible, e; split; [done|]; split; [apply Hsub; tauto|done]].
  destruct (plotTrace _ "Others/Unknown" _ _) as [t5|e5];
    [|destruct H5 as (-> & e & He & Hu); split; [done|right];
      exists visible, e; split; [done|]; split; [apply Hsub; tauto|done]].
  destruct H1 as (? & ? & ? & ? & Hk1 & ? & Hr1).
  destruct H2 as (? & ? & ? & ? & Hk2 & ? & Hr2).
  destruct H3 as (? & ? & ? & ? & Hk3 & ? & Hr3).
  destruct H4 as (? & ? & ? & ? & Hk4 & ? & Hr4).
  destruct H5 as (? & ? & ? & ? & Hk5 & ? & Hr5).
  exists visible,
    [Grouped.noun g; Grouped.verb g; Grouped.adjective g; Grouped.adverb g;
     Grouped.unknown g].
  split; [done|]. split; [done|]. split.
  { cbn [concat]. by rewrite app_nil_r. }
  split.
  - rewrite <- Hk1 in Hc1. rewrite <- Hk2 in Hc2. rewrite <- Hk3 in Hc3.
    rewrite <- Hk4 in Hc4. rewrite <- Hk5 in Hc5.
    repeat (constructor; [by repeat split; [..|eexists]|]). constructor.
  - rewrite <- Hperm, !Forall_app. tauto.
Qed.

(** X4.  The plot draws every visible embedding exactly once.  When
    [plotData] is computed it is five traces over five groups that together
    are a rearrangement of the visible embeddings; each trace has one
    coordinate pair, one lower-cased label and one hover text per embedding
    of its group, counts them in its name, and its colour is the colour of
    the tag of each of its embeddings.  The computation throws only
    TypeError: when the visible embeddings cannot be computed, or when the
    definition stored for a visible word is a truthy value that is not a
    string. *)
Theorem plotData_draws_each_visible_embedding_once (st : State) :
  match plotData st with
  | Returned traces =>
      ∃ visible groups,
        visibleEmbeddings st = Returned visible ∧
        length traces = 5%nat ∧
        concat groups ≡ₚ visible ∧
        Forall2 draws traces groups ∧
        Forall (λ e, ¬ unreadable (wordMeanings st) e) visible
  | Thrown err =>
      err = TypeError ∧
      (visibleEmbeddings st = Thrown TypeError ∨
       ∃ visible e, visibleEmbeddings st = Returned visible ∧ e ∈ visible ∧
                    unreadable (wordMeanings st) e)
  end.
Proof. apply plotData_cases. Qed.


(** ** The hover effect *)

Lemma findIndex_cases (p : string → bool) l :
  match findIndex p l with
  | Some j =>
      (∃ a, l !! j = Some a ∧ p a = true) ∧
      ∀ j' a', (j' < j)%nat → l !! j' = Some a' → p a' = false
  | None => ∀ a, a ∈ l → p a = false
  end.
Proof.
  induction l as [|a l IH]; simpl.
  { by intros a ?%elem_of_nil. }
  destruct (p a) eqn:Hp.
  - split; [by exists a|]. intros; lia.
  - destruct (findIndex p l) as [j|]; simpl.
    + destruct IH as [Hj Hfirst]. split; [done|].
      intros [|j'] a' Hlt Ha'; simpl in Ha'; [congruence|].
      eapply Hfirst; [|done]. lia.
    + intros a' [->|?]%elem_of_cons; [done|by apply IH].
Qed.

Lemma findHovered_cases traces h : ∀ k,
  match findHovered k traces h with
  | Some (i, j) =>
      (k ≤ i)%nat ∧
      ∃ t, traces !! (i - k)%nat = Some t ∧ Trace.text t !! j = Some h ∧
           (∀ i' t', (i' < i - k)%nat → traces !! i' = Some t' →
                     h ∉ Trace.text t') ∧
           (∀ j', (j' < j)%nat → Trace.text t !! j' ≠ Some h)
  | None => ∀ t, t ∈ traces → h ∉ Trace.text t
  end.
Proof.
  induction traces as [|t traces IH]; intros k; simpl.
  { by intros t ?%elem_of_nil. }
  pose proof (findIndex_cases (λ s, String.eqb s h) (Trace.text t)) as Hfind.
  destruct (findIndex _ (Trace.text t)) as [j|].
  - destruct Hfind as [(a & Ha & ->%String.eqb_eq) Hfirst].
    split; [lia|]. exists t. rewrite Nat.sub_diag.
    split; [done|]. split; [done|]. split; [intros; lia|].
    intros j' Hlt Hj'. apply Hfirst in Hj'; [|done].
    by rewrite String.eqb_refl in Hj'.
  - assert (Hnot : h ∉ Trace.text t).
    { intros Hin. apply Hfind in Hin. by rewrite String.eqb_refl in Hin. }
    specialize (IH (S k)).
    destruct (findHovered (S k) traces h) as [[i j]|].
    + destruct IH as (Hle & t' & Ht' & Hj & Hbefore & Hfirst).
      split; [lia|]. exists t'.
      replace (i - k)%nat with (S (i - S k)) by lia.
      split; [done|]. split; [done|]. split; [|done].
      intros [|i'] t'' Hlt Hi'; simpl in Hi'; [congruence|].
      eapply Hbefore; [|done]. lia.
    + intros t' [->|?]%elem_of_cons; [done|by apply IH].
Qed.

Lemma hoverTarget_cases
  (plotReady : bool) (hoveredWord : option string) (traces : list Trace.t) :
  match hoverTarget plotReady hoveredWord traces with
  | Some (i, j) =>
      plotReady = true ∧
      ∃ h t, hoveredWord = Some h ∧ h ≠ "" ∧
             traces !! i = Some t ∧ Trace.text t !! j = Some h ∧
             (∀ i' t', (i' < i)%nat → traces !! i' = Some t' →
                       h ∉ Trace.text t') ∧
             (∀ j', (j' < j)%nat → Trace.text t !! j' ≠ Some h)
  | None =>
      plotReady = false ∨ hoveredWord = None ∨ hoveredWord = Some "" ∨
      ∃ h, hoveredWord = Some h ∧ ∀ t, t ∈ traces → h ∉ Trace.text t
  end.
Proof.
  unfold hoverTarget. destruct plotReady; [|by left].
  destruct hoveredWord as [h|]; [|by right; left].
  destruct (JS.isEmpty h) eqn:He.
  { apply isEmpty_true in He as ->. by right; right; left. }
  pose proof (findHovered_cases traces h 0) as Hcases.
  destruct (findHovered 0 traces h) as [[i j]|].
  - destruct Hcases as (_ & t & Ht & Hj & Hbefore & Hfirst).
    rewrite Nat.sub_0_r in *. split; [done|]. exists h, t.
    repeat split; try done. intros ->. done.
  - right; right; right. by exists h.
Qed.

(** X5.  The hover effect points at the first trace that holds the hovered
    word and at the first point of that trace with this label.  It points at
    nothing exactly when there is no plot, no hovered word or an empty one,
    or when no trace holds the word. *)
Theorem hoverTarget_is_the_first_match
  (plotReady : bool) (hoveredWord : option string) (traces : list Trace.t) :
  match hoverTarget plotReady hoveredWord traces with
  | Some (i, j) =>
      plotReady = true ∧
      ∃ h t, hoveredWord = Some h ∧ h ≠ "" ∧
             traces !! i = Some t ∧ Trace.text t !! j = Some h ∧
             (∀ i' t', (i' < i)%nat → traces !! i' = Some t' →
                       h ∉ Trace.text t') ∧
             (∀ j', (j' < j)%nat → Trace.text t !! j' ≠ Some h)
  | None =>
      plotReady = false ∨ hoveredWord = None ∨ hoveredWord = Some "" ∨
      ∃ h, hoveredWord = Some h ∧ ∀ t, t ∈ traces → h ∉ Trace.text t
  end.
Proof. apply hoverTarget_cases. Qed.


(** ** Entries of a loaded model *)

Lemma addRow_entryOk cache acc row :
  (∀ k e, acc.1 !! k = Some e → entryOk cache k e) →
  ∀ k e, (addRow cache acc row).1 !! k = Some e → entryOk cache k e.
Proof.
  intros Hacc k e. unfold addRow.
  destruct row as [|c0 [|c1 [|c2 rest]]]; try apply Hacc.
  cbv zeta.
  destruct (JS.isEmpty (JS.stripQuotes (JS.trim c2))) eqn:Hempty;
    [apply Hacc|].
  destruct (String.eqb_spec (JS.stripQuotes (JS.trim c2)) ".") as [|Hdot];
    [apply Hacc|].
  cbn [orb].
  destruct (JS.isNaN (JS.Number (JS.trim (JS.stripQuotes c0)))) eqn:Hx;
    [apply Hacc|].
  destruct (JS.isNaN (JS.Number (JS.trim (JS.stripQuotes c1)))) eqn:Hy;
    [apply Hacc|].
  cbn [orb fst].
  destruct (decide (k = JS.toLowerCase (JS.stripQuotes (JS.trim c2))))
    as [->|Hk].
  - rewrite lookup_insert_eq. intros [= <-]. repeat split; try done.
    cbn. intros Hw. apply isEmpty_true in Hw. congruence.
  - rewrite lookup_insert_ne by done. apply Hacc.
Qed.

Lemma parseRows_entryOk cache rows k e :
  (parseRows cache rows).1 !! k = Some e → entryOk cache k e.
Proof.
  unfold parseRows.
  assert (Hfold : ∀ acc,
    (∀ k e, acc.1 !! k = Some e → entryOk cache k e) →
    ∀ k e, (fold_left (addRow cache) rows acc).1 !! k = Some e →
           entryOk cache k e).
  { induction rows as [|row rows IH]; intros acc Hacc; [done|].
    cbn [fold_left]. apply IH. by apply addRow_entryOk. }
  apply Hfold. intros k' e'. cbn. by rewrite lookup_empty.
Qed.

(** X6.  Every entry of a parsed file is sound: it is stored under the
    lower-cased form of its word, the word is neither empty nor a single
    period, both coordinates are numbers (never NaN), and its tag is what
    the cache holds for the key. *)
Theorem parseRows_stores_sound_entries
  (cache : gmap string string) (rows : list (list string))
  (k : string) (e : WordEmbedding.t) :
  (parseRows cache rows).1 !! k = Some e → entryOk cache k e.
Proof. apply parseRows_entryOk. Qed.

Lemma parseRows_stores_sound_entries_witness :
  (parseRows ∅ appleRows).1 !! "apple" =
    Some (WordEmbedding.mk "Apple" (JS.Dec 1 (-1)) (JS.Dec 2 (-1)) None) ∧
  entryOk ∅ "apple"
    (WordEmbedding.mk "Apple" (JS.Dec 1 (-1)) (JS.Dec 2 (-1)) None).
Proof.
  split; [by vm_compute|].
  apply (parseRows_stores_sound_entries ∅ appleRows). by vm_compute.
Defined.


(** ** Selecting and removing a model *)

Lemma applyCache_lookup cache embs k :
  applyCache cache embs !! k = retag cache k <$> embs !! k.
Proof.
  unfold applyCache. revert k.
  apply (map_fold_weak_ind
           (λ acc m, ∀ k, acc !! k = retag m k <$> embs !! k)).
  { intros k. unfold retag. rewrite lookup_empty. by destruct (embs !! k). }
  intros i p m acc Hi IH k.
  destruct (decide (k = i)) as [->|Hk].
  - pose proof (IH i) as Hacc. unfold retag in Hacc |- *.
    rewrite Hi in Hacc. rewrite lookup_insert_eq.
    destruct (embs !! i) as [e|]; simpl in *; rewrite Hacc.
    + by rewrite lookup_insert_eq.
    + done.
  - assert (Hne : match acc !! i with
                  | Some e => <[i := WordEmbedding.withPos p e]> acc
                  | None => acc
                  end !! k = acc !! k).
    { destruct (acc !! i); [by rewrite lookup_insert_ne|done]. }
    rewrite Hne, IH. unfold retag. by rewrite lookup_insert_ne.
Qed.

Lemma modelAt_of_nat ms (i : nat) : modelAt ms (Z.of_nat i) = ms !! i.
Proof.
  unfold modelAt. rewrite (proj2 (Z.ltb_ge _ _)) by lia. by rewrite Nat2Z.id.
Qed.

(** X7.  [selectModel] switches to the model at [index].  Selecting the
    active model changes nothing, and an index that names no model throws
    TypeError before any update.  Otherwise the selected model becomes the
    active one with the same name and the same words, every word of it the
    cache knows carries the cached tag and the other words keep theirs; the
    highlights are cut down to the words of the selected model, so that
    every highlight resolves afterwards, whatever held before; both
    messages are cleared; the other models, the cache, the definitions and
    the saved paragraphs stay as they were. *)
Theorem selectModel_switches_and_retags (index : nat) (st : State) :
  match run (selectModel index) st with
  | (Returned _, w') =>
      trace w' = [] ∧
      if decide (Z.of_nat index = activeModelIndex st) then ui w' = st
      else
        ∃ newModel updated,
          models st !! index = Some newModel ∧
          models (ui w') = <[index := updated]> (models st) ∧
          activeModelIndex (ui w') = Z.of_nat index ∧
          modelAt (models (ui w')) (activeModelIndex (ui w')) = Some updated ∧
          Model.name updated = Model.name newModel ∧
          (∀ k, Model.embeddings updated !! k =
                retag (wordPos st) k <$> Model.embeddings newModel !! k) ∧
          highlightedWords (ui w') =
            filter (λ w, has w (Model.embeddings newModel) = true)
              (highlightedWords st) ∧
          highlightsResolve (ui w') = true ∧
          error (ui w') = "" ∧ success (ui w') = "" ∧
          wordPos (ui w') = wordPos st ∧
          wordMeanings (ui w') = wordMeanings st ∧
          savedParagraphs (ui w') = savedParagraphs st ∧
          activeParagraphId (ui w') = activeParagraphId st ∧
          expandedParagraphId (ui w') = expandedParagraphId st
  | (Thrown e, w') =>
      e = TypeError ∧ w' = mkWorld st [] ∧
      models st !! index = None ∧ Z.of_nat index ≠ activeModelIndex st
  end.
Proof.
  unfold run, selectModel. munfold. cbn [ui trace].
  destruct (Z.eqb_spec (Z.of_nat index) (activeModelIndex st)) as [Hi|Hi].
  { split; [done|]. by rewrite decide_True. }
  destruct (models st !! index) as [newModel|] eqn:Hm; [|done].
  cbn [ui trace]. split; [done|]. rewrite decide_False by done.
  eexists newModel, _. split; [done|]. split; [reflexivity|].
  split; [done|]. cbn.
  rewrite modelAt_of_nat, list_lookup_insert_eq by (by eapply lookup_lt_Some).
  split; [done|]. split; [done|]. split; [apply applyCache_lookup|].
  split; [done|]. split; [|done].
  unfold highlightsResolve. cbn. apply forallb_forall. intros w Hw.
  apply list_elem_of_In, list_elem_of_filter in Hw as [Hhas _].
  apply has_is_Some. rewrite applyCache_lookup, fmap_is_Some.
  by apply has_is_Some.
Qed.

Lemma removeAt_lookup_lt {A} (l : list A) i j :
  (j < i)%nat → removeAt i l !! j = l !! j.
Proof.
  intros Hlt. unfold removeAt.
  destruct (decide (j < length l)%nat) as [Hj|Hj].
  - rewrite lookup_app_l by (rewrite length_take; lia).
    by rewrite lookup_take_lt.
  - rewrite !lookup_ge_None_2; [done|lia|].
    rewrite length_app, length_take, length_drop. lia.
Qed.

Lemma removeAt_lookup_ge {A} (l : list A) i j :
  (i ≤ j)%nat → (i < length l)%nat → removeAt i l !! j = l !! S j.
Proof.
  intros Hle Hi. unfold removeAt.
  rewrite lookup_app_r by (rewrite length_take; lia).
  rewrite length_take, lookup_drop. f_equal. lia.
Qed.

Lemma removeAt_length {A} (l : list A) i :
  length (removeAt i l) =
  if decide (i < length l)%nat then pred (length l) else length l.
Proof.
  unfold removeAt. rewrite length_app, length_take, length_drop.
  destruct (decide _); lia.
Qed.

(** X8.  [removeModel] never throws and removes the model at the index,
    when there is one.  Removing the active model leaves no model active
    and clears the highlights and both messages.  Removing another model
    keeps the same model active, although its index moves down when the
    removed model stood before it, and keeps the highlights.  In both cases
    the cache, the definitions and the saved paragraphs stay as they
    were. *)
Theorem removeModel_keeps_the_active_model (indexToRemove : nat) (st : State) :
  ∃ st',
    run (removeModel indexToRemove) st = (Returned tt, mkWorld st' []) ∧
    models st' = removeAt indexToRemove (models st) ∧
    length (models st') =
      (if decide (indexToRemove < length (models st))%nat
       then pred (length (models st)) else length (models st)) ∧
    (if decide (activeModelIndex st = Z.of_nat indexToRemove) then
       activeModelIndex st' = -1 ∧ highlightedWords st' = [] ∧
       error st' = "" ∧ success st' = ""
     else
       modelAt (models st') (activeModelIndex st') =
         modelAt (models st) (activeModelIndex st) ∧
       (activeModelIndex st' = -1 ↔ activeModelIndex st = -1) ∧
       highlightedWords st' = highlightedWords st ∧
       error st' = error st ∧ success st' = success st) ∧
    wordPos st' = wordPos st ∧ wordMeanings st' = wordMeanings st ∧
    savedParagraphs st' = savedParagraphs st ∧
    activeParagraphId st' = activeParagraphId st ∧
    expandedParagraphId st' = expandedParagraphId st.
Proof.
  unfold run, removeModel. munfold. cbn [ui trace].
  destruct (Z.eqb_spec (activeModelIndex st) (Z.of_nat indexToRemove))
    as [Hi|Hi];
    destruct (decide (activeModelIndex st = Z.of_nat indexToRemove))
    as [Hi'|Hi']; try done.
  { eexists. split; [reflexivity|]. cbn. by rewrite removeAt_length. }
  destruct (Z.ltb_spec (Z.of_nat indexToRemove) (activeModelIndex st))
    as [Hlt|Hge].
  - eexists. split; [reflexivity|]. cbn. rewrite removeAt_length.
    repeat split; try done; try lia.
    unfold modelAt.
    rewrite !(proj2 (Z.ltb_ge _ _)) by lia.
    destruct (decide (indexToRemove < length (models st))%nat) as [Hin|Hout].
    + rewrite removeAt_lookup_ge by lia. f_equal. lia.
    + rewrite !lookup_ge_None_2; [done|lia|rewrite removeAt_length].
      rewrite decide_False by done. lia.
  - eexists. split; [reflexivity|]. cbn. rewrite removeAt_length.
    repeat split; try done.
    unfold modelAt. destruct (Z.ltb_spec (activeModelIndex st) 0); [done|].
    apply removeAt_lookup_lt. lia.
Qed.

(** ** Removing a word *)

Lemma filter_ne_absent (w : string) (l : list string) :
  w ∉ l → filter (λ v, v ≠ w) l = l.
Proof.
  induction l as [|a l IH]; [done|]. intros Hw.
  apply not_elem_of_cons in Hw as [Hne Hw].
  rewrite filter_cons_True by done. by rewrite IH.
Qed.

(** X9.  [removeWord] undoes the addition of a word and forgets nothing
    that was learnt.  After a word that was not highlighted has been added,
    removing it gives back the list of highlights as it was before, while
    the models and the cache stay as the addition left them; adding the
    word once more then asks nothing of the dictionary service and
    highlights it again. *)
Theorem removeWord_undoes_addWord
  (fetch fetch' : string → response) (searchWord : string) (st : State)
  (m : Model.t) :
  let word := JS.toLowerCase (JS.trim searchWord) in
  word ≠ "" →
  modelAt (models st) (activeModelIndex st) = Some m →
  has word (Model.embeddings m) = true →
  word ∉ highlightedWords st →
  let w1 := (run (handleSearch fetch searchWord) st).2 in
  let r2 := run (removeWord word) (ui w1) in
  let r3 := run (handleSearch fetch' searchWord) (ui r2.2) in
  highlightedWords (ui w1) = highlightedWords st ++ [word] ∧
  r2.1 = Returned tt ∧
  highlightedWords (ui r2.2) = highlightedWords st ∧
  models (ui r2.2) = models (ui w1) ∧
  wordPos (ui r2.2) = wordPos (ui w1) ∧
  wordMeanings (ui r2.2) = wordMeanings (ui w1) ∧
  is_Some (wordPos (ui r2.2) !! word) ∧
  r3.1 = Returned tt ∧
  trace r3.2 = [] ∧
  highlightedWords (ui r3.2) = highlightedWords st ++ [word] ∧
  wordPos (ui r3.2) = wordPos (ui w1).
Proof.
  intros word Hword Hm Hhas Hnew w1 r2 r3.
  destruct (handleSearch_added fetch searchWord Hword st m Hm Hhas Hnew)
    as (s1 & w1' & Hrun & Hen & Hui & Hcache).
  assert (Hw1 : w1 = w1') by (unfold w1; by rewrite Hrun).
  clearbody w1. subst w1'. fold word in Hcache, Hui.
  assert (Hh1 : highlightedWords (ui w1) = highlightedWords st ++ [word]).
  { rewrite Hui. cbn. by rewrite (en_highlighted _ _ Hen). }
  assert (Hp1 : wordPos (ui w1) = wordPos s1) by (by rewrite Hui).
  assert (Hm1 : models (ui w1) = models s1) by (by rewrite Hui).
  assert (Hi1 : activeModelIndex (ui w1) = activeModelIndex st).
  { rewrite Hui. cbn. by apply en_index. }
  assert (Hcached : is_Some (wordPos (ui w1) !! word)).
  { rewrite Hp1. destruct (wordPos st !! word) as [p|] eqn:Hp.
    - destruct Hcache as [-> _]. by rewrite Hp.
    - destruct Hcache as (_ & p & _ & ->). done. }
  assert (Hr2 : r2 = (Returned tt,
            mkWorld (setHighlightedWords (λ _, highlightedWords st) (ui w1)) [])).
  { unfold r2, run, removeWord. munfold. cbn [ui trace]. rewrite Hh1.
    rewrite filter_app, filter_ne_absent by done.
    rewrite filter_cons_False, filter_nil by (by intros ?).
    by rewrite app_nil_r. }
  clearbody r2. subst r2. cbn [fst snd ui] in *.
  split; [done|]. split; [done|]. split; [done|]. split; [done|].
  split; [done|]. split; [done|]. split; [done|].
  set (st2 := setHighlightedWords (λ _, highlightedWords st) (ui w1)) in *.
  assert (Hm2 : ∃ m2, modelAt (models st2) (activeModelIndex st2) = Some m2 ∧
                      has word (Model.embeddings m2) = true).
  { assert (Hsome : is_Some (modelAt (models s1) (activeModelIndex st))).
    { eapply modelAt_vocabularies; [symmetry; apply (en_models _ _ Hen)|].
      by rewrite Hm. }
    destruct Hsome as [m2 Hm2]. exists m2.
    unfold st2. cbn. rewrite Hm1, Hi1. split; [done|].
    rewrite <- Hhas.
    eapply (modelAt_has (models st) (models s1));
      [symmetry; apply (en_models _ _ Hen)|done|done]. }
  destruct Hm2 as (m2 & Hm2 & Hhas2).
  destruct (handleSearch_added fetch' searchWord Hword st2 m2 Hm2 Hhas2)
    as (s3 & w3 & Hrun3 & Hen3 & Hui3 & Hcache3); [done|].
  unfold r3. rewrite Hrun3. cbn [fst snd].
  split; [done|].
  fold word in Hcache3.
  change (wordPos st2) with (wordPos (ui w1)) in Hcache3.
  destruct Hcached as [p Hp]. rewrite Hp in Hcache3.
  destruct Hcache3 as [Hsame Htrace].
  split; [done|]. rewrite Hui3. cbn.
  by rewrite (en_highlighted _ _ Hen3).
Qed.

Lemma removeWord_undoes_addWord_witness :
  let r2 := run (removeWord "fox")
              (ui (run (handleSearch dictionary " Fox ") foxState).2) in
  highlightedWords (ui r2.2) = highlightedWords foxState ∧
  trace (run (handleSearch noService " Fox ") (ui r2.2)).2 = [].
Proof.
  assert (H1 : JS.toLowerCase (JS.trim " Fox ") ≠ "") by (by vm_compute).
  assert (H2 : modelAt (models foxState) (activeModelIndex foxState)
               = Some foxModel) by (by vm_compute).
  assert (H3 : has (JS.toLowerCase (JS.trim " Fox "))
                 (Model.embeddings foxModel) = true) by (by vm_compute).
  assert (H4 : JS.toLowerCase (JS.trim " Fox ") ∉ highlightedWords foxState)
    by (vm_compute; by intros ?%elem_of_nil).
  pose proof (removeWord_undoes_addWord dictionary noService " Fox "
                foxState foxModel H1 H2 H3 H4) as H.
  cbv zeta in H. split; [apply H|apply H].
Defined.

(** ** Showing one paragraph *)

Lemma visibleEmbeddings_all st :
  activeParagraphId st = None →
  filter (λ w, paragraphShows st w = true) (highlightedWords st)
  = highlightedWords st.
Proof.
  intros Hnone. apply filter_all. intros w. unfold paragraphShows.
  by rewrite Hnone.
Qed.

(** X10.  [toggleActiveParagraph] changes the selection only, and through
    it the plot.  Toggling the selected paragraph clears the selection and
    the plot shows every highlight again.  Toggling another saved paragraph
    selects it, and the plot is the one that the highlights found among the
    words of that paragraph would give on their own.  An identifier that
    names no saved paragraph, or the empty identifier, restricts nothing.
    A second toggle of the same identifier clears the selection it made. *)
Theorem toggleActiveParagraph_restricts_the_plot
  (paragraphId : string) (st : State) :
  let all := setActiveParagraphId None st in
  ∃ st1,
    run (toggleActiveParagraph paragraphId) st = (Returned tt, mkWorld st1 []) ∧
    st1 = setActiveParagraphId
            (if decide (activeParagraphId st = Some paragraphId)
             then None else Some paragraphId) st ∧
    visibleEmbeddings st1 =
      (if decide (activeParagraphId st = Some paragraphId)
       then visibleEmbeddings all
       else match findParagraph paragraphId (savedParagraphs st) with
            | Some p =>
                if JS.isEmpty paragraphId then visibleEmbeddings all
                else visibleEmbeddings
                       (setHighlightedWords
                          (filter (λ w, w ∈ Paragraph.words p)) all)
            | None => visibleEmbeddings all
            end) ∧
    (activeParagraphId st ≠ Some paragraphId →
     run (toggleActiveParagraph paragraphId) st1 = (Returned tt, mkWorld all [])).
Proof.
  intros all. unfold run, toggleActiveParagraph. munfold. cbn [ui trace].
  destruct (decide (activeParagraphId st = Some paragraphId)) as [Ha|Ha].
  { rewrite bool_decide_eq_true_2 by done. eexists.
    split; [reflexivity|]. split; [done|]. split; [done|]. done. }
  rewrite bool_decide_eq_false_2 by done. eexists.
  split; [reflexivity|]. split; [done|]. split.
  - cbn [ui]. unfold visibleEmbeddings.
    cbn [activeModelIndex models highlightedWords setActiveParagraphId
         setHighlightedWords all].
    destruct (negb (activeModelIndex st =? -1)); [|by repeat case_match].
    assert (Hall : filter (λ w, paragraphShows all w = true)
                     (highlightedWords st) = highlightedWords st).
    { by apply (visibleEmbeddings_all all). }
    destruct (findParagraph paragraphId (savedParagraphs st)) as [p|] eqn:Hp.
    + destruct (JS.isEmpty paragraphId) eqn:He.
      * cbn [activeModelIndex models highlightedWords all
             setActiveParagraphId].
        fold all. rewrite Hall.
        rewrite (filter_all (λ w, paragraphShows _ w = true)); [done|].
        intros w. unfold paragraphShows.
        cbn [activeParagraphId savedParagraphs setActiveParagraphId
             setHighlightedWords all]. by rewrite He.
      * cbn [activeModelIndex models highlightedWords all
             setActiveParagraphId setHighlightedWords].
        rewrite (filter_all (λ w, paragraphShows (setHighlightedWords _ _) w
                                  = true)) by done.
        erewrite (list_filter_iff (λ w, paragraphShows _ w = true)
                    (λ w, w ∈ Paragraph.words p)); [done|].
        intros w. unfold paragraphShows.
        cbn [activeParagraphId savedParagraphs setActiveParagraphId
             setHighlightedWords all]. rewrite He, Hp.
        unfold includes. apply bool_decide_eq_true.
    + cbn [activeModelIndex models highlightedWords all setActiveParagraphId].
      fold all. rewrite Hall.
      rewrite (filter_all (λ w, paragraphShows _ w = true)); [done|].
      intros w. unfold paragraphShows.
        cbn [activeParagraphId savedParagraphs setActiveParagraphId
             setHighlightedWords all]. rewrite Hp.
      by destruct (JS.isEmpty paragraphId).
  - intros _. cbn. by rewrite bool_decide_eq_true_2.
Qed.


(** * Invariants of a session *)

(** ** Rules for weakest preconditions *)

Section Rules.
Context {A B : Type}.
Implicit Types (Q : A → World → Prop) (E : World → Prop) (w : World).

Lemma wp_ret (a : A) Q E w : Q a w → wp (mret a) Q E w.
Proof. done. Qed.

Lemma wp_throw e Q E w : E w → wp (throw e) Q E w.
Proof. done. Qed.

Lemma wp_bind (m : M A) (k : A → M B) (R : B → World → Prop) E w :
  wp m (λ a w', wp (k a) R E w') E w → wp (m ≫= k) R E w.
Proof. unfold wp. munfold. by destruct (m w) as [[a|e] w']. Qed.

Lemma wp_tryCatch (m h : M A) Q E w :
  wp m Q (λ w', wp h Q E w') w → wp (tryCatch m h) Q E w.
Proof. unfold wp. munfold. by destruct (m w) as [[a|e] w']. Qed.

Lemma wp_mono (m : M A) Q Q' E E' w :
  wp m Q E w → (∀ a w', Q a w' → Q' a w') → (∀ w', E w' → E' w') →
  wp m Q' E' w.
Proof. unfold wp. destruct (m w) as [[a|e] w']; eauto. Qed.

Lemma wp_run (m : M A) Q E w :
  wp m Q E w →
  match (m w).1 with
  | Returned a => Q a (m w).2
  | Thrown _ => E (m w).2
  end.
Proof. unfold wp. by destruct (m w) as [[a|e] w']. Qed.

End Rules.

Lemma wp_getState {B} (k : State → M B) R E w :
  wp (k (ui w)) R E w → wp (getState ≫= k) R E w.
Proof. done. Qed.

Lemma wp_update {B} f (k : unit → M B) R E w :
  wp (k tt) R E (mkWorld (f (ui w)) (trace w)) → wp (update f ≫= k) R E w.
Proof. done. Qed.

Lemma wp_update_last f (Q : unit → World → Prop) E w :
  Q tt (mkWorld (f (ui w)) (trace w)) → wp (update f) Q E w.
Proof. done. Qed.

Lemma wp_emit {B} e (k : unit → M B) R E w :
  wp (k tt) R E (mkWorld (ui w) (trace w ++ [e])) → wp (emit e ≫= k) R E w.
Proof. done. Qed.


(** ** The consistency of models, cache and highlights *)



Lemma annotate_eq i key p w :
  annotate i key p w =
  match modelAt (models (ui w)) i with
  | Some _ => (Returned tt, mkWorld (annotated i key p (ui w)) (trace w))
  | None => (Thrown TypeError, w)
  end.
Proof.
  unfold annotate, annotated. munfold.
  destruct (modelAt (models (ui w)) i) as [m|]; [|done].
  destruct (Model.embeddings m !! key); [done|]. by destruct w.
Qed.



Lemma modelAt_insert ms i x :
  is_Some (modelAt ms i) → modelAt (<[Z.to_nat i := x]> ms) i = Some x.
Proof.
  intros H. pose proof H as [Hi Hlt]%modelAt_is_Some.
  unfold modelAt. rewrite (proj2 (Z.ltb_ge _ _)) by lia.
  by rewrite list_lookup_insert_eq.
Qed.











Lemma annotated_none key p s : annotated (-1) key p s = s.
Proof. done. Qed.









(** ** The paragraph loop keeps the consistency *)








(** ** Loading, selecting and removing a model keep the consistency *)







Lemma modelAt_removeAt_above ms (i : nat) (j : Z) :
  Z.of_nat i < j → modelAt (removeAt i ms) (j - 1) = modelAt ms j.
Proof.
  intros Hlt. unfold modelAt. rewrite !(proj2 (Z.ltb_ge _ _)) by lia.
  destruct (decide (i < length ms)%nat) as [Hin|Hout].
  - rewrite removeAt_lookup_ge by lia. f_equal. lia.
  - rewrite !lookup_ge_None_2; [done|lia|rewrite removeAt_length].
    rewrite decide_False by done. lia.
Qed.

Lemma modelAt_removeAt_below ms (i : nat) (j : Z) :
  j < Z.of_nat i → modelAt (removeAt i ms) j = modelAt ms j.
Proof.
  intros Hlt. unfold modelAt. destruct (Z.ltb_spec j 0); [done|].
  apply removeAt_lookup_lt. lia.
Qed.




(** ** Every handler keeps the consistency *)






Lemma session_snoc acts a : session (acts ++ [a]) = after (session acts) a.
Proof. unfold session. by rewrite fold_left_app. Qed.



(** ** What a session guarantees *)












(** ** The effect hook *)

Lemma wp_pureM {A} (m : M A) (Q : A → World → Prop) E w :
  pureM m → (∀ a, Q a w) → E w → wp m Q E w.
Proof.
  intros Hpure HQ HE. unfold wp. destruct (Hpure w) as [r ->].
  by destruct r.
Qed.

(** [fetchWordData] returns whatever the service answers; it issues one
    request and learns tags and definitions only. *)
Lemma fetchWordData_enriches fetch word w0 :
  wp (fetchWordData fetch word)
    (λ _ w', enriches (ui w0) (ui w') ∧ trace w' = trace w0 ++ [EvFetch word])
    (λ _, False) w0.
Proof.
  set (Q := λ (_ : unit) w',
         enriches (ui w0) (ui w') ∧ trace w' = trace w0 ++ [EvFetch word]).
  assert (Hcatch : ∀ w',
    enriches (ui w0) (ui w') → trace w' = trace w0 ++ [EvFetch word] →
    wp (update (setWordPos (<[JS.toLowerCase word := "unknown"]>))) Q
      (λ _, False) w').
  { intros w' He Ht. apply wp_update_last. split; [|done].
    eapply enriches_trans; [done|apply enriches_cache]. }
  unfold fetchWordData. apply wp_tryCatch, wp_bind.
  unfold fetchJson. apply wp_emit.
  set (w1 := mkWorld (ui w0) (trace w0 ++ [EvFetch word])).
  assert (H1 : enriches (ui w0) (ui w1)) by apply enriches_refl.
  destruct (fetch word) as [| |data];
    try (apply wp_throw, Hcatch; done).
  apply wp_ret, wp_bind.
  apply wp_pureM; [apply firstMeaning_pure| |by apply Hcatch].
  intros guard. destruct (truthy guard); [|by apply wp_ret].
  apply wp_bind.
  apply wp_pureM; [apply firstDefinition_pure| |by apply Hcatch].
  intros meaning. apply wp_update.
  set (w2 := mkWorld _ _).
  assert (H2 : enriches (ui w0) (ui w2)) by apply enriches_meanings.
  apply wp_bind.
  apply wp_pureM; [apply firstPartOfSpeech_pure| |by apply Hcatch].
  intros partOfSpeech. cbv zeta. apply wp_update.
  set (w3 := mkWorld _ _).
  assert (H3 : enriches (ui w0) (ui w3)).
  { eapply enriches_trans; [apply H2|apply enriches_cache]. }
  apply wp_getState.
  destruct (guarded_annotate_run (ui w3) (JS.toLowerCase word)
              (normalizePos partOfSpeech) w3)
    as (r & w4 & Ha & He & Ht & _ & _).
  unfold wp at 1. rewrite Ha.
  assert (H4 : enriches (ui w0) (ui w4)) by (by eapply enriches_trans).
  destruct r as [[]|e].
  - split; [done|]. by rewrite Ht.
  - apply Hcatch; [done|]. by rewrite Ht.
Qed.


Lemma fetchData_loop_requests fetch st0 ws : ∀ w,
  let asked :=
    filter (λ k, negb (has k (wordMeanings st0)) || negb (has k (wordPos st0))
                 = true) (JS.toLowerCase <$> ws) in
  wp (forEach (λ word,
        let lowerWord := JS.toLowerCase word in
        if negb (has lowerWord (wordMeanings st0)) ||
           negb (has lowerWord (wordPos st0))
        then fetchWordData fetch lowerWord
        else mret tt) ws)
    (λ _ w', enriches (ui w) (ui w') ∧
             trace w' = trace w ++ (EvFetch <$> asked) ∧
             (asked = [] → w' = w))
    (λ _, False) w.
Proof.
  induction ws as [|v rest IH]; intros w asked.
  { apply wp_ret. split; [apply enriches_refl|].
    split; [by rewrite app_nil_r|done]. }
  cbn [forEach]. apply wp_bind. cbv zeta.
  subst asked. rewrite fmap_cons.
  destruct (negb (has (JS.toLowerCase v) (wordMeanings st0)) ||
            negb (has (JS.toLowerCase v) (wordPos st0))) eqn:Htest.
  - rewrite filter_cons_True by done.
    eapply wp_mono; [apply fetchWordData_enriches| |done].
    intros [] w1 [He1 Ht1].
    eapply wp_mono; [apply IH| |done].
    intros [] w2 (He2 & Ht2 & _). split; [by eapply enriches_trans|].
    split; [|done]. rewrite Ht2, Ht1, <- app_assoc. done.
  - rewrite filter_cons_False by (by rewrite Htest).
    apply wp_ret. eapply wp_mono; [apply IH|done|done].
Qed.

(** X15.  The effect hook asks for what is missing and never throws.  It
    issues one request for each highlight whose lower-cased form lacks a
    definition or a tag, in the order of the highlights, and no other; it
    learns tags and definitions only (the highlights, the index, the
    messages, the paragraphs and the vocabularies of the models stay, and
    the cache loses no key); and with nothing missing it leaves the state
    as it is. *)
Theorem fetchData_requests_what_is_missing
  (fetch : string → response) (st : State) :
  ∃ w',
    run (fetchData fetch) st = (Returned tt, w') ∧
    trace w' = EvFetch <$> missing st ∧
    enriches st (ui w') ∧
    (missing st = [] → ui w' = st).
Proof.
  pose proof (fetchData_loop_requests fetch st (highlightedWords st)
                (mkWorld st [])) as H.
  unfold run, fetchData. unfold wp in H. munfold. cbn [ui] in *.
  destruct (forEach _ _ _) as [[[]|e] w']; [|done].
  destruct H as (He & Ht & Hq). exists w'.
  split; [done|]. split; [done|]. split; [done|].
  intros Hm. by rewrite (Hq Hm).
Qed.

Lemma annotated_lookup i key p s m e :
  modelAt (models s) i = Some m → Model.embeddings m !! key = Some e →
  ∃ m', modelAt (models (annotated i key p s)) i = Some m' ∧
        Model.embeddings m' !! key = Some (WordEmbedding.withPos p e).
Proof.
  intros Hm He. unfold annotated. rewrite Hm, He. cbn [models setModels].
  eexists. split; [apply modelAt_insert; by rewrite Hm|].
  cbn. by rewrite lookup_insert_eq.
Qed.

(** X16.  [fetchWordData] stores what the service answers.  It always
    returns after one request.  A rejected request or a body that is not
    JSON writes [unknown] for the lower-cased word and nothing else.  From
    a well-formed answer, in a state whose active index is none or names a
    model, it stores the first definition and the category of the first
    tag under the lower-cased word, and tags the embedding the active
    model holds for it; nothing else changes. *)
Theorem fetchWordData_stores_the_answer
  (fetch : string → response) (word : string) (st : State) :
  indexOk st st →
  let k := JS.toLowerCase word in
  let r := run (fetchWordData fetch word) st in
  r.1 = Returned tt ∧ trace r.2 = [EvFetch word] ∧
  match fetch word with
  | NetworkError | InvalidBody => ui r.2 = setWordPos (<[k := "unknown"]>) st
  | Json data =>
      ∀ tag definition,
        wellFormed data tag definition →
        ui r.2 = annotated (activeModelIndex st) k (taxonomyOf tag)
                   (setWordPos (<[k := taxonomyOf tag]>)
                      (setWordMeanings (<[k := VString definition]>) st)) ∧
        wordMeanings (ui r.2) !! k = Some (VString definition) ∧
        wordPos (ui r.2) !! k = Some (taxonomyOf tag) ∧
        (∀ m e,
           modelAt (models st) (activeModelIndex st) = Some m →
           Model.embeddings m !! k = Some e →
           ∃ m', modelAt (models (ui r.2)) (activeModelIndex st) = Some m' ∧
                 Model.embeddings m' !! k =
                   Some (WordEmbedding.withPos (taxonomyOf tag) e))
  end.
Proof.
  intros Hok k r.
  pose proof (wp_run _ _ _ _ (fetchWordData_enriches fetch word (mkWorld st [])))
    as Hrun.
  fold (run (fetchWordData fetch word) st) in Hrun. fold r in Hrun.
  destruct r.1 as [[]|e] eqn:Hr1; [|done]. destruct Hrun as [_ Htrace].
  split; [done|]. split; [done|].
  subst r. unfold run, fetchWordData, fetchJson. munfold. cbn [ui trace].
  destruct (fetch word) as [| |data] eqn:Hf; [done|done|].
  intros tag definition
    (eprops & entries & mprops & meanings & dprops & defs &
     -> & Hms & Htag & Hdefs & Hdef).
  unfold firstMeaning, firstDefinition, firstPartOfSpeech, andAlso. munfold.
  cbn. rewrite Hms. cbn. rewrite Hdefs. cbn. rewrite Hdef, Htag.
  rewrite normalizePos_taxonomyOf. fold k.
  set (s2 := setWordPos (<[k := taxonomyOf tag]>)
               (setWordMeanings (<[k := VString definition]>) st)).
  assert (Hstate :
    ui (match
          (if negb (activeModelIndex st =? -1)
           then annotate (activeModelIndex st) k (taxonomyOf tag)
           else λ w, (Returned tt, w)) (mkWorld s2 [EvFetch word])
        with
        | (Returned a, w') => (Returned a, w')
        | (Thrown _, w') =>
            (Returned tt,
             mkWorld (setWordPos (<[k := "unknown"]>) (ui w')) (trace w'))
        end).2
    = annotated (activeModelIndex st) k (taxonomyOf tag) s2).
  { destruct (Z.eqb_spec (activeModelIndex st) (-1)) as [Hi|Hi]; cbn [negb].
    - by rewrite Hi.
    - rewrite annotate_eq. cbn [ui trace].
      destruct Hok as [?|[m Hm]]; [done|].
      change (models s2) with (models st). by rewrite Hm. }
  split; [exact Hstate|]. rewrite Hstate.
  assert (Hkeep : ∀ i key p s,
            wordMeanings (annotated i key p s) = wordMeanings s ∧
            wordPos (annotated i key p s) = wordPos s).
  { intros. unfold annotated. by repeat case_match. }
  destruct (Hkeep (activeModelIndex st) k (taxonomyOf tag) s2) as [-> ->].
  split; [by cbn; rewrite lookup_insert_eq|].
  split; [by cbn; rewrite lookup_insert_eq|].
  intros m e Hm He. eapply annotated_lookup; [exact Hm|exact He].
Qed.

Lemma fetchWordData_stores_the_answer_witness :
  indexOk foxState foxState ∧
  wordPos (ui (run (fetchWordData dictionary "fox") foxState).2) !! "fox"
    = Some "noun".
Proof.
  assert (Hok : indexOk foxState foxState).
  { right. vm_compute. by eexists. }
  split; [done|].
  destruct (fetchWordData_stores_the_answer dictionary "fox" foxState Hok)
    as (_ & _ & H).
  cbn [dictionary String.eqb Ascii.eqb Bool.eqb] in H.
  destruct (H (VString "noun") "A red wild dog.") as (_ & _ & Hpos & _).
  { by eexists _, _, _, _, _, _. }
  exact Hpos.
Defined.


(** ** The highlight invariant outside of loading *)

Lemma resolve_ext s s' :
  models s' = models s → activeModelIndex s' = activeModelIndex s →
  highlightedWords s' = highlightedWords s →
  highlightsResolve s' = highlightsResolve s.
Proof. unfold highlightsResolve. by intros -> -> ->. Qed.

Lemma resolve_spec s :
  highlightsResolve s = true ↔
  ∀ w, w ∈ highlightedWords s →
       ∃ m, modelAt (models s) (activeModelIndex s) = Some m ∧
            has w (Model.embeddings m) = true.
Proof.
  unfold highlightsResolve. rewrite forallb_forall. split.
  - intros H w Hw%list_elem_of_In. specialize (H w Hw).
    destruct (modelAt _ _) as [m|]; [by exists m|done].
  - intros H w Hw%list_elem_of_In. by destruct (H w Hw) as (m & -> & ?).
Qed.

Lemma resolve_enriches s s' :
  enriches s s' → highlightsResolve s = true → highlightsResolve s' = true.
Proof.
  intros He. rewrite !resolve_spec.
  rewrite (en_highlighted _ _ He), (en_index _ _ He).
  intros H w Hw. destruct (H w Hw) as (m & Hm & Hhas).
  destruct (modelAt_vocabularies (models s) (models s') (activeModelIndex s))
    as [m' Hm']; [symmetry; apply He|by rewrite Hm|].
  exists m'. split; [done|]. rewrite <- Hhas.
  eapply modelAt_has; [symmetry; apply He|done|done].
Qed.

Lemma resolve_filter (P : string → Prop) `{!∀ x, Decision (P x)} s :
  highlightsResolve s = true →
  highlightsResolve (setHighlightedWords (filter P) s) = true.
Proof.
  rewrite !resolve_spec. cbn.
  intros Hs w [_ Hw]%list_elem_of_filter. by apply Hs.
Qed.

Lemma resolve_nil s : highlightedWords s = [] → highlightsResolve s = true.
Proof. unfold highlightsResolve. by intros ->. Qed.

Lemma resolve_append ws s s' :
  enriches s s' → highlightsResolve s = true →
  (∀ w, w ∈ ws → ∃ m, modelAt (models s) (activeModelIndex s) = Some m ∧
                      has w (Model.embeddings m) = true) →
  highlightsResolve (setHighlightedWords (λ _, highlightedWords s ++ ws) s')
  = true.
Proof.
  intros He Hs Hws. apply resolve_spec. cbn.
  assert (Hmove : ∀ w m,
    modelAt (models s) (activeModelIndex s) = Some m →
    has w (Model.embeddings m) = true →
    ∃ m', modelAt (models s') (activeModelIndex s') = Some m' ∧
          has w (Model.embeddings m') = true).
  { intros w m Hm Hhas. rewrite (en_index _ _ He).
    destruct (modelAt_vocabularies (models s) (models s') (activeModelIndex s))
      as [m' Hm']; [symmetry; apply He|by rewrite Hm|].
    exists m'. split; [done|]. rewrite <- Hhas.
    eapply modelAt_has; [symmetry; apply He|done|done]. }
  intros w [Hw|Hw]%elem_of_app.
  - destruct (proj1 (resolve_spec s) Hs w Hw) as (m & ? & ?).
    by eapply Hmove.
  - destruct (Hws w Hw) as (m & ? & ?). by eapply Hmove.
Qed.

Lemma handleSearch_resolve fetch searchWord st :
  highlightsResolve st = true →
  highlightsResolve (ui (run (handleSearch fetch searchWord) st).2) = true.
Proof.
  intros Hst. set (word := JS.toLowerCase (JS.trim searchWord)).
  destruct (decide (word = "")) as [Hblank|Hword].
  { unfold run, handleSearch. fold word. by rewrite Hblank. }
  destruct (decide (activeModelIndex st = -1)) as [Hi|Hi].
  { rewrite (handleSearch_no_model fetch searchWord Hword st Hi).
    by rewrite <- Hst. }
  destruct (modelAt (models st) (activeModelIndex st)) as [m|] eqn:Hm;
    cycle 1.
  { unfold run, handleSearch. fold word. rewrite (isEmpty_false _ Hword).
    munfold. cbn [ui trace].
    rewrite (proj2 (Z.eqb_neq _ _) Hi), Hm. done. }
  destruct (has word (Model.embeddings m)) eqn:Hhas; cycle 1.
  { rewrite (handleSearch_not_found fetch searchWord Hword st m Hm Hhas).
    by rewrite <- Hst. }
  destruct (decide (word ∈ highlightedWords st)) as [Hin|Hnew].
  { rewrite (handleSearch_already fetch searchWord Hword st m Hm Hhas Hin).
    by rewrite <- Hst. }
  destruct (handleSearch_added fetch searchWord Hword st m Hm Hhas Hnew)
    as (s1 & w1 & -> & He & Hui & _).
  cbn [snd]. rewrite Hui. fold word.
  rewrite <- (resolve_append [word] st s1 He Hst).
  - apply resolve_ext; try done. cbn. by rewrite (en_highlighted _ _ He).
  - intros w ->%list_elem_of_singleton. by exists m.
Qed.

Lemma fetchData_resolve fetch st :
  highlightsResolve st = true →
  highlightsResolve (ui (run (fetchData fetch) st).2) = true.
Proof.
  intros Hst.
  pose proof (fetchData_loop_requests fetch st (highlightedWords st)
                (mkWorld st [])) as H.
  unfold run, fetchData. unfold wp in H. munfold. cbn [ui] in *.
  destruct (forEach _ _ _) as [[[]|e] w']; [|done].
  destruct H as (He & _). by eapply resolve_enriches.
Qed.

Lemma removeModel_resolve indexToRemove st :
  highlightsResolve st = true →
  highlightsResolve (ui (run (removeModel indexToRemove) st).2) = true.
Proof.
  intros Hst. unfold run, removeModel. munfold. cbn [ui trace].
  destruct (Z.eqb_spec (activeModelIndex st) (Z.of_nat indexToRemove))
    as [Hi|Hi]; [by apply resolve_nil|].
  assert (Hkeep : ∀ i,
    modelAt (removeAt indexToRemove (models st)) i
      = modelAt (models st) (activeModelIndex st) →
    highlightsResolve
      (setActiveModelIndex i
         (setModels (removeAt indexToRemove) st)) = true).
  { intros i Hat. apply resolve_spec. cbn. rewrite Hat.
    by apply resolve_spec. }
  destruct (Z.ltb_spec (Z.of_nat indexToRemove) (activeModelIndex st))
    as [Hlt|Hge]; cbn [ui snd].
  - apply Hkeep. by apply modelAt_removeAt_above.
  - rewrite <- (Hkeep (activeModelIndex st)).
    + by apply resolve_ext.
    + destruct (decide (activeModelIndex st < 0)) as [Hneg|Hpos].
      * unfold modelAt. by rewrite (proj2 (Z.ltb_lt _ _) Hneg).
      * apply modelAt_removeAt_below. lia.
Qed.

Lemma selectModel_resolve index st :
  highlightsResolve st = true →
  highlightsResolve (ui (run (selectModel index) st).2) = true.
Proof.
  intros Hst.
  destruct (run (selectModel index) st) as [[[]|e] w'] eqn:Hrun.
  - by eapply selectModel_keeps_invariant.
  - revert Hrun. unfold run, selectModel. munfold. cbn [ui trace].
    destruct (Z.of_nat index =? activeModelIndex st); [done|].
    destruct (models st !! index); [done|]. by intros [= _ <-].
Qed.

Lemma removeParagraph_resolve paragraphId st :
  highlightsResolve st = true →
  highlightsResolve (ui (run (removeParagraph paragraphId) st).2) = true.
Proof.
  intros Hst. unfold run, removeParagraph. munfold. cbn [ui trace].
  destruct (findParagraph paragraphId (savedParagraphs st)) as [p|];
    [|done].
  rewrite <- (resolve_filter (λ v, v ∉ Paragraph.words p) st Hst).
  repeat case_match; pair_inv; by apply resolve_ext.
Qed.

Lemma candidateWords_has paragraph vocabulary w :
  w ∈ candidateWords paragraph vocabulary → has w vocabulary = true.
Proof.
  unfold candidateWords. intros [Hw _]%list_elem_of_filter.
  by apply has_is_Some.
Qed.

Lemma handleParagraphSubmit_resolve fetch pid paragraph st :
  highlightsResolve st = true →
  highlightsResolve (ui (run (handleParagraphSubmit fetch pid paragraph) st).2)
  = true.
Proof.
  intros Hst.
  destruct (decide (JS.trim paragraph = "")) as [Hblank|Htext].
  { unfold run. by rewrite submit_blank. }
  destruct (modelAt (models st) (activeModelIndex st)) as [m|] eqn:Hm.
  - destruct (submit_with_model fetch pid paragraph st m Htext Hm)
      as (w' & -> & Hcases).
    cbn [snd].
    destruct (candidateWords paragraph (Model.embeddings m))
      as [|a found] eqn:Hfound.
    { subst w'. by rewrite <- Hst. }
    destruct Hcases as (s1 & c & He & _ & Hui). rewrite Hui.
    set (st0 := setSuccess "" (setError "" st)) in *.
    assert (Hst0 : highlightsResolve st0 = true) by (by rewrite <- Hst).
    unfold afterLoop.
    destruct (freshWords st (a :: found)) as [|b fresh] eqn:Hfresh.
    + rewrite <- (resolve_enriches st0 s1 He Hst0). by apply resolve_ext.
    + rewrite <- (resolve_append (b :: fresh) st0 s1 He Hst0).
      * by apply resolve_ext.
      * intros w Hw. exists m. split; [done|].
        rewrite <- Hfresh in Hw.
        apply list_elem_of_filter in Hw as [_ Hw].
        rewrite <- Hfound in Hw. by eapply candidateWords_has.
  - assert (Hnil : highlightedWords st = []).
    { destruct (highlightedWords st) as [|w ws] eqn:Hh; [done|].
      destruct (proj1 (resolve_spec st) Hst w) as (m & Hm' & _);
        [rewrite Hh; by left|congruence]. }
    apply resolve_nil. rewrite <- Hnil.
    unfold run, handleParagraphSubmit. rewrite (isEmpty_false _ Htext).
    munfold. cbn [ui trace]. rewrite Hm.
    destruct (activeModelIndex st =? -1); [done|].
    unfold findWords. destruct (unique _); munfold; [|done].
    done.
Qed.

(** X17.  Every handler keeps the highlight invariant, except the loading
    of a parsed file.  When every highlight is a key of the active model
    before a handler runs, the same holds after it, whether it returns or
    throws, for every action that does not load a parsed file. *)
Theorem handlers_keep_highlights_resolved (a : action) (st : State) :
  loadsModel a = false →
  highlightsResolve st = true →
  highlightsResolve (after st a) = true.
Proof.
  intros Hload Hst. unfold after.
  destruct a as [[| |]| | | | | | | | | |]; try done; cbn [perform].
  - by apply handleSearch_resolve.
  - by apply fetchData_resolve.
  - by apply removeModel_resolve.
  - by apply selectModel_resolve.
  - apply (resolve_filter (λ v, v ≠ wordToRemove) st Hst).
  - unfold run, toggleActiveParagraph. munfold. cbn [ui].
    destruct (bool_decide _); by rewrite <- Hst.
  - unfold run, toggleExpandParagraph. munfold. cbn [ui].
    destruct (bool_decide _); by rewrite <- Hst.
  - by apply removeParagraph_resolve.
  - by apply handleParagraphSubmit_resolve.
Qed.

Lemma handlers_keep_highlights_resolved_witness :
  loadsModel (Search dictionary "fox") = false ∧
  highlightsResolve foxState = true ∧
  highlightsResolve (after foxState (Search dictionary "fox")) = true.
Proof.
  split; [done|]. split; [by vm_compute|].
  apply handlers_keep_highlights_resolved; [done|by vm_compute].
Defined.

(** ** Removing a paragraph that was just submitted *)

Lemma submit_records fetch pid paragraph st :
  let st' := ui (run (handleParagraphSubmit fetch pid paragraph) st).2 in
  (savedParagraphs st' = savedParagraphs st ∧
   highlightedWords st' = highlightedWords st) ∨
  (∃ ws,
     savedParagraphs st' =
       savedParagraphs st ++ [Paragraph.mk pid (JS.trim paragraph) ws] ∧
     highlightedWords st' = highlightedWords st ++ ws ∧
     Forall (λ w, w ∉ highlightedWords st) ws).
Proof.
  intros st'. subst st'.
  destruct (decide (JS.trim paragraph = "")) as [Hb|Hne].
  { left. unfold run. by rewrite submit_blank. }
  destruct (modelAt (models st) (activeModelIndex st)) as [m|] eqn:Hm.
  - destruct (submit_with_model fetch pid paragraph st m Hne Hm)
      as (w' & -> & Hcase).
    cbn [snd].
    destruct (candidateWords paragraph (Model.embeddings m))
      as [|a found'] eqn:Hfound.
    { left. by subst w'. }
    destruct Hcase as (s1 & c & He & _ & ->).
    unfold afterLoop.
    destruct (freshWords st (a :: found')) as [|b fresh] eqn:Hfresh.
    { left. simpl. split; [apply He|apply He]. }
    right. exists (b :: fresh). cbn.
    split; [by rewrite (en_saved _ _ He)|]. split; [done|].
    rewrite <- Hfresh. apply Forall_forall. intros w Hw.
    by apply list_elem_of_filter in Hw as [? _].
  - left. unfold run, handleParagraphSubmit.
    rewrite (isEmpty_false _ Hne). munfold. cbn [ui trace].
    destruct (activeModelIndex st =? -1); [done|].
    rewrite Hm. unfold findWords.
    destruct (unique (extractWords (JS.trim paragraph))); by munfold.
Qed.

Lemma findParagraph_fresh pid ps :
  Forall (λ p, Paragraph.id p ≠ pid) ps → findParagraph pid ps = None.
Proof.
  unfold findParagraph. induction 1 as [|p ps Hp _ IH]; [done|].
  cbn. by rewrite (proj2 (String.eqb_neq _ _) Hp).
Qed.

Lemma findParagraph_last pid ps p :
  Forall (λ p, Paragraph.id p ≠ pid) ps → Paragraph.id p = pid →
  findParagraph pid (ps ++ [p]) = Some p.
Proof.
  unfold findParagraph. intros Hps Hp.
  induction Hps as [|q ps Hq _ IH]; cbn.
  - by rewrite (proj2 (String.eqb_eq _ _) Hp).
  - by rewrite (proj2 (String.eqb_neq _ _) Hq).
Qed.

Lemma filter_all_in {A} (P : A → Prop) `{!∀ x, Decision (P x)} (l : list A) :
  (∀ x, x ∈ l → P x) → filter P l = l.
Proof.
  induction l as [|x l IH]; [done|]. intros Hall.
  rewrite filter_cons_True by (apply Hall; by left).
  rewrite IH; [done|]. intros y Hy. apply Hall. by right.
Qed.

Lemma filter_none {A} (P : A → Prop) `{!∀ x, Decision (P x)} (l : list A) :
  Forall (λ x, ¬ P x) l → filter P l = [].
Proof.
  induction 1 as [|x l Hx _ IH]; [done|].
  by rewrite filter_cons_False.
Qed.

(** X18.  [removeParagraph] undoes a submission.  When no saved paragraph
    carries the identifier yet, submitting a paragraph under it and then
    removing the paragraph of this identifier gives back the highlights
    and the saved paragraphs as they were before the submission, whatever
    the submission did; the removal returns, and the models, the cache and
    the definitions stay as the submission left them. *)
Theorem removeParagraph_undoes_submit
  (fetch : string → response) (pid paragraph : string) (st : State) :
  Forall (λ p, Paragraph.id p ≠ pid) (savedParagraphs st) →
  let st1 := after st (SubmitParagraph fetch pid paragraph) in
  let r2 := run (removeParagraph pid) st1 in
  r2.1 = Returned tt ∧
  highlightedWords (ui r2.2) = highlightedWords st ∧
  savedParagraphs (ui r2.2) = savedParagraphs st ∧
  models (ui r2.2) = models st1 ∧
  wordPos (ui r2.2) = wordPos st1 ∧
  wordMeanings (ui r2.2) = wordMeanings st1.
Proof.
  intros Hfresh st1 r2.
  pose proof (submit_records fetch pid paragraph st) as Hrec.
  cbv zeta in Hrec.
  change (ui (run (handleParagraphSubmit fetch pid paragraph) st).2)
    with st1 in Hrec.
  clearbody st1. subst r2. unfold run, removeParagraph. munfold.
  cbn [ui trace].
  destruct Hrec as [[Hs Hh]|(ws & Hs & Hh & Hnew)].
  - rewrite Hs, (findParagraph_fresh _ _ Hfresh). cbn. by rewrite Hs, Hh.
  - rewrite Hs,
      (findParagraph_last pid _ (Paragraph.mk pid (JS.trim paragraph) ws)
         Hfresh eq_refl).
    cbn [Paragraph.words].
    assert (H1 : filter (λ w, w ∉ ws) (highlightedWords st1)
                 = highlightedWords st).
    { rewrite Hh, filter_app.
      rewrite (filter_all_in (λ w, w ∉ ws) (highlightedWords st)).
      - rewrite (filter_none (λ w, w ∉ ws) ws); [by rewrite app_nil_r|].
        apply Forall_forall. by intros w Hw Hnot.
      - intros w Hw Hin.
        by eapply Forall_forall in Hnew. }
    assert (H2 : filter (λ p, Paragraph.id p ≠ pid) (savedParagraphs st1)
                 = savedParagraphs st).
    { rewrite Hs, filter_app.
      rewrite (filter_all_in (λ p, Paragraph.id p ≠ pid) (savedParagraphs st)).
      - rewrite filter_cons_False by (by intros ?). by rewrite app_nil_r.
      - intros p Hp. by eapply Forall_forall in Hfresh. }
    repeat case_match; pair_inv; cbn; by rewrite ?H1, ?H2.
Qed.

Lemma removeParagraph_undoes_submit_witness :
  Forall (λ p, Paragraph.id p ≠ "para-1") (savedParagraphs foxState) ∧
  highlightedWords
    (ui (run (removeParagraph "para-1")
           (after foxState
              (SubmitParagraph dictionary "para-1" "The quick brown fox"))).2)
  = highlightedWords foxState.
Proof.
  assert (H : Forall (λ p, Paragraph.id p ≠ "para-1")
                (savedParagraphs foxState)) by (vm_compute; constructor).
  split; [done|].
  apply (removeParagraph_undoes_submit dictionary "para-1"
           "The quick brown fox" foxState H).
Defined.

(** ** A load that fails *)

Lemma parseRows_empty cache rows :
  validEntries cache rows = [] → (parseRows cache rows).1 = ∅.
Proof.
  intros Hnone. apply dom_empty_inv_L. unfold parseRows.
  rewrite fold_addRow_dom, Hnone. cbn. set_solver.
Qed.

(** X19.  A load that fails changes the error message and nothing else.
    Without a file the handler does nothing; when the parser fails it
    reports [ParseError]; when no row of the file is valid it reports
    [EmptyModel].  In all three cases it returns, and the models, the
    active index, the highlights, the caches, the paragraphs and the
    success message of an earlier action stay as they were. *)
Theorem handleFileUpload_failure_changes_only_the_error
  (file : upload) (st : State) :
  let r := run (handleFileUpload file) st in
  match file with
  | NoFile => r = (Returned tt, mkWorld st [])
  | ParseFailed _ => r = (Returned tt, mkWorld (setError ParseError st) [])
  | Parsed _ rows =>
      validEntries (wordPos st) rows = [] →
      r = (Returned tt, mkWorld (setError EmptyModel st) [])
  end.
Proof.
  intros r. subst r. destruct file as [|name|name rows]; [done|done|].
  intros Hnone. rewrite handleFileUpload_run. cbv zeta.
  by rewrite (parseRows_empty _ _ Hnone).
Qed.

Lemma handleFileUpload_failure_changes_only_the_error_witness :
  validEntries (wordPos foxState) [["x"; "1"; "a"]] = [] ∧
  run (handleFileUpload (Parsed "bad.csv" [["x"; "1"; "a"]])) foxState
  = (Returned tt, mkWorld (setError EmptyModel foxState) []).
Proof.
  assert (H : validEntries (wordPos foxState) [["x"; "1"; "a"]] = [])
    by (by vm_compute).
  split; [done|].
  apply (handleFileUpload_failure_changes_only_the_error
           (Parsed "bad.csv" [["x"; "1"; "a"]]) foxState H).
Defined.


(** ** The counters of the success message *)

Lemma fields_lowered sep s :
  Forall (λ w, JS.toLowerCase w = w) (fields sep (JS.toLowerCase s)).
Proof.
  unfold JS.toLowerCase. induction s as [|c r IH]; [by repeat constructor|].
  cbn [JS.smap fields]. destruct (sep (JS.toLowerChar c)).
  - by constructor.
  - destruct (fields sep (JS.smap JS.toLowerChar r)) as [|h t].
    + repeat constructor. cbn. by rewrite toLowerChar_idem.
    + inversion IH as [|? ? Hh Ht]; subst. constructor; [|done].
      cbn. by rewrite toLowerChar_idem, Hh.
Qed.

Lemma firstSeen_elem w ws : w ∈ firstSeen ws → w ∈ ws.
Proof.
  induction ws as [|v ws IH]; [done|]. cbn [firstSeen].
  intros [->|[_ Hw]%list_elem_of_filter]%elem_of_cons; [by left|].
  right. by apply IH.
Qed.

Lemma candidateWords_lowered paragraph vocabulary :
  Forall (λ w, JS.toLowerCase w = w) (candidateWords paragraph vocabulary).
Proof.
  apply Forall_forall. intros w. unfold candidateWords, tokens.
  intros [_ Hw]%list_elem_of_filter.
  apply firstSeen_elem in Hw.
  apply list_elem_of_filter in Hw as [_ Hw].
  apply list_elem_of_filter in Hw as [_ Hw].
  pose proof (fields_lowered (λ c, negb (isAlnum c)) paragraph) as Hl.
  by eapply Forall_forall in Hl.
Qed.

Lemma tally_agree cache cache' c ws :
  (∀ w, w ∈ ws → cache' !! w = cache !! w) →
  tally cache' c ws = tally cache c ws.
Proof.
  revert c. induction ws as [|w ws IH]; intros c Hagree; [done|].
  cbn. rewrite (Hagree w) by (by left).
  apply IH. intros v Hv. apply Hagree. by right.
Qed.

Lemma tally_app cache c ws ws' :
  tally cache c (ws ++ ws') = tally cache (tally cache c ws) ws'.
Proof. apply fold_left_app. Qed.

Lemma annotated_cache i key p s : wordPos (annotated i key p s) = wordPos s.
Proof. unfold annotated. by repeat case_match. Qed.

Lemma annotated_enriches i key p s : enriches s (annotated i key p s).
Proof.
  pose proof (annotate_run i key p (mkWorld s [])) as [[Hn _]|(_ & s' & Hr & He & _)].
  - unfold annotated. cbn in Hn. rewrite Hn. apply enriches_refl.
  - rewrite annotate_eq in Hr. cbn [ui trace] in Hr.
    destruct (modelAt (models s) i); [|done]. by injection Hr as <-.
Qed.

(** One word of a batch: the cache changes at the word only, and a word
    that is added is counted under the tag the cache then holds for it. *)
Lemma processWord_counts st fetch c word w :
  indexOk st (ui w) → JS.toLowerCase word = word →
  wordPos (ui w) !! word = wordPos st !! word →
  wp (processWord st fetch c word)
    (λ cr w',
       enriches (ui w) (ui w') ∧
       (∀ k, k ≠ word → wordPos (ui w') !! k = wordPos (ui w) !! k) ∧
       if includes word (highlightedWords st)
       then cr = (c, None) ∧ wordPos (ui w') = wordPos (ui w)
       else ∃ p, wordPos (ui w') !! word = Some p ∧
                 cr = (count p c, Some word))
    (λ _, False) w.
Proof.
  intros Hok Hlow Hsame. unfold processWord.
  destruct (includes word (highlightedWords st)).
  { apply wp_ret. split; [apply enriches_refl|]. by split. }
  destruct (wordPos st !! word) as [p|] eqn:Hp.
  { apply wp_ret. split; [apply enriches_refl|]. split; [done|].
    exists p. by rewrite Hsame. }
  apply wp_tryCatch, wp_bind. rewrite Hlow.
  destruct (getWordPosDirectly_run fetch word w) as (p & ms & Hg & _).
  unfold wp at 1. rewrite Hg. apply wp_update. cbn [ui trace].
  set (s1 := setWordPos (<[word := p]>) (setWordMeanings (λ _, ms) (ui w))).
  assert (H1 : enriches (ui w) s1).
  { eapply enriches_trans; [apply (enriches_meanings (λ _, ms))|].
    apply enriches_cache. }
  assert (Hdone : ∀ t,
    wp (mret (count p c, Some word))
      (λ cr w',
         enriches (ui w) (ui w') ∧
         (∀ k, k ≠ word → wordPos (ui w') !! k = wordPos (ui w) !! k) ∧
         ∃ p0, wordPos (ui w') !! word = Some p0 ∧
               cr = (count p0 c, Some word))
      (λ _, False)
      (mkWorld (annotated (activeModelIndex st) word p s1) t)).
  { intros t. apply wp_ret. cbn [ui].
    split; [eapply enriches_trans; [apply H1|apply annotated_enriches]|].
    rewrite annotated_cache. subst s1. cbn. split.
    - intros k Hk. by rewrite lookup_insert_ne.
    - exists p. by rewrite lookup_insert_eq. }
  apply wp_bind.
  destruct (Z.eqb_spec (activeModelIndex st) (-1)) as [Hi|Hi]; cbn [negb].
  - apply wp_ret. specialize (Hdone (trace w ++ [EvFetch word])).
    by rewrite Hi, annotated_none in Hdone.
  - unfold wp at 1. rewrite annotate_eq. cbn [ui trace].
    assert (Hm : is_Some (modelAt (models s1) (activeModelIndex st))).
    { destruct (indexOk_enriches st _ _ H1 Hok) as [?|?]; done. }
    destruct Hm as [m ->]. apply Hdone.
Qed.
